(** * SudokuSolver: the CSP engine of [main.py] (class [SudokuCSP])

    A shallow embedding of the solver: board topology ([_build_peers]),
    domain initialisation ([_initialize_domains]), the arc-consistency
    propagator ([revise], [ac3]) and the heuristic backtracking search
    ([select_unassigned_variable], [order_domain_values],
    [assign_and_propagate], [backtrack], [solve]).

    Python integers are [Z]; a grid is a list of rows; a set of integers is a
    [gset Z]; the dictionary [domains] is a [gmap] from cells to sets.  The
    [while] loop of [ac3] and the recursion of [backtrack] carry fuel:
    [OutOfFuel] stands for a run that has not finished, and the termination
    theorems show that it never happens.

    The solver is embedded twice.  The first embedding passes the value of
    [domains] from call to call; most properties are proved on it.  The
    second one, module [Store], keeps dictionaries and sets as objects that
    can be shared and updated in place, as Python does; it is there to state
    what a call leaves untouched, and it is shown to compute the same values
    as the first.

    The utilities of the file ([read_puzzle_from_txt],
    [read_puzzle_from_csv], [print_grid] and the script) are embedded over
    an interface for the built-in functions of Python and for the files they
    read. *)

From Stdlib Require Import Ascii.
From stdpp Require Import gmap list sorting strings pretty.

(** ** Cells and the board topology *)

(** A cell is the tuple [(r, c)]. *)
Abbreviation cell := (nat * nat)%type.

(** An arc is the tuple [(xi, xj)] of the AC-3 worklist. *)
Abbreviation arc := (cell * cell)%type.

(** [domains]: a dictionary from cells to sets of candidate values. *)
Abbreviation assignment := (gmap cell (gset Z)).

(** [self.cells = [(r, c) for r in range(9) for c in range(9)]] *)
Definition cells : list cell :=
  flat_map (λ r, map (λ c, (r, c)) (seq 0 9)) (seq 0 9).

(** [_build_peers], the body of the two loops for one cell [(r, c)]. *)
Definition build_peers (r c : nat) : gset cell :=
  let row : gset cell :=
    list_to_set (map (λ j, (r, j)) (filter (λ j, j ≠ c) (seq 0 9))) in
  let col : gset cell :=
    list_to_set (map (λ i, (i, c)) (filter (λ i, i ≠ r) (seq 0 9))) in
  let br := 3 * (r / 3) in
  let bc := 3 * (c / 3) in
  let block : gset cell :=
    list_to_set
      (filter (λ ij, ij ≠ (r, c))
         (flat_map (λ i, map (λ j, (i, j)) (seq bc 3)) (seq br 3))) in
  row ∪ col ∪ block.

(** [self.peers[xi]] *)
Definition peers (xi : cell) : gset cell := build_peers xi.1 xi.2.

(** ** Iteration order of Python sets

    The program iterates over sets ([for xj in self.peers[xi]],
    [for xk in self.peers[xi] - {xj}], [for val in domains[var]]).  CPython
    enumerates every element once, in an order that the language leaves
    unspecified.  The order is an interface: any enumeration of the right
    elements is an implementation of it.  Every theorem below holds for all of
    them, and what [solve] returns does not depend on the one in use
    ([solve_order]). *)
Class SetOrder := {
  iter_peers : cell → list cell;
  iter_peers_except : cell → cell → list cell;
  iter_values : gset Z → list Z;
  iter_peers_perm xi : iter_peers xi ≡ₚ elements (peers xi);
  iter_peers_except_perm xi xj :
    iter_peers_except xi xj ≡ₚ elements (peers xi ∖ {[xj]});
  iter_values_perm s : iter_values s ≡ₚ elements s
}.

(** The order in which stdpp lists the elements of a set. *)
Definition elements_order : SetOrder :=
  {| iter_peers xi := elements (peers xi);
     iter_peers_except xi xj := elements (peers xi ∖ {[xj]});
     iter_values s := elements s;
     iter_peers_perm xi := reflexivity _;
     iter_peers_except_perm xi xj := reflexivity _;
     iter_values_perm s := reflexivity _ |}.

(** ** Results of loops that carry fuel *)

Inductive outcome (A : Type) : Type :=
  | OutOfFuel
  | Done (a : A).
Arguments OutOfFuel {A}.
Arguments Done {A} a.

(** [domains[c]]; the program only reads keys that are present (the 81
    cells, see [total_on_cells]). *)
Definition dom_of (domains : assignment) (c : cell) : gset Z :=
  domains !!! c.

(** ** Grids *)

Inductive error : Type :=
  | AssertionError (msg : string).

Record SudokuCSP : Type := {
  grid : list (list Z);
  domains : assignment
}.

(** [grid[r][c]] *)
Definition grid_at (grid : list (list Z)) (r c : nat) : Z :=
  (grid !!! r) !!! c.

(** [solved_grid[r][c] = v] *)
Definition write_cell (g : list (list Z)) (r c : nat) (v : Z)
  : list (list Z) :=
  alter (λ row, <[c := v]> row) r g.

(** [set(range(1, 10))] *)
Definition range_1_10 : gset Z := list_to_set (map Z.of_nat (seq 1 9)).

(** ** Python's order on tuples, as [sort] uses it *)

Definition cell_leb (a b : cell) : bool :=
  (a.1 <? b.1) || ((a.1 =? b.1) && (a.2 <=? b.2)).

(** Tuples [(len, -npeers, cell)]. *)
Definition mrv_leb (a b : nat * Z * cell) : bool :=
  let '(la, pa, ca) := a in
  let '(lb, pb, cb) := b in
  (la <? lb)
  || ((la =? lb) && ((pa <? pb)%Z || ((pa =? pb)%Z && cell_leb ca cb))).

Definition mrv_le (a b : nat * Z * cell) : Prop := mrv_leb a b.

Global Instance mrv_le_dec a b : Decision (mrv_le a b).
Proof. unfold mrv_le. apply _. Defined.

(** Tuples [(count, val)]. *)
Definition count_leb (a b : nat * Z) : bool :=
  (a.1 <? b.1) || ((a.1 =? b.1) && (a.2 <=? b.2)%Z).

Definition count_le (a b : nat * Z) : Prop := count_leb a b.

Global Instance count_le_dec a b : Decision (count_le a b).
Proof. unfold count_le. apply _. Defined.

Section Solver.
Context {O : SetOrder}.

(** *** AC-3 *)

(** [to_remove] of [revise]: the values [x] of [domains[xi]] with
    [len(domains[xj]) == 1 and x in domains[xj]]. *)
Definition to_remove (domains : assignment) (xi xj : cell) : gset Z :=
  filter (λ x, size (dom_of domains xj) = 1 ∧ x ∈ dom_of domains xj)
    (dom_of domains xi).

(** [revise]: the flag it returns and the dictionary after the in-place
    [domains[xi] -= to_remove]. *)
Definition revise (domains : assignment) (xi xj : cell)
  : bool * assignment :=
  let rm := to_remove domains xi xj in
  if decide (rm = ∅) then (false, domains)
  else (true, <[xi := dom_of domains xi ∖ rm]> domains).

(** The queue built at the start of [ac3]. *)
Definition all_arcs : list arc :=
  flat_map (λ xi, map (λ xj, (xi, xj)) (iter_peers xi)) cells.

(** The [while queue:] loop of [ac3]. *)
Fixpoint ac3_loop (fuel : nat) (domains : assignment) (queue : list arc)
  : outcome (bool * assignment) :=
  match queue with
  | [] => Done (true, domains)
  | (xi, xj) :: queue' =>
      match fuel with
      | 0 => OutOfFuel
      | S fuel' =>
          let '(revised, domains') := revise domains xi xj in
          if revised then
            if decide (dom_of domains' xi = ∅) then Done (false, domains')
            else
              ac3_loop fuel' domains'
                (queue' ++ map (λ xk, (xk, xi)) (iter_peers_except xi xj))
          else ac3_loop fuel' domains' queue'
      end
  end.

(** Number of candidates of an assignment, over the 81 cells. *)
Definition total_size (domains : assignment) : nat :=
  sum_list_with (λ c, size (dom_of domains c)) cells.

(** Fuel that the loop never exhausts (theorem [ac3_loop_terminates]). *)
Definition ac3_fuel (domains : assignment) (queue : list arc) : nat :=
  length queue + 20 * total_size domains.

(** [ac3(domains)]: the flag and the dictionary as the call leaves it. *)
Definition ac3 (domains : assignment) : outcome (bool * assignment) :=
  ac3_loop (ac3_fuel domains all_arcs) domains all_arcs.

(** *** Heuristic search *)

(** [is_solved]: [all(len(domains[cell]) == 1 for cell in self.cells)] *)
Definition is_solved (domains : assignment) : bool :=
  forallb (λ c, bool_decide (size (dom_of domains c) = 1)) cells.

(** [select_unassigned_variable]: the list [mrv] of the tuples
    [(len(domains[cell]), -len(self.peers[cell]), cell)], sorted; the cell
    of its first tuple. *)
Definition select_unassigned_variable (domains : assignment)
  : option cell :=
  let mrv :=
    map (λ c, (size (dom_of domains c), (- Z.of_nat (size (peers c)))%Z, c))
      (filter (λ c, 1 < size (dom_of domains c)) cells) in
  match merge_sort mrv_le mrv with
  | [] => None
  | t :: _ => Some t.2
  end.

(** [order_domain_values]: the pairs [(count, val)], sorted; their
    values. *)
Definition order_domain_values (var : cell) (domains : assignment)
  : list Z :=
  let counts :=
    map (λ val,
           (length (filter (λ p, val ∈ dom_of domains p) (iter_peers var)),
            val))
      (iter_values (dom_of domains var)) in
  map snd (merge_sort count_le counts).

(** The forward-checking loop of [assign_and_propagate]; [None] is its
    [return None]. *)
Fixpoint forward_check (value : Z) (ps : list cell)
    (new_domains : assignment) : option assignment :=
  match ps with
  | [] => Some new_domains
  | p :: ps' =>
      if decide (value ∈ dom_of new_domains p) then
        let new_domains' :=
          <[p := dom_of new_domains p ∖ {[value]}]> new_domains in
        if decide (dom_of new_domains' p = ∅) then None
        else forward_check value ps' new_domains'
      else forward_check value ps' new_domains
  end.

(** [assign_and_propagate]: the value of [new_domains] it returns, or
    [None]. *)
Definition assign_and_propagate (var : cell) (value : Z)
    (domains : assignment) : outcome (option assignment) :=
  let new_domains := <[var := {[value]}]> domains in
  match forward_check value (iter_peers var) new_domains with
  | None => Done None
  | Some new_domains =>
      match ac3 new_domains with
      | OutOfFuel => OutOfFuel
      | Done (false, _) => Done None
      | Done (true, new_domains) => Done (Some new_domains)
      end
  end.

(** The [for value in ...] loop of [backtrack]: [body value] is one
    iteration, [Done None] its [continue], [Done (Some r)] its
    [return result]. *)
Fixpoint first_result {A} (body : Z → outcome (option A))
    (values : list Z) : outcome (option A) :=
  match values with
  | [] => Done None
  | value :: rest =>
      match body value with
      | OutOfFuel => OutOfFuel
      | Done (Some r) => Done (Some r)
      | Done None => first_result body rest
      end
  end.

(** [backtrack]; [depth] is the number of nested recursive calls the call
    may make below itself. *)
Fixpoint backtrack (depth : nat) (domains : assignment) {struct depth}
  : outcome (option assignment) :=
  if is_solved domains then Done (Some domains)
  else
    match select_unassigned_variable domains with
    | None => Done None
    | Some var =>
        first_result
          (λ value,
             match assign_and_propagate var value domains with
             | OutOfFuel => OutOfFuel
             | Done None => Done None
             | Done (Some new_domains) =>
                 match depth with
                 | 0 => OutOfFuel
                 | S depth' => backtrack depth' new_domains
                 end
             end)
          (order_domain_values var domains)
    end.

(** *** Construction and [solve] *)

(** The body of the loops of [_initialize_domains] for the cell [rc]. *)
Definition initial_domain (grid : list (list Z)) (rc : cell) : gset Z :=
  let val := grid_at grid rc.1 rc.2 in
  if decide (val ≠ 0%Z ∧ (1 ≤ val ≤ 9)%Z) then {[val]}
  else
    let used : gset Z :=
      list_to_set
        (filter (λ v, v ≠ 0%Z)
           (map (λ p, grid_at grid p.1 p.2) (iter_peers rc))) in
    range_1_10 ∖ used.

Definition initialize_domains (grid : list (list Z))
    (domains : assignment) : assignment :=
  foldl (λ doms rc, <[rc := initial_domain grid rc]> doms) domains cells.

(** [SudokuCSP(grid)]: the assertion, then the fields. *)
Definition new_SudokuCSP (grid : list (list Z)) : error + SudokuCSP :=
  if bool_decide (length grid = 9)
     && forallb (λ row, bool_decide (length row = 9)) grid
  then
    inr {| grid := grid;
           domains :=
             initialize_domains grid
               (list_to_map (map (λ c, (c, (∅ : gset Z))) cells)) |}
  else inl (AssertionError "Grid must be 9x9").

(** [next(iter(vals))]; [solve] calls it on sets of one element only. *)
Definition next_iter (vals : gset Z) : Z :=
  match iter_values vals with
  | x :: _ => x
  | [] => 0%Z
  end.

(** The grid that [solve] fills from [sol.items()]; the keys of [sol] are
    the 81 cells, in the order they were inserted at construction. *)
Definition solved_grid (sol : assignment) : list (list Z) :=
  foldl
    (λ g rc,
       let vals := dom_of sol rc in
       write_cell g rc.1 rc.2
         (if decide (size vals = 1) then next_iter vals else 0%Z))
    (replicate 9 (replicate 9 0%Z)) cells.

(** [solve]; the search may nest 81 calls, which it never exceeds
    ([backtrack_returns], [count_open_le_81]). *)
Definition solve (self : SudokuCSP)
  : outcome (option (list (list Z))) :=
  match ac3 (domains self) with
  | OutOfFuel => OutOfFuel
  | Done (false, _) => Done None
  | Done (true, domains) =>
      match backtrack 81 domains with
      | OutOfFuel => OutOfFuel
      | Done None => Done None
      | Done (Some sol) => Done (Some (solved_grid sol))
      end
  end.

End Solver.

(** * The store: dictionaries and sets as shared objects

    [ac3] mutates the dictionary it is handed ([domains[xi] -= to_remove]
    updates a set in place) and [assign_and_propagate] works on a
    [deepcopy].  To state that a caller's dictionary is left alone, sets and
    dictionaries are objects of a store: a dictionary binds each cell to the
    address of a set, and two dictionaries (or two cells) may share a set. *)
Module Store.

Record store : Type := {
  sets : list (gset Z);
  dicts : list (gmap cell nat)
}.

Definition set_at (h : store) (a : nat) : gset Z := sets h !!! a.

Definition dict_at (h : store) (d : nat) : gmap cell nat := dicts h !!! d.

(** The value of the dictionary at [d]: what [domains[c]] reads. *)
Definition value_of (h : store) (d : nat) : assignment :=
  set_at h <$> dict_at h d.

(** A fresh set object. *)
Definition new_set (s : gset Z) (h : store) : nat * store :=
  (length (sets h), {| sets := sets h ++ [s]; dicts := dicts h |}).

(** A fresh dictionary object. *)
Definition new_dict (m : gmap cell nat) (h : store) : nat * store :=
  (length (dicts h), {| sets := sets h; dicts := dicts h ++ [m] |}).

(** In-place update of the set at [a]. *)
Definition set_update (a : nat) (s : gset Z) (h : store) : store :=
  {| sets := <[a := s]> (sets h); dicts := dicts h |}.

(** [d[c] = x] for the object [x] at address [a]. *)
Definition dict_bind (d : nat) (c : cell) (a : nat) (h : store) : store :=
  {| sets := sets h; dicts := alter (λ m, <[c := a]> m) d (dicts h) |}.

(** One item of [deepcopy]: a set already copied is shared again (the
    memo), another one is copied to a fresh object. *)
Definition copy_item (acc : gmap nat nat * gmap cell nat * store)
    (item : cell * nat) : gmap nat nat * gmap cell nat * store :=
  let '(memo, y, h) := acc in
  let '(key, a) := item in
  match memo !! a with
  | Some a' => (memo, <[key := a']> y, h)
  | None =>
      let '(a', h') := new_set (set_at h a) h in
      (<[a := a']> memo, <[key := a']> y, h')
  end.

(** [deepcopy(domains)]: a fresh dictionary with a copy of every set; the
    order in which the items are copied decides which address each copy
    gets, not what it holds. *)
Definition deepcopy (d : nat) (h : store) : nat * store :=
  let '(_, y, h') :=
    foldl copy_item (∅, ∅, h) (map_to_list (dict_at h d)) in
  new_dict y h'.

(** Number of candidates held by all the sets of the store. *)
Definition store_size (h : store) : nat := sum_list_with size (sets h).

Section Solver.
Context {O : SetOrder}.

(** [revise]: the set bound to [xi] is updated in place. *)
Definition revise (d : nat) (xi xj : cell) (h : store) : bool * store :=
  let rm := to_remove (value_of h d) xi xj in
  if decide (rm = ∅) then (false, h)
  else
    match dict_at h d !! xi with
    | Some a => (true, set_update a (set_at h a ∖ rm) h)
    | None => (false, h) (* not reached: [rm] is empty without the key *)
    end.

Fixpoint ac3_loop (fuel : nat) (d : nat) (h : store) (queue : list arc)
  : outcome (bool * store) :=
  match queue with
  | [] => Done (true, h)
  | (xi, xj) :: queue' =>
      match fuel with
      | 0 => OutOfFuel
      | S fuel' =>
          let '(revised, h') := revise d xi xj h in
          if revised then
            if decide (dom_of (value_of h' d) xi = ∅) then Done (false, h')
            else
              ac3_loop fuel' d h'
                (queue' ++ map (λ xk, (xk, xi)) (iter_peers_except xi xj))
          else ac3_loop fuel' d h' queue'
      end
  end.

Definition ac3 (d : nat) (h : store) : outcome (bool * store) :=
  ac3_loop (length all_arcs + 20 * store_size h) d h all_arcs.

(** The forward-checking loop: [new_domains[p] = set(...) - {value}]
    binds [p] to a fresh set. *)
Fixpoint forward_check (value : Z) (nd : nat) (ps : list cell)
    (h : store) : bool * store :=
  match ps with
  | [] => (true, h)
  | p :: ps' =>
      let s := dom_of (value_of h nd) p in
      if decide (value ∈ s) then
        let '(a, h1) := new_set (s ∖ {[value]}) h in
        let h2 := dict_bind nd p a h1 in
        if decide (dom_of (value_of h2 nd) p = ∅) then (false, h2)
        else forward_check value nd ps' h2
      else forward_check value nd ps' h
  end.

Definition assign_and_propagate (var : cell) (value : Z) (d : nat)
    (h : store) : outcome (option nat * store) :=
  let '(nd, h1) := deepcopy d h in
  let '(a, h2) := new_set {[value]} h1 in
  let h3 := dict_bind nd var a h2 in
  match forward_check value nd (iter_peers var) h3 with
  | (false, h4) => Done (None, h4)
  | (true, h4) =>
      match ac3 nd h4 with
      | OutOfFuel => OutOfFuel
      | Done (false, h5) => Done (None, h5)
      | Done (true, h5) => Done (Some nd, h5)
      end
  end.

Fixpoint first_result
    (body : Z → store → outcome (option nat * store))
    (values : list Z) (h : store) : outcome (option nat * store) :=
  match values with
  | [] => Done (None, h)
  | value :: rest =>
      match body value h with
      | OutOfFuel => OutOfFuel
      | Done (Some r, h') => Done (Some r, h')
      | Done (None, h') => first_result body rest h'
      end
  end.

Fixpoint backtrack (depth : nat) (d : nat) (h : store) {struct depth}
  : outcome (option nat * store) :=
  if is_solved (value_of h d) then Done (Some d, h)
  else
    match select_unassigned_variable (value_of h d) with
    | None => Done (None, h)
    | Some var =>
        first_result
          (λ value h,
             match assign_and_propagate var value d h with
             | OutOfFuel => OutOfFuel
             | Done (None, h') => Done (None, h')
             | Done (Some new_domains, h') =>
                 match depth with
                 | 0 => OutOfFuel
                 | S depth' => backtrack depth' new_domains h'
                 end
             end)
          (order_domain_values var (value_of h d)) h
    end.

(** [solve], for the dictionary [self.domains] at [self_domains]. *)
Definition solve (self_domains : nat) (h : store)
  : outcome (option (list (list Z)) * store) :=
  let '(domains, h1) := deepcopy self_domains h in
  match ac3 domains h1 with
  | OutOfFuel => OutOfFuel
  | Done (false, h2) => Done (None, h2)
  | Done (true, h2) =>
      match backtrack 81 domains h2 with
      | OutOfFuel => OutOfFuel
      | Done (None, h3) => Done (None, h3)
      | Done (Some sol, h3) =>
          Done (Some (solved_grid (value_of h3 sol)), h3)
      end
  end.

End Solver.

(** Every object of [h] is an object of [h'], unchanged. *)
Definition preserved (h h' : store) : Prop :=
  sets h `prefix_of` sets h' ∧ dicts h `prefix_of` dicts h'.

(** The dictionary at [d] and the sets it binds are objects of [h]. *)
Definition live (h : store) (d : nat) : Prop :=
  d < length (dicts h)
  ∧ map_Forall (λ _ a, a < length (sets h)) (dict_at h d).

(** The dictionary at [nd] and the sets it binds were allocated after
    [h0]. *)
Definition private (h0 h : store) (nd : nat) : Prop :=
  length (dicts h0) ≤ nd
  ∧ map_Forall (λ _ a, length (sets h0) ≤ a) (dict_at h nd).

(** No two cells of the dictionary at [d] share a set, and the dictionary
    and its sets are objects of [h]. *)
Definition separated (h : store) (d : nat) : Prop :=
  live h d
  ∧ ∀ c1 c2 a, dict_at h d !! c1 = Some a →
               dict_at h d !! c2 = Some a → c1 = c2.

End Store.

(** * Utilities for I/O and printing

    [read_puzzle_from_txt], [read_puzzle_from_csv], [print_grid] and the
    script at the end of [main.py].  They call built-in functions of Python
    on strings and read a file.  Both are interfaces here: the theorems hold
    for every implementation of the built-ins and for every content of the
    files. *)

Inductive exception : Type :=
  | ValueError (msg : string)
  | IndexError
  | AssertionFailed (e : error)
  | IOFailure (name : string).

(** The methods of [str] and the conversions that the utilities call. *)
Class Builtins := {
  (** [s.strip()] *)
  str_strip : string → string;
  (** [s.replace(old, new)] *)
  str_replace : string → string → string → string;
  (** [s.split()] *)
  str_split : string → list string;
  (** [int(s)]; [inl msg] when it raises [ValueError(msg)] *)
  int_of_str : string → string + Z;
  (** [str(n)] *)
  str_of_int : Z → string;
  (** [s.lower()] *)
  str_lower : string → string;
  (** [s.endswith(suffix)] *)
  str_endswith : string → string → bool
}.

(** What iterating over an open file yields: finitely many items, and then
    the end of the file or an exception. *)
Record stream (A : Type) : Type := {
  yields : list A;
  then_raises : option exception
}.
Arguments yields {A} s.
Arguments then_raises {A} s.

Class FileSystem := {
  (** [open(path, 'r')] and the lines of the file, or the exception it
      raises *)
  open_text : string → exception + stream string;
  (** [open(path, newline='')] and the rows of [csv.reader] *)
  open_csv : string → exception + stream (list string)
}.

(** How the script ends. *)
Inductive ending : Type :=
  | Returned
  | Exited (status : Z)
  | Raised (e : exception).

(** [s * n] *)
Fixpoint str_mul (s : string) (n : nat) : string :=
  match n with
  | 0 => ""
  | S n' => s +:+ str_mul s n'
  end.

Section Utilities.
Context {B : Builtins} {F : FileSystem}.

(** [0] for a token among [('0', '.', '')], [int(p)] otherwise. *)
Definition token_value (p : string) : exception + Z :=
  if bool_decide (p ∈ ["0"; "."; ""]) then inr 0%Z
  else
    match int_of_str p with
    | inl msg => inl (ValueError msg)
    | inr n => inr n
    end.

(** The loop [for p in parts] of both readers; [clean] is the [p.strip()]
    of the CSV reader. *)
Fixpoint parse_tokens (clean : string → string) (parts : list string)
  : exception + list Z :=
  match parts with
  | [] => inr []
  | p :: parts' =>
      match token_value (clean p) with
      | inl e => inl e
      | inr v =>
          match parse_tokens clean parts' with
          | inl e => inl e
          | inr row => inr (v :: row)
          end
      end
  end.

(** [line.replace(',', ' ').split()] *)
Definition txt_parts (line : string) : list string :=
  str_split (str_replace "," " " line).

(** The loop [for line in f] of [read_puzzle_from_txt]. *)
Fixpoint txt_lines (lines : list string) (fail : option exception)
    (grid : list (list Z)) : exception + list (list Z) :=
  match lines with
  | [] =>
      match fail with
      | Some e => inl e
      | None => inr grid
      end
  | line :: rest =>
      let line := str_strip line in
      if bool_decide (line = "") then txt_lines rest fail grid
      else
        let parts := txt_parts line in
        if bool_decide (length parts ≠ 9) then
          inl (ValueError
                 "Each line must have 9 values (use 0 or . for empty)")
        else
          match parse_tokens id parts with
          | inl e => inl e
          | inr row => txt_lines rest fail (grid ++ [row])
          end
  end.

Definition read_puzzle_from_txt (path : string)
  : exception + list (list Z) :=
  match open_text path with
  | inl e => inl e
  | inr f =>
      match txt_lines (yields f) (then_raises f) [] with
      | inl e => inl e
      | inr grid =>
          if bool_decide (length grid ≠ 9) then
            inl (ValueError "File must contain 9 non-empty rows")
          else inr grid
      end
  end.

(** [not any(cell.strip() for cell in row)] *)
Definition csv_blank (row : list string) : bool :=
  negb (existsb (λ cell, bool_decide (str_strip cell ≠ "")) row).

(** The loop [for row in reader] of [read_puzzle_from_csv]. *)
Fixpoint csv_rows (rows : list (list string)) (fail : option exception)
    (grid : list (list Z)) : exception + list (list Z) :=
  match rows with
  | [] =>
      match fail with
      | Some e => inl e
      | None => inr grid
      end
  | row :: rest =>
      if csv_blank row then csv_rows rest fail grid
      else if bool_decide (length row ≠ 9) then
        inl (ValueError "Each CSV row must have 9 columns")
      else
        match parse_tokens str_strip row with
        | inl e => inl e
        | inr parsed => csv_rows rest fail (grid ++ [parsed])
        end
  end.

Definition read_puzzle_from_csv (path : string)
  : exception + list (list Z) :=
  match open_csv path with
  | inl e => inl e
  | inr f =>
      match csv_rows (yields f) (then_raises f) [] with
      | inl e => inl e
      | inr grid =>
          if bool_decide (length grid ≠ 9) then
            inl (ValueError "CSV must contain 9 non-empty rows")
          else inr grid
      end
  end.

(** [str(grid[r][c]) if grid[r][c] != 0 else '.'] *)
Definition cell_text (v : Z) : string :=
  if bool_decide (v ≠ 0%Z) then str_of_int v else ".".

(** The loop [for c in range(9)] of [print_grid] over the columns [cs];
    [None] is the [IndexError] of [grid[r][c]]. *)
Fixpoint print_row (row : list Z) (cs : list nat) (line : string)
  : option string :=
  match cs with
  | [] => Some line
  | c :: cs' =>
      match row !! c with
      | None => None
      | Some v =>
          print_row row cs'
            (line +:+ cell_text v
             +:+ (if bool_decide (c ∈ [2; 5]) then " | " else " "))
      end
  end.

(** The loop [for r in range(9)] over the rows [rs]: the lines printed so
    far and the exception, if one is raised. *)
Fixpoint print_rows (grid : list (list Z)) (rs : list nat)
    (out : list string) : list string * option exception :=
  match rs with
  | [] => (out, None)
  | r :: rs' =>
      match grid !! r with
      | None => (out, Some IndexError)
      | Some row =>
          match print_row row (seq 0 9) "" with
          | None => (out, Some IndexError)
          | Some line =>
              print_rows grid rs'
                (if bool_decide (r ∈ [2; 5])
                 then out ++ [line; str_mul "-" 21]
                 else out ++ [line])
          end
      end
  end.

(** [print_grid]: the lines it prints and the exception it raises. *)
Definition print_grid (grid : option (list (list Z)))
  : list string * option exception :=
  match grid with
  | None => (["No solution found (unsolvable)"], None)
  | Some grid => print_rows grid (seq 0 9) []
  end.

(** The script: the lines printed and how it ends. *)
Definition main {O : SetOrder} (argv : list string)
  : outcome (list string * ending) :=
  if bool_decide (length argv ≠ 2) then
    Done (["Usage: python sudoku_csp.py puzzle.txt|puzzle.csv"], Exited 1)
  else
    let path := argv !!! 1 in
    match
      (if str_endswith (str_lower path) ".csv"
       then read_puzzle_from_csv path
       else read_puzzle_from_txt path)
    with
    | inl e => Done ([], Raised e)
    | inr grid =>
        match new_SudokuCSP grid with
        | inl e => Done ([], Raised (AssertionFailed e))
        | inr solver =>
            match solve solver with
            | OutOfFuel => OutOfFuel
            | Done solution =>
                match print_grid solution with
                | (out, None) => Done (out, Returned)
                | (out, Some e) => Done (out, Raised e)
                end
            end
        end
    end.

End Utilities.

(** * Vocabulary of the specification *)

(** Every key of the 81 cells is present: reading [domains[c]] raises no
    [KeyError]. *)
Definition total_on_cells (d : assignment) : Prop :=
  Forall (λ c, is_Some (d !! c)) cells.

(** Every candidate is one of 1..9. *)
Definition values_1_9 (d : assignment) : Prop :=
  Forall (λ c, dom_of d c ⊆ range_1_10) cells.

(** Pointwise inclusion of the domains. *)
Definition shrinks (d' d : assignment) : Prop :=
  ∀ c, dom_of d' c ⊆ dom_of d c.

(** The dictionary after the pruning [domains[xi] -= to_remove]. *)
Definition prune (d : assignment) (xi xj : cell) : assignment :=
  <[xi := dom_of d xi ∖ to_remove d xi xj]> d.

(** The arcs [(xk, xi)] that a pruning of [xi] against [xj] appends. *)
Definition requeue {O : SetOrder} (xi xj : cell) : list arc :=
  map (λ xk, (xk, xi)) (iter_peers_except xi xj).

(** The arcs of a queue join a cell to one of its peers. *)
Definition arcs_wf (q : list arc) : Prop :=
  Forall (λ a, a.1 ∈ cells ∧ a.2 ∈ peers a.1) q.

(** No arc can prune: a peer that is a singleton [{x}] excludes [x]. *)
Definition arc_consistent (d : assignment) : Prop :=
  ∀ xi xj, xi ∈ cells → xj ∈ peers xi → to_remove d xi xj = ∅.

(** Every candidate that [d'] lacks with respect to [d0] was pruned against
    a peer that had collapsed to that very value. *)
Definition justified (d0 d' : assignment) : Prop :=
  ∀ xi x, x ∈ dom_of d0 xi → x ∉ dom_of d' xi →
    xi ∈ cells ∧ ∃ xj, xj ∈ peers xi ∧ x ∈ dom_of d0 xj ∧ dom_of d' xj ⊆ {[x]}.

(** No domain of [d0] has been emptied in [d']. *)
Definition no_wipeout (d0 d' : assignment) : Prop :=
  ∀ c, dom_of d0 c ≠ ∅ → dom_of d' c ≠ ∅.

(** What a run of [ac3] from [d0] guarantees about its flag [b] and the
    dictionary [d'] it leaves. *)
Definition ac3_post (d0 : assignment) (b : bool)
    (d' : assignment) : Prop :=
  shrinks d' d0 ∧ justified d0 d' ∧
  if b then arc_consistent d' ∧ no_wipeout d0 d'
  else ∃ c, c ∈ cells ∧ dom_of d0 c ≠ ∅ ∧ dom_of d' c = ∅.

(** The invariant of the worklist: arcs outside the queue cannot prune. *)
Definition ac3_inv (d0 d : assignment) (q : list arc) : Prop :=
  arcs_wf q ∧ shrinks d d0 ∧ no_wipeout d0 d ∧ justified d0 d
  ∧ ∀ xi xj, xi ∈ cells → xj ∈ peers xi →
      (xi, xj) ∈ q ∨ to_remove d xi xj = ∅.

(** The keys of the dictionary are those of the caller. *)
Definition same_keys (d d' : assignment) : Prop :=
  ∀ c, d' !! c = None ↔ d !! c = None.

(** Number of cells that still have two candidates or more. *)
Definition count_open (d : assignment) : nat :=
  length (filter (λ c, 1 < size (dom_of d c)) cells).

(** The shape that [__init__] asserts. *)
Definition is_9x9 (g : list (list Z)) : Prop :=
  length g = 9 ∧ Forall (λ row, length row = 9) g.

(** Entries 0..9: 0 for a blank, 1..9 for a clue. *)
Definition entries_0_9 (g : list (list Z)) : Prop :=
  Forall (Forall (λ v, (0 ≤ v ≤ 9)%Z)) g.

Definition row_cells (r : nat) : list cell := map (λ c, (r, c)) (seq 0 9).

Definition col_cells (c : nat) : list cell := map (λ r, (r, c)) (seq 0 9).

Definition box_cells (b : nat) : list cell :=
  flat_map (λ i, map (λ j, (i, j)) (seq (3 * (b `mod` 3)) 3))
    (seq (3 * (b / 3)) 3).

(** The 9 rows, the 9 columns and the 9 boxes. *)
Definition units : list (list cell) :=
  map row_cells (seq 0 9) ++ map col_cells (seq 0 9)
  ++ map box_cells (seq 0 9).

Definition read_cells (g : list (list Z)) (u : list cell) : list Z :=
  map (λ rc, grid_at g rc.1 rc.2) u.

Definition digits : list Z := [1; 2; 3; 4; 5; 6; 7; 8; 9]%Z.

(** A complete grid: 9x9, and every row, column and box holds each of 1..9
    exactly once. *)
Definition valid_solution (g : list (list Z)) : Prop :=
  is_9x9 g ∧ Forall (λ u, read_cells g u ≡ₚ digits) units.

(** The cell [(r, c)] of [grid] is the clue [v]. *)
Definition clue (grid : list (list Z)) (rc : cell) (v : Z) : Prop :=
  grid_at grid rc.1 rc.2 = v ∧ (1 ≤ v ≤ 9)%Z.

(** The clue values among the peers of a cell. *)
Definition peer_clue (grid : list (list Z)) (rc : cell) (v : Z) : Prop :=
  ∃ p, p ∈ peers rc ∧ clue grid p v.

Global Instance is_9x9_dec g : Decision (is_9x9 g).
Proof. unfold is_9x9. apply _. Defined.

(** The dictionaries that a run of [solve] on [self] hands on: the copy of
    [self.domains], what [ac3] makes of it when it succeeds, and every
    [new_domains] that [assign_and_propagate] returns for the variable and a
    value that [backtrack] tries on a dictionary already handed on. *)
Inductive produced {O : SetOrder} (self : SudokuCSP) : assignment → Prop :=
  | produced_copy : produced self (domains self)
  | produced_ac3 d :
      ac3 (domains self) = Done (true, d) → produced self d
  | produced_assign d var value new_domains :
      produced self d →
      select_unassigned_variable d = Some var →
      value ∈ order_domain_values var d →
      assign_and_propagate var value d = Done (Some new_domains) →
      produced self new_domains.

(** A classic puzzle, a grid with an entry outside 0..9, and a grid with two
    equal clues in a row. *)
Definition puzzle : list (list Z) :=
  [ [5;3;0;0;7;0;0;0;0]; [6;0;0;1;9;5;0;0;0]; [0;9;8;0;0;0;0;6;0];
    [8;0;0;0;6;0;0;0;3]; [4;0;0;8;0;3;0;0;1]; [7;0;0;0;2;0;0;0;6];
    [0;6;0;0;0;0;2;8;0]; [0;0;0;4;1;9;0;0;5]; [0;0;0;0;8;0;0;7;9] ]%Z.

Definition puzzle_with_ten : list (list Z) :=
  [ [10;3;4;6;7;8;9;1;2]; [6;7;2;1;9;5;3;4;8]; [1;9;8;3;4;2;5;6;7];
    [8;5;9;7;6;1;4;2;3]; [4;2;6;8;5;3;7;9;1]; [7;1;3;9;2;4;8;5;6];
    [9;6;1;5;3;7;2;8;4]; [2;8;7;4;1;9;6;3;5]; [3;4;5;2;8;6;1;7;9] ]%Z.

Definition two_fives : list (list Z) :=
  [ [5;5;0;0;0;0;0;0;0]; [0;0;0;0;0;0;0;0;0]; [0;0;0;0;0;0;0;0;0];
    [0;0;0;0;0;0;0;0;0]; [0;0;0;0;0;0;0;0;0]; [0;0;0;0;0;0;0;0;0];
    [0;0;0;0;0;0;0;0;0]; [0;0;0;0;0;0;0;0;0]; [0;0;0;0;0;0;0;0;0] ]%Z.

Global Instance entries_0_9_dec g : Decision (entries_0_9 g).
Proof. unfold entries_0_9. apply _. Defined.

(** The dictionaries built at construction from the example grids. *)
Definition puzzle_domains : assignment :=
  initialize_domains (O := elements_order) puzzle
    (list_to_map (map (λ c, (c, (∅ : gset Z))) cells)).

Definition two_fives_domains : assignment :=
  initialize_domains (O := elements_order) two_fives
    (list_to_map (map (λ c, (c, (∅ : gset Z))) cells)).

Global Instance total_on_cells_dec d : Decision (total_on_cells d).
Proof. unfold total_on_cells. apply _. Defined.

Global Instance values_1_9_dec d : Decision (values_1_9 d).
Proof. unfold values_1_9. apply _. Defined.

(** A store with one dictionary, holding the value [d] over the 81 cells,
    each cell bound to a set of its own. *)
Definition store_of (d : assignment) : Store.store :=
  {| Store.sets := map (dom_of d) cells;
     Store.dicts := [list_to_map (zip cells (seq 0 81))] |}.

Global Instance live_dec h d : Decision (Store.live h d).
Proof. unfold Store.live. apply _. Defined.

(** ** Solutions of a puzzle *)

(** The value that a grid holds in a cell. *)
Definition cell_values (g : list (list Z)) (rc : cell) : Z :=
  grid_at g rc.1 rc.2.

(** A choice of one value per cell in which no two peers hold the same
    value. *)
Definition no_conflict (s : cell → Z) : Prop :=
  ∀ xi xj, xi ∈ cells → xj ∈ peers xi → s xi ≠ s xj.

(** The value chosen for every cell is one of its candidates. *)
Definition within (s : cell → Z) (d : assignment) : Prop :=
  ∀ c, c ∈ cells → s c ∈ dom_of d c.

(** [g] solves the puzzle [grid]: it is a complete valid grid that holds
    every clue of [grid] in its cell. *)
Definition completes (g grid : list (list Z)) : Prop :=
  valid_solution g
  ∧ ∀ rc v, rc ∈ cells → clue grid rc v → grid_at g rc.1 rc.2 = v.

(** The solution of [puzzle]. *)
Definition puzzle_solution : list (list Z) :=
  [ [5;3;4;6;7;8;9;1;2]; [6;7;2;1;9;5;3;4;8]; [1;9;8;3;4;2;5;6;7];
    [8;5;9;7;6;1;4;2;3]; [4;2;6;8;5;3;7;9;1]; [7;1;3;9;2;4;8;5;6];
    [9;6;1;5;3;7;2;8;4]; [2;8;7;4;1;9;6;3;5]; [3;4;5;2;8;6;1;7;9] ]%Z.

(** The grid without clues. *)
Definition empty_grid : list (list Z) := replicate 9 (replicate 9 0%Z).

Global Instance valid_solution_dec g : Decision (valid_solution g).
Proof. unfold valid_solution. apply _. Defined.

(** The dictionary that a run of [ac3] on [d] leaves. *)
Definition left_by (r : outcome (bool * assignment)) (d : assignment)
  : assignment :=
  match r with
  | Done (_, d') => d'
  | OutOfFuel => d
  end.

(** The dictionary of [puzzle] after the initial [ac3] of [solve]. *)
Definition puzzle_propagated : assignment :=
  left_by (ac3 (O := elements_order) puzzle_domains) puzzle_domains.

(** Number of peers of [var] whose domain holds [val]: the [count] of
    [order_domain_values]. *)
Definition peer_count (d : assignment) (var : cell) (val : Z) : nat :=
  size (filter (λ p, val ∈ dom_of d p) (peers var)).

(** ** Printing *)

(** The grid has a row for each of the first nine indices, with an entry
    for each of the first nine columns. *)
Definition printable (g : list (list Z)) : Prop :=
  9 ≤ length g ∧ Forall (λ row, 9 ≤ length row) (take 9 g).

Global Instance printable_dec g : Decision (printable g).
Proof. unfold printable. apply _. Defined.

(** ** An implementation of the built-ins on ASCII text

    It runs the utilities on the examples below.  White space is what
    [str.isspace] accepts among the ASCII characters; [ascii_int] reads what
    [int] reads in base 10: white space around, a sign, and decimal digits
    with single underscores between them. *)

Definition ascii_space (a : ascii) : bool :=
  match a with
  | "009" | "010" | "011" | "012" | "013"
  | "028" | "029" | "030" | "031" | " " => true
  | _ => false
  end%char.

Fixpoint ascii_lstrip (s : string) : string :=
  match s with
  | String a s' => if ascii_space a then ascii_lstrip s' else s
  | EmptyString => EmptyString
  end.

Definition ascii_strip (s : string) : string :=
  String.rev (ascii_lstrip (String.rev (ascii_lstrip s))).

Fixpoint ascii_split_go (cur : option string) (s : string) : list string :=
  match s with
  | EmptyString => option_list (String.rev <$> cur)
  | String a s' =>
      if ascii_space a
      then option_list (String.rev <$> cur) ++ ascii_split_go None s'
      else
        ascii_split_go
          (Some (from_option (String a) (String a EmptyString) cur)) s'
  end.

Definition ascii_split : string → list string := ascii_split_go None.

(** [skip] counts the characters of a match still to drop. *)
Fixpoint ascii_replace_go (old new : string) (skip : nat) (s : string)
  : string :=
  match s with
  | EmptyString => EmptyString
  | String a s' =>
      match skip with
      | S skip' => ascii_replace_go old new skip' s'
      | 0 =>
          if String.prefix old s
          then new +:+ ascii_replace_go old new (String.length old - 1) s'
          else String a (ascii_replace_go old new 0 s')
      end
  end.

(** [s.replace('', new)] puts [new] around every character. *)
Fixpoint ascii_interleave (new s : string) : string :=
  match s with
  | EmptyString => new
  | String a s' => new +:+ String a (ascii_interleave new s')
  end.

Definition ascii_replace (old new s : string) : string :=
  if bool_decide (old = EmptyString) then ascii_interleave new s
  else ascii_replace_go old new 0 s.

Definition ascii_digit (a : ascii) : option Z :=
  Z.of_nat <$> Ascii.is_nat a.

(** The digits of a literal; [after_digit] tells that the last character
    read was a digit, which an underscore and the end require. *)
Fixpoint ascii_digits (after_digit : bool) (acc : Z) (s : string)
  : option Z :=
  match s with
  | EmptyString => if after_digit then Some acc else None
  | String a s' =>
      match ascii_digit a with
      | Some n => ascii_digits true (10 * acc + n) s'
      | None =>
          if bool_decide (a = "_"%char) && after_digit
          then ascii_digits false acc s'
          else None
      end
  end.

Definition ascii_int (p : string) : string + Z :=
  let result :=
    match ascii_strip p with
    | String "+" s => ascii_digits false 0 s
    | String "-" s => Z.opp <$> ascii_digits false 0 s
    | s => ascii_digits false 0 s
    end in
  match result with
  | Some n => inr n
  | None => inl ("invalid literal for int() with base 10: '" +:+ p +:+ "'")
  end.

Definition ascii_lower_char (a : ascii) : ascii :=
  let n := nat_of_ascii a in
  if bool_decide (65 ≤ n ≤ 90) then ascii_of_nat (n + 32) else a.

Fixpoint ascii_lower (s : string) : string :=
  match s with
  | EmptyString => EmptyString
  | String a s' => String (ascii_lower_char a) (ascii_lower s')
  end.

Definition ascii_endswith (s suffix : string) : bool :=
  String.prefix (String.rev suffix) (String.rev s).

Definition ascii_builtins : Builtins :=
  {| str_strip := ascii_strip;
     str_replace old new s := ascii_replace old new s;
     str_split := ascii_split;
     int_of_str := ascii_int;
     str_of_int := pretty;
     str_lower := ascii_lower;
     str_endswith := ascii_endswith |}.

(** Files that hold [puzzle]: a text file with blanks written [.] and [0],
    commas and empty lines; the same file without its first empty line; its
    first five lines; the file with a line of three tokens after the second
    row; a CSV file with empty fields and a blank row of two cells; the same
    file without the blank row. *)
Definition newline : string := String "010" EmptyString.

Definition puzzle_txt : list string :=
  map (λ line, line +:+ newline)
    [ "5 3 . . 7 . . . ."; "6 . . 1 9 5 . . ."; ". 9 8 . . . . 6 .";
      "";
      "8,0,0,0,6,0,0,0,3"; "4,0,0,8,0,3,0,0,1"; "7,0,0,0,2,0,0,0,6";
      "   ";
      ". 6 . . . . 2 8 ."; ". . . 4 1 9 . . 5"; ". . . . 8 . . 7 9" ].

Definition puzzle_csv : list (list string) :=
  [ ["5";"3";"";"";"7";"";"";"";""]; ["6";"";"";"1";"9";"5";"";"";""];
    ["";"9";"8";"";"";"";"";"6";""]; [""; " "];
    ["8";"";"";"";"6";"";"";"";"3"]; ["4";"";"";"8";"";"3";"";"";"1"];
    ["7";"";"";"";"2";"";"";"";"6"];
    ["";"6";"";"";"";"";"2";"8";""]; ["";"";"";"4";"1";"9";"";"";"5"];
    ["";"";"";"";"8";"";"";"7";"9"] ].

Definition puzzle_files : FileSystem :=
  {| open_text path :=
       if bool_decide (path = "puzzle.txt") then
         inr {| yields := puzzle_txt; then_raises := None |}
       else if bool_decide (path = "dense.txt") then
         inr {| yields := take 3 puzzle_txt ++ drop 4 puzzle_txt;
                then_raises := None |}
       else if bool_decide (path = "short.txt") then
         inr {| yields := take 5 puzzle_txt; then_raises := None |}
       else if bool_decide (path = "bad.txt") then
         inr {| yields := take 2 puzzle_txt ++ ("1 2 3" +:+ newline)
                            :: drop 2 puzzle_txt;
                then_raises := None |}
       else inl (IOFailure "FileNotFoundError");
     open_csv path :=
       if bool_decide (path = "puzzle.csv") then
         inr {| yields := puzzle_csv; then_raises := None |}
       else if bool_decide (path = "dense.csv") then
         inr {| yields := take 3 puzzle_csv ++ drop 4 puzzle_csv;
                then_raises := None |}
       else inl (IOFailure "FileNotFoundError") |}.

(** * Properties *)

(** ** The board *)

Lemma elem_of_cells (rc : cell) : rc ∈ cells ↔ rc.1 < 9 ∧ rc.2 < 9.
Proof.
  destruct rc as [r c]. unfold cells. rewrite list_elem_of_In, in_flat_map.
  setoid_rewrite in_map_iff. setoid_rewrite in_seq. simpl. split.
  - intros (r' & Hr & c' & [= <- <-] & Hc). lia.
  - intros [Hr Hc]. exists r. split; [lia|]. exists c. split; [done|lia].
Qed.

Lemma NoDup_cells : NoDup cells.
Proof. apply (bool_decide_unpack _). by vm_compute. Qed.

Lemma length_cells : length cells = 81.
Proof. reflexivity. Qed.

(** Every cell has 20 peers, all of them cells, itself not among them, and
    being a peer is symmetric. *)
Lemma peers_table :
  Forall (λ xi, size (peers xi) = 20 ∧ (xi ∉ peers xi)
                ∧ set_Forall (λ xj, xj ∈ cells ∧ xi ∈ peers xj) (peers xi))
    cells.
Proof. apply (bool_decide_unpack _). by vm_compute. Qed.

Lemma peers_size xi : xi ∈ cells → size (peers xi) = 20.
Proof.
  intros Hxi. pose proof peers_table as H. rewrite Forall_forall in H.
  by destruct (H xi Hxi).
Qed.

Lemma peers_irrefl xi : xi ∈ cells → xi ∉ peers xi.
Proof.
  intros Hxi. pose proof peers_table as H. rewrite Forall_forall in H.
  by destruct (H xi Hxi) as (_ & ? & _).
Qed.

Lemma peers_cells xi xj : xi ∈ cells → xj ∈ peers xi → xj ∈ cells.
Proof.
  intros Hxi Hxj. pose proof peers_table as H. rewrite Forall_forall in H.
  destruct (H xi Hxi) as (_ & _ & Hall). by destruct (Hall xj Hxj).
Qed.

Lemma peers_sym xi xj : xi ∈ cells → xj ∈ peers xi → xi ∈ peers xj.
Proof.
  intros Hxi Hxj. pose proof peers_table as H. rewrite Forall_forall in H.
  destruct (H xi Hxi) as (_ & _ & Hall). by destruct (Hall xj Hxj).
Qed.

Lemma peers_ne xi xj : xi ∈ cells → xj ∈ peers xi → xi ≠ xj.
Proof. intros Hxi Hxj ->. by apply (peers_irrefl xj). Qed.

(** ** Sets of candidates *)

Lemma size_1_singleton (s : gset Z) x : size s = 1 ∧ x ∈ s ↔ s = {[x]}.
Proof.
  split.
  - intros [Hs Hx]. apply size_1_elem_of in Hs as [y Hy].
    apply leibniz_equiv in Hy. subst s. set_solver.
  - intros ->. split; [apply size_singleton | set_solver].
Qed.

Lemma dom_of_insert (d : assignment) xi s c :
  dom_of (<[xi := s]> d) c = if decide (xi = c) then s else dom_of d c.
Proof. unfold dom_of. apply lookup_total_insert. Qed.

Lemma dom_of_insert_eq (d : assignment) xi s : dom_of (<[xi := s]> d) xi = s.
Proof. unfold dom_of. apply lookup_total_insert_eq. Qed.

Lemma dom_of_insert_ne (d : assignment) xi s c :
  xi ≠ c → dom_of (<[xi := s]> d) c = dom_of d c.
Proof. unfold dom_of. apply lookup_total_insert_ne. Qed.

Lemma shrinks_refl d : shrinks d d.
Proof. by intros c. Qed.

Lemma shrinks_trans d1 d2 d3 : shrinks d1 d2 → shrinks d2 d3 → shrinks d1 d3.
Proof. intros H1 H2 c. etrans; [apply H1 | apply H2]. Qed.

Lemma shrinks_insert d xi s : s ⊆ dom_of d xi → shrinks (<[xi := s]> d) d.
Proof. intros Hs c. rewrite dom_of_insert. by case_decide; subst. Qed.

Lemma elem_of_range_1_10 v : v ∈ range_1_10 ↔ (1 ≤ v ≤ 9)%Z.
Proof.
  unfold range_1_10. rewrite elem_of_list_to_set, list_elem_of_In, in_map_iff.
  setoid_rewrite in_seq. split.
  - intros (n & <- & Hn). lia.
  - intros Hv. exists (Z.to_nat v). lia.
Qed.

Lemma size_range_1_10 : size range_1_10 = 9.
Proof. vm_compute. reflexivity. Qed.

Section AC3_facts.
Context {O : SetOrder}.

Lemma elem_of_iter_peers xi xj : xj ∈ iter_peers xi ↔ xj ∈ peers xi.
Proof. by rewrite (iter_peers_perm xi), elem_of_elements. Qed.

Lemma elem_of_iter_peers_except xi xj xk :
  xk ∈ iter_peers_except xi xj ↔ xk ∈ peers xi ∧ xk ≠ xj.
Proof.
  rewrite (iter_peers_except_perm xi xj), elem_of_elements. set_solver.
Qed.

Lemma length_iter_peers_except xi xj :
  xi ∈ cells → length (iter_peers_except xi xj) ≤ 20.
Proof.
  intros Hxi. rewrite (iter_peers_except_perm xi xj).
  change (size (peers xi ∖ {[xj]}) ≤ 20). rewrite <- (peers_size xi Hxi).
  apply subseteq_size. by intros y [? _]%elem_of_difference.
Qed.

Lemma elem_of_iter_values (s : gset Z) x : x ∈ iter_values s ↔ x ∈ s.
Proof. by rewrite (iter_values_perm s), elem_of_elements. Qed.

Lemma elem_of_all_arcs xi xj :
  (xi, xj) ∈ all_arcs ↔ xi ∈ cells ∧ xj ∈ peers xi.
Proof.
  unfold all_arcs. rewrite list_elem_of_In, in_flat_map.
  setoid_rewrite in_map_iff. setoid_rewrite <- list_elem_of_In.
  setoid_rewrite elem_of_iter_peers. split.
  - by intros (a & Ha & b & [= <- <-] & Hb).
  - intros [Ha Hb]. exists xi. split; [done|]. by exists xj.
Qed.

Lemma length_all_arcs : length all_arcs = 1620.
Proof.
  unfold all_arcs. rewrite flat_map_concat_map, length_concat, map_map.
  erewrite (map_ext_in _ (λ _, 20)).
  - reflexivity.
  - intros xi Hxi%list_elem_of_In. rewrite length_map, (iter_peers_perm xi).
    by apply peers_size.
Qed.

(** *** [revise] *)

Lemma elem_of_to_remove d xi xj x :
  x ∈ to_remove d xi xj ↔ x ∈ dom_of d xi ∧ dom_of d xj = {[x]}.
Proof.
  unfold to_remove. rewrite elem_of_filter, size_1_singleton. tauto.
Qed.

Lemma to_remove_subseteq d xi xj : to_remove d xi xj ⊆ dom_of d xi.
Proof. intros x. rewrite elem_of_to_remove. tauto. Qed.

Lemma revise_false d xi xj :
  to_remove d xi xj = ∅ → revise d xi xj = (false, d).
Proof. intros H. unfold revise. by rewrite decide_True. Qed.

Lemma revise_true d xi xj :
  to_remove d xi xj ≠ ∅ →
  revise d xi xj = (true, <[xi := dom_of d xi ∖ to_remove d xi xj]> d).
Proof. intros H. unfold revise. by rewrite decide_False. Qed.

(** When [revise] prunes, the peer is a singleton [{x}] and exactly [x] is
    pruned. *)
Lemma to_remove_nonempty d xi xj :
  to_remove d xi xj ≠ ∅ →
  ∃ x, dom_of d xj = {[x]} ∧ x ∈ dom_of d xi ∧ to_remove d xi xj = {[x]}.
Proof.
  intros [x Hx]%set_choose_L. exists x.
  pose proof Hx as [Hi Hj]%elem_of_to_remove. split_and!; [done..|].
  apply set_eq. intros y. rewrite elem_of_to_remove, Hj. split.
  - intros [_ Heq].
    assert (y ∈ ({[x]} : gset Z)) as Hy; [|done].
    rewrite Heq. by apply elem_of_singleton.
  - by intros ->%elem_of_singleton.
Qed.

End AC3_facts.

Section AC3_loop.
Context {O : SetOrder}.

Lemma ac3_loop_nil fuel d : ac3_loop fuel d [] = Done (true, d).
Proof. by destruct fuel. Qed.

Lemma ac3_loop_skip fuel d xi xj q :
  to_remove d xi xj = ∅ →
  ac3_loop (S fuel) d ((xi, xj) :: q) = ac3_loop fuel d q.
Proof. intros H. simpl. by rewrite revise_false. Qed.

Lemma ac3_loop_wipeout fuel d xi xj q :
  to_remove d xi xj ≠ ∅ → dom_of d xi ∖ to_remove d xi xj = ∅ →
  ac3_loop (S fuel) d ((xi, xj) :: q) = Done (false, prune d xi xj).
Proof.
  intros H1 H2. simpl. rewrite revise_true by done.
  rewrite dom_of_insert_eq. by rewrite decide_True.
Qed.

Lemma ac3_loop_prune fuel d xi xj q :
  to_remove d xi xj ≠ ∅ → dom_of d xi ∖ to_remove d xi xj ≠ ∅ →
  ac3_loop (S fuel) d ((xi, xj) :: q)
  = ac3_loop fuel (prune d xi xj) (q ++ requeue xi xj).
Proof.
  intros H1 H2. simpl. rewrite revise_true by done.
  rewrite dom_of_insert_eq. by rewrite decide_False.
Qed.

(** Invariant rule for the worklist loop. *)
Lemma ac3_loop_invariant (I : assignment → list arc → Prop)
    (Q : bool → assignment → Prop) :
  (∀ d, I d [] → Q true d) →
  (∀ d xi xj q, I d ((xi, xj) :: q) → to_remove d xi xj = ∅ → I d q) →
  (∀ d xi xj q, I d ((xi, xj) :: q) → to_remove d xi xj ≠ ∅ →
     dom_of d xi ∖ to_remove d xi xj = ∅ → Q false (prune d xi xj)) →
  (∀ d xi xj q, I d ((xi, xj) :: q) → to_remove d xi xj ≠ ∅ →
     dom_of d xi ∖ to_remove d xi xj ≠ ∅ →
     I (prune d xi xj) (q ++ requeue xi xj)) →
  ∀ fuel d q b d',
    I d q → ac3_loop fuel d q = Done (b, d') → Q b d'.
Proof.
  intros Hnil Hskip Hwipe Hprune fuel.
  induction fuel as [|fuel IH]; intros d q b d' HI Hrun.
  - destruct q as [|[xi xj] q]; [|done].
    simpl in Hrun. injection Hrun as <- <-. by apply Hnil.
  - destruct q as [|[xi xj] q].
    { simpl in Hrun. injection Hrun as <- <-. by apply Hnil. }
    destruct (decide (to_remove d xi xj = ∅)) as [He|Hne].
    { rewrite ac3_loop_skip in Hrun by done. eapply IH; [|done]. eauto. }
    destruct (decide (dom_of d xi ∖ to_remove d xi xj = ∅)) as [Hw|Hnw].
    + rewrite ac3_loop_wipeout in Hrun by done.
      injection Hrun as <- <-. eauto.
    + rewrite ac3_loop_prune in Hrun by done. eapply IH; [|done]. eauto.
Qed.

(** More fuel does not change a result. *)
Lemma ac3_loop_fuel_mono fuel fuel' d q r :
  fuel ≤ fuel' → ac3_loop fuel d q = Done r → ac3_loop fuel' d q = Done r.
Proof.
  revert fuel' d q. induction fuel as [|fuel IH]; intros fuel' d q Hle Hrun.
  - destruct q as [|[xi xj] q]; [|done].
    by rewrite ac3_loop_nil in *.
  - destruct q as [|[xi xj] q]; [by rewrite ac3_loop_nil in *|].
    destruct fuel' as [|fuel']; [lia|].
    destruct (decide (to_remove d xi xj = ∅)) as [He|Hne].
    { rewrite ac3_loop_skip in * by done. apply IH; [lia|done]. }
    destruct (decide (dom_of d xi ∖ to_remove d xi xj = ∅)) as [Hw|Hnw].
    + by rewrite ac3_loop_wipeout in * by done.
    + rewrite ac3_loop_prune in * by done. apply IH; [lia|done].
Qed.

(** *** Candidate counts *)

Lemma sum_sizes_insert_notin d xi s (l : list cell) :
  xi ∉ l →
  sum_list_with (λ c, size (dom_of (<[xi := s]> d) c)) l
  = sum_list_with (λ c, size (dom_of d c)) l.
Proof.
  induction l as [|c l IH]; [done|]. intros Hni. simpl.
  rewrite dom_of_insert_ne by set_solver. rewrite IH; [done|set_solver].
Qed.

Lemma total_size_insert d xi s :
  xi ∈ cells →
  total_size (<[xi := s]> d) + size (dom_of d xi) = total_size d + size s.
Proof.
  unfold total_size. pose proof NoDup_cells as Hnd. revert Hnd.
  generalize cells. intros l Hnd Hin. induction Hnd as [|c l Hc Hnd IH].
  - by apply elem_of_nil in Hin.
  - simpl. rewrite dom_of_insert. apply elem_of_cons in Hin as [Heq|Hin].
    + subst c. rewrite decide_True by done.
      rewrite sum_sizes_insert_notin by done. lia.
    + rewrite decide_False by (intros ->; done). specialize (IH Hin). lia.
Qed.

Lemma total_size_prune d xi xj :
  xi ∈ cells → to_remove d xi xj ≠ ∅ →
  total_size (prune d xi xj) < total_size d.
Proof.
  intros Hxi Hne. unfold prune.
  pose proof (total_size_insert d xi
                (dom_of d xi ∖ to_remove d xi xj) Hxi) as Heq.
  assert (size (dom_of d xi ∖ to_remove d xi xj) < size (dom_of d xi)).
  { apply subset_size. apply set_choose_L in Hne as [x Hx]. split.
    - by intros y [Hy _]%elem_of_difference.
    - intros Hsub. pose proof (to_remove_subseteq d xi xj x Hx) as Hx'.
      by apply Hsub, elem_of_difference in Hx' as [_ Hn]. }
  lia.
Qed.

Lemma total_size_le d : values_1_9 d → total_size d ≤ 729.
Proof.
  unfold values_1_9, total_size. change 729 with (length cells * 9).
  generalize cells. intros l. induction 1 as [|c l Hc _ IH]; simpl; [lia|].
  apply subseteq_size in Hc. rewrite size_range_1_10 in Hc. lia.
Qed.

Lemma arcs_wf_requeue xi xj :
  xi ∈ cells → arcs_wf (requeue xi xj).
Proof.
  intros Hxi. unfold arcs_wf, requeue. rewrite Forall_map, Forall_forall.
  intros xk [Hk _]%elem_of_iter_peers_except. simpl.
  eauto using peers_cells, peers_sym.
Qed.

Lemma arcs_wf_all_arcs : arcs_wf all_arcs.
Proof.
  unfold arcs_wf. rewrite Forall_forall. intros [xi xj].
  by rewrite elem_of_all_arcs.
Qed.

(** The loop ends: [length queue + 20 * total_size domains] iterations
    are enough. *)
Lemma ac3_loop_terminates fuel d q :
  arcs_wf q → ac3_fuel d q ≤ fuel →
  ∃ b d', ac3_loop fuel d q = Done (b, d').
Proof.
  unfold ac3_fuel. revert d q.
  induction fuel as [|fuel IH]; intros d q Hwf Hfuel.
  - destruct q; [|simpl in Hfuel; lia]. by eexists _, _.
  - destruct q as [|[xi xj] q]; [by eexists _, _|].
    apply Forall_cons in Hwf as [[Hxi Hxj] Hwf]. simpl in *.
    destruct (decide (to_remove d xi xj = ∅)) as [He|Hne].
    { rewrite revise_false by done. apply IH; [done|lia]. }
    rewrite revise_true by done. rewrite dom_of_insert_eq.
    case_decide; [by eexists _, _|].
    apply IH.
    + apply Forall_app. split; [done|]. by apply arcs_wf_requeue.
    + pose proof (total_size_prune d xi xj Hxi Hne) as Hlt. unfold prune in Hlt.
      rewrite length_app. unfold requeue.
      pose proof (length_iter_peers_except xi xj Hxi).
      rewrite length_map. lia.
Qed.

End AC3_loop.

Section AC3_invariants.
Context {O : SetOrder}.

Lemma dom_of_prune d xi xj c :
  dom_of (prune d xi xj) c
  = if decide (xi = c) then dom_of d xi ∖ to_remove d xi xj else dom_of d c.
Proof. apply dom_of_insert. Qed.

Lemma shrinks_prune d xi xj : shrinks (prune d xi xj) d.
Proof. apply shrinks_insert. by intros y [? _]%elem_of_difference. Qed.

Lemma justified_refl d : justified d d.
Proof. by intros xi x ??. Qed.

Lemma justified_prune d0 d xi xj :
  xi ∈ cells → xj ∈ peers xi → shrinks d d0 →
  justified d0 d → justified d0 (prune d xi xj).
Proof.
  intros Hxi Hxj Hsh Hj a x Hx0 Hx.
  destruct (decide (x ∈ dom_of d a)) as [Hin|Hout].
  - rewrite dom_of_prune in Hx. case_decide as Ha; [subst a|done].
    apply not_elem_of_difference in Hx as [Hx|Hx]; [done|].
    apply elem_of_to_remove in Hx as [_ Hs].
    split; [done|]. exists xj. split; [done|].
    pose proof (peers_ne _ _ Hxi Hxj).
    rewrite dom_of_prune, decide_False by done. rewrite Hs.
    split; [|done]. apply Hsh. rewrite Hs. set_solver.
  - destruct (Hj a x Hx0 Hout) as (Ha & b & Hb & Hb0 & Hsub).
    split; [done|]. exists b. split_and!; [done..|].
    etrans; [apply shrinks_prune|done].
Qed.

Lemma to_remove_prune_self d xi xj :
  xi ≠ xj → to_remove (prune d xi xj) xi xj = ∅.
Proof.
  intros Hne. apply set_eq. intros y.
  rewrite elem_of_to_remove, !dom_of_prune.
  rewrite decide_True by done. rewrite decide_False by done.
  split; [|by intros ?%elem_of_empty].
  intros [[Hy Hny]%elem_of_difference Hs].
  destruct Hny. by apply elem_of_to_remove.
Qed.

Lemma to_remove_prune_back d xi xj :
  xi ≠ xj → to_remove d xi xj ≠ ∅ → to_remove (prune d xi xj) xj xi = ∅.
Proof.
  intros Hne (x & Hj & Hi & Hrm)%to_remove_nonempty. apply set_eq. intros y.
  rewrite elem_of_to_remove, !dom_of_prune.
  rewrite decide_False by done. rewrite decide_True by done.
  split; [|by intros ?%elem_of_empty].
  rewrite Hj, Hrm. intros [->%elem_of_singleton Hs].
  assert (x ∈ dom_of d xi ∖ {[x]}) as [_ Hn]%elem_of_difference.
  { rewrite Hs. by apply elem_of_singleton. }
  destruct Hn. by apply elem_of_singleton.
Qed.

Lemma to_remove_prune_other d xi xj a b :
  b ≠ xi → to_remove d a b = ∅ → to_remove (prune d xi xj) a b = ∅.
Proof.
  intros Hb He. apply set_eq. intros y. split; [|by intros ?%elem_of_empty].
  rewrite elem_of_to_remove, (dom_of_prune _ _ _ b), decide_False by done.
  intros [Hy Hs]. rewrite <- He. apply elem_of_to_remove. split; [|done].
  by apply (shrinks_prune d xi xj).
Qed.

Lemma ac3_inv_skip d0 d xi xj q :
  ac3_inv d0 d ((xi, xj) :: q) → to_remove d xi xj = ∅ → ac3_inv d0 d q.
Proof.
  intros (Hwf & Hsh & Hw & Hj & Hc) He.
  apply Forall_cons in Hwf as [_ Hwf]. split_and!; [done..|].
  intros a b Ha Hb. destruct (Hc a b Ha Hb) as [Hin|?]; [|by right].
  apply elem_of_cons in Hin as [[= -> ->]|?]; [by right|by left].
Qed.

Lemma ac3_inv_prune d0 d xi xj q :
  ac3_inv d0 d ((xi, xj) :: q) → to_remove d xi xj ≠ ∅ →
  dom_of d xi ∖ to_remove d xi xj ≠ ∅ →
  ac3_inv d0 (prune d xi xj) (q ++ requeue xi xj).
Proof.
  intros (Hwf & Hsh & Hw & Hj & Hc) Hne Hnw.
  apply Forall_cons in Hwf as [[Hxi Hxj] Hwf]. simpl in Hxi, Hxj.
  pose proof (peers_ne _ _ Hxi Hxj) as Hij.
  split_and!.
  - apply Forall_app. split; [done|]. by apply arcs_wf_requeue.
  - eapply shrinks_trans; [apply shrinks_prune|done].
  - intros c Hc0. rewrite dom_of_prune. case_decide; [by subst|by apply Hw].
  - by apply justified_prune.
  - intros a b Ha Hb. rewrite elem_of_app.
    destruct (Hc a b Ha Hb) as [Hin|He].
    { apply elem_of_cons in Hin as [[= -> ->]|?]; [|by left; left].
      right. by apply to_remove_prune_self. }
    destruct (decide (b = xi)) as [->|Hbi].
    + destruct (decide (a = xj)) as [->|Haj].
      * right. by apply to_remove_prune_back.
      * left; right. unfold requeue. apply list_elem_of_fmap.
        exists a. split; [done|]. apply elem_of_iter_peers_except.
        split; [|done]. by apply peers_sym.
    + right. by apply to_remove_prune_other.
Qed.

Lemma ac3_loop_post d0 fuel d q b d' :
  ac3_inv d0 d q → ac3_loop fuel d q = Done (b, d') → ac3_post d0 b d'.
Proof.
  apply (ac3_loop_invariant (ac3_inv d0) (ac3_post d0)).
  - intros d1 (Hwf & Hsh & Hw & Hj & Hc). split_and!; [done..| |done].
    intros xi xj Hxi Hxj. destruct (Hc xi xj Hxi Hxj) as [Hin|?]; [|done].
    by apply elem_of_nil in Hin.
  - apply ac3_inv_skip.
  - intros d1 xi xj q1 (Hwf & Hsh & Hw & Hj & Hc) Hne Hwipe.
    apply Forall_cons in Hwf as [[Hxi Hxj] Hwf]. simpl in Hxi, Hxj.
    split_and!.
    + eapply shrinks_trans; [apply shrinks_prune|done].
    + by apply justified_prune.
    + exists xi. split_and!; [done| |by rewrite dom_of_prune, decide_True].
      apply set_choose_L in Hne as [x Hx%to_remove_subseteq].
      intros He. apply Hsh in Hx. rewrite He in Hx. by apply elem_of_empty in Hx.
  - apply ac3_inv_prune.
Qed.

Lemma ac3_inv_init d : ac3_inv d d all_arcs.
Proof.
  split_and!;
    [apply arcs_wf_all_arcs|apply shrinks_refl|by intros ??
    |apply justified_refl|].
  intros xi xj Hxi Hxj. left. by apply elem_of_all_arcs.
Qed.

(** [ac3] returns, and its result satisfies [ac3_post]. *)
Lemma ac3_returns d : ∃ b d', ac3 d = Done (b, d') ∧ ac3_post d b d'.
Proof.
  destruct (ac3_loop_terminates (ac3_fuel d all_arcs) d all_arcs)
    as (b & d' & Hrun); [apply arcs_wf_all_arcs|done|].
  exists b, d'. split; [done|].
  eapply ac3_loop_post; [apply ac3_inv_init|done].
Qed.

(** On an arc-consistent dictionary the loop changes nothing. *)
Lemma ac3_loop_consistent fuel d q :
  arc_consistent d → arcs_wf q → length q ≤ fuel →
  ac3_loop fuel d q = Done (true, d).
Proof.
  intros Hc. revert q. induction fuel as [|fuel IH]; intros q Hwf Hlen.
  - destruct q; [done|simpl in Hlen; lia].
  - destruct q as [|[xi xj] q]; [done|].
    apply Forall_cons in Hwf as [[Hxi Hxj] Hwf].
    rewrite ac3_loop_skip by by apply Hc.
    apply IH; [done|simpl in Hlen; lia].
Qed.

Lemma ac3_consistent d : arc_consistent d → ac3 d = Done (true, d).
Proof.
  intros Hc. apply ac3_loop_consistent; [done|apply arcs_wf_all_arcs|].
  unfold ac3_fuel. lia.
Qed.

End AC3_invariants.

Section Search_facts.
Context {O : SetOrder}.

(** *** Forward checking *)

Lemma forward_check_spec value ps d d' :
  forward_check value ps d = Some d' →
  no_wipeout d d' ∧
  ∀ c, dom_of d' c
       = if decide (c ∈ ps) then dom_of d c ∖ {[value]} else dom_of d c.
Proof.
  revert d. induction ps as [|p ps IH]; intros d Hfc; simpl in Hfc.
  { injection Hfc as <-. split; [by intros ??|]. intros c.
    rewrite decide_False; [done|apply not_elem_of_nil]. }
  destruct (decide (value ∈ dom_of d p)) as [Hin|Hout].
  - rewrite dom_of_insert_eq in Hfc.
    destruct (decide (dom_of d p ∖ {[value]} = ∅)) as [|Hne]; [done|].
    apply IH in Hfc as [Hw Hfc]. split.
    + intros c Hc. apply Hw. rewrite dom_of_insert. by case_decide; subst.
    + intros c. rewrite Hfc, dom_of_insert.
      destruct (decide (p = c)) as [->|Hpc].
      * rewrite (decide_True (P := c ∈ c :: ps)) by apply list_elem_of_here.
        case_decide; [|done]. apply set_eq. intros y.
        rewrite !elem_of_difference. tauto.
      * destruct (decide (c ∈ ps)) as [Hps|Hps].
        -- by rewrite decide_True by by apply list_elem_of_further.
        -- rewrite decide_False; [done|].
           intros [->|?]%elem_of_cons; done.
  - apply IH in Hfc as [Hw Hfc]. split; [done|]. intros c. rewrite Hfc.
    destruct (decide (c ∈ ps)) as [Hps|Hps].
    + by rewrite decide_True by by apply list_elem_of_further.
    + destruct (decide (c = p)) as [->|Hcp].
      * rewrite decide_True by apply list_elem_of_here.
        apply set_eq. intros y. rewrite elem_of_difference, elem_of_singleton.
        split; [|tauto]. intros Hy. split; [done|]. by intros ->.
      * rewrite decide_False; [done|]. intros [->|?]%elem_of_cons; done.
Qed.

(** *** [assign_and_propagate] *)

(** The call returns: [None], or a dictionary in which [var] holds
    exactly [{value}], no arc can prune and every domain is included in the
    caller's. *)
Lemma assign_and_propagate_spec var value d :
  var ∈ cells →
  ∃ r, assign_and_propagate var value d = Done r ∧
    ∀ nd, r = Some nd →
      dom_of nd var = {[value]} ∧ arc_consistent nd
      ∧ (∀ c, c ≠ var → dom_of nd c ⊆ dom_of d c)
      ∧ (∀ c, c ≠ var → dom_of d c ≠ ∅ → dom_of nd c ≠ ∅)
      ∧ (∀ p, p ∈ peers var → value ∉ dom_of nd p).
Proof.
  intros Hvar. unfold assign_and_propagate.
  destruct (forward_check _ _ _) as [d2|] eqn:Hfc; [|by eexists].
  apply forward_check_spec in Hfc as [Hw2 Hd2].
  destruct (ac3_returns d2) as (b & nd & -> & Hsh & Hj & Hpost).
  destruct b; [|by eexists]. destruct Hpost as [Hc Hw].
  eexists. split; [done|]. intros ? [= <-].
  assert (dom_of d2 var = {[value]}) as Hv2.
  { rewrite Hd2, decide_False, dom_of_insert_eq; [done|].
    rewrite elem_of_iter_peers. by apply peers_irrefl. }
  assert (∀ c, c ≠ var → dom_of d2 c ⊆ dom_of d c) as Hsub2.
  { intros c Hne. rewrite Hd2, dom_of_insert_ne by done.
    case_decide; [|done]. by intros y [? _]%elem_of_difference. }
  split_and!.
  - apply set_eq. intros y. split.
    + intros Hy. rewrite <- Hv2. by apply Hsh.
    + intros ->%elem_of_singleton.
      destruct (decide (value ∈ dom_of nd var)) as [|Hn]; [done|].
      destruct (Hw var) as [].
      { rewrite Hv2. intros He.
        assert (value ∈ (∅ : gset Z)) as []%elem_of_empty.
        rewrite <- He. by apply elem_of_singleton. }
      apply set_eq. intros y. split; [|by intros ?%elem_of_empty].
      intros Hy. pose proof (Hsh var y Hy) as Hy'. rewrite Hv2 in Hy'.
      apply elem_of_singleton in Hy' as ->. done.
  - done.
  - intros c Hne. etrans; [apply Hsh|by apply Hsub2].
  - intros c Hne Hc0. apply Hw, Hw2. by rewrite dom_of_insert_ne.
  - intros p Hp Hin. apply Hsh in Hin. rewrite Hd2 in Hin.
    rewrite decide_True in Hin by by apply elem_of_iter_peers.
    apply elem_of_difference in Hin as [_ Hn]. by apply Hn, elem_of_singleton.
Qed.

(** *** The heuristics *)

Lemma select_unassigned_variable_Some d var :
  select_unassigned_variable d = Some var →
  var ∈ cells ∧ 1 < size (dom_of d var).
Proof.
  unfold select_unassigned_variable.
  destruct (merge_sort _ _) as [|t l] eqn:Hs; [done|]. intros [= <-].
  assert (t ∈ merge_sort mrv_le
            (map (λ c, (size (dom_of d c),
                        (- Z.of_nat (size (peers c)))%Z, c))
               (filter (λ c, 1 < size (dom_of d c)) cells))) as Hin.
  { rewrite Hs. apply list_elem_of_here. }
  rewrite merge_sort_Permutation in Hin.
  apply list_elem_of_fmap in Hin as (c & -> & Hc). simpl.
  by apply list_elem_of_filter in Hc as [? ?].
Qed.

Lemma select_unassigned_variable_None d :
  select_unassigned_variable d = None → count_open d = 0.
Proof.
  unfold select_unassigned_variable, count_open.
  destruct (merge_sort _ _) as [|t l] eqn:Hs; [|done]. intros _.
  apply (f_equal length) in Hs.
  by rewrite merge_sort_Permutation, length_map in Hs.
Qed.

Lemma elem_of_order_domain_values var d value :
  value ∈ order_domain_values var d ↔ value ∈ dom_of d var.
Proof.
  unfold order_domain_values. rewrite <- elem_of_iter_values. split.
  - intros ([n v] & -> & Hin)%list_elem_of_fmap.
    rewrite merge_sort_Permutation in Hin.
    by apply list_elem_of_fmap in Hin as (val & [= -> ->] & Hin).
  - intros Hin. apply list_elem_of_fmap. eexists (_, value). split; [done|].
    rewrite merge_sort_Permutation. apply list_elem_of_fmap. by exists value.
Qed.

Lemma is_solved_spec d :
  is_solved d = true ↔ ∀ c, c ∈ cells → size (dom_of d c) = 1.
Proof.
  unfold is_solved. rewrite forallb_forall.
  setoid_rewrite bool_decide_eq_true. by setoid_rewrite <- list_elem_of_In.
Qed.

(** *** Progress of the search *)

Lemma length_filter_strict_mono {A} (P Q : A → Prop) `{!∀ x, Decision (P x)}
    `{!∀ x, Decision (Q x)} (l : list A) x :
  (∀ y, y ∈ l → P y → Q y) → x ∈ l → Q x → ¬ P x →
  length (filter P l) < length (filter Q l).
Proof.
  intros HPQ Hx HQx HPx.
  assert (∀ k : list A, (∀ y, y ∈ k → P y → Q y) →
            length (filter P k) ≤ length (filter Q k)) as Hle.
  { intros k. induction k as [|y k IH]; [done|]. intros Hk.
    rewrite !filter_cons.
    assert (length (filter P k) ≤ length (filter Q k)).
    { apply IH. intros z Hz. apply Hk. by apply list_elem_of_further. }
    destruct (decide (P y)) as [HP|HP].
    - rewrite decide_True; [simpl; lia|]. apply Hk; [apply list_elem_of_here|done].
    - destruct (decide (Q y)); simpl; lia. }
  induction l as [|y l IH]; [by apply elem_of_nil in Hx|].
  rewrite !filter_cons. apply elem_of_cons in Hx as [<-|Hx].
  - rewrite decide_False, decide_True by done. simpl.
    assert (length (filter P l) ≤ length (filter Q l)); [|lia].
    apply Hle. intros z Hz. apply HPQ. by apply list_elem_of_further.
  - assert (length (filter P l) < length (filter Q l)).
    { apply IH; [|done]. intros z Hz. apply HPQ. by apply list_elem_of_further. }
    destruct (decide (P y)) as [HP|HP].
    + rewrite decide_True; [simpl; lia|].
      apply HPQ; [apply list_elem_of_here|done].
    + destruct (decide (Q y)); simpl; lia.
Qed.

Lemma count_open_le_81 d : count_open d ≤ 81.
Proof.
  unfold count_open. rewrite <- length_cells. apply length_filter.
Qed.

(** Forcing an open cell to a singleton without growing any domain
    closes at least one cell. *)
Lemma count_open_assign d nd var :
  var ∈ cells → 1 < size (dom_of d var) → size (dom_of nd var) ≤ 1 →
  (∀ c, c ≠ var → dom_of nd c ⊆ dom_of d c) →
  count_open nd < count_open d.
Proof.
  intros Hvar Hd Hnd Hsub. unfold count_open.
  apply (length_filter_strict_mono _ _ _ var); [|done|done|lia].
  intros c _ Hc. destruct (decide (c = var)) as [->|Hne]; [done|].
  pose proof (subseteq_size _ _ (Hsub c Hne)). lia.
Qed.

End Search_facts.

Section Backtrack_facts.
Context {O : SetOrder}.

Lemma first_result_returns {A} (body : Z → outcome (option A)) values :
  (∀ v, v ∈ values → ∃ r, body v = Done r) →
  ∃ r, first_result body values = Done r.
Proof.
  induction values as [|v values IH]; intros Hbody; simpl; [by eexists|].
  destruct (Hbody v) as [[r|] ->]; [apply list_elem_of_here|by eexists|].
  apply IH. intros w Hw. apply Hbody. by apply list_elem_of_further.
Qed.

Lemma first_result_Some {A} (body : Z → outcome (option A)) values r :
  first_result body values = Done (Some r) →
  ∃ v, v ∈ values ∧ body v = Done (Some r).
Proof.
  induction values as [|v values IH]; simpl; [done|].
  destruct (body v) as [|[r'|]] eqn:Hv; [done| |].
  - intros [= <-]. exists v. split; [apply list_elem_of_here|done].
  - intros (w & Hw & Hb)%IH. exists w.
    split; [by apply list_elem_of_further|done].
Qed.

Lemma backtrack_unfold depth d :
  backtrack depth d =
  if is_solved d then Done (Some d)
  else
    match select_unassigned_variable d with
    | None => Done None
    | Some var =>
        first_result
          (λ value,
             match assign_and_propagate var value d with
             | OutOfFuel => OutOfFuel
             | Done None => Done None
             | Done (Some new_domains) =>
                 match depth with
                 | 0 => OutOfFuel
                 | S depth' => backtrack depth' new_domains
                 end
             end)
          (order_domain_values var d)
    end.
Proof. by destruct depth. Qed.

(** The search returns when it may nest as many calls as there are open
    cells. *)
Lemma backtrack_returns depth d :
  count_open d ≤ depth → ∃ r, backtrack depth d = Done r.
Proof.
  revert d. induction depth as [|depth IH]; intros d Hcount;
    rewrite backtrack_unfold.
  - destruct (is_solved d); [by eexists|].
    destruct (select_unassigned_variable d) as [var|] eqn:Hsel;
      [|by eexists].
    apply select_unassigned_variable_Some in Hsel as [Hvar Hsize].
    apply first_result_returns. intros v _.
    destruct (assign_and_propagate_spec var v d Hvar) as (r & -> & Hr).
    destruct r as [nd|]; [|by eexists].
    destruct (Hr nd eq_refl) as (Hv & _ & Hsub & _).
    assert (count_open nd < count_open d); [|lia].
    apply (count_open_assign d nd var); [done..| |done].
    by rewrite Hv, size_singleton.
  - destruct (is_solved d); [by eexists|].
    destruct (select_unassigned_variable d) as [var|] eqn:Hsel;
      [|by eexists].
    apply select_unassigned_variable_Some in Hsel as [Hvar Hsize].
    apply first_result_returns. intros v _.
    destruct (assign_and_propagate_spec var v d Hvar) as (r & -> & Hr).
    destruct r as [nd|]; [|by eexists].
    destruct (Hr nd eq_refl) as (Hv & _ & Hsub & _).
    apply IH.
    assert (count_open nd < count_open d); [|lia].
    apply (count_open_assign d nd var); [done..| |done].
    by rewrite Hv, size_singleton.
Qed.

(** A dictionary returned by the search is solved, is included in the
    caller's, and admits no pruning if the caller's did not. *)
Lemma backtrack_sound depth d sol :
  backtrack depth d = Done (Some sol) →
  is_solved sol = true ∧ shrinks sol d
  ∧ (arc_consistent d → arc_consistent sol).
Proof.
  revert d. induction depth as [|depth IH]; intros d;
    rewrite backtrack_unfold.
  - destruct (is_solved d) eqn:Hs.
    { intros [= <-]. split_and!; [done|apply shrinks_refl|done]. }
    destruct (select_unassigned_variable d) as [var|] eqn:Hsel; [|done].
    intros (v & Hv & Hbody)%first_result_Some.
    by destruct (assign_and_propagate var v d) as [|[?|]].
  - destruct (is_solved d) eqn:Hs.
    { intros [= <-]. split_and!; [done|apply shrinks_refl|done]. }
    destruct (select_unassigned_variable d) as [var|] eqn:Hsel; [|done].
    apply select_unassigned_variable_Some in Hsel as [Hvar Hsize].
    intros (v & Hv & Hbody)%first_result_Some.
    destruct (assign_and_propagate_spec var v d Hvar) as (r & Heq & Hr).
    rewrite Heq in Hbody. destruct r as [nd|]; [|done].
    destruct (Hr nd eq_refl) as (Hnv & Hc & Hsub & _).
    apply IH in Hbody as (Hsolved & Hsh & Hcons).
    split_and!; [done| |by auto].
    eapply shrinks_trans; [done|]. intros c.
    destruct (decide (c = var)) as [->|Hne]; [|by apply Hsub].
    rewrite Hnv. apply elem_of_order_domain_values in Hv.
    by apply singleton_subseteq_l.
Qed.

End Backtrack_facts.

(** ** Grids *)

Lemma elem_of_digits v : v ∈ digits ↔ (1 ≤ v ≤ 9)%Z.
Proof. unfold digits. rewrite !elem_of_cons, elem_of_nil. lia. Qed.

Lemma units_table :
  Forall (λ u, length u = 9 ∧ NoDup u
               ∧ Forall (λ a, a ∈ cells
                              ∧ Forall (λ b, a = b ∨ b ∈ peers a) u) u)
    units.
Proof. apply (bool_decide_unpack _). by vm_compute. Qed.

Lemma is_9x9_write_cell g r c v : is_9x9 g → is_9x9 (write_cell g r c v).
Proof.
  intros [Hlen Hrows]. unfold write_cell. split; [by rewrite length_alter|].
  apply Forall_lookup. intros i row Hi.
  destruct (decide (r = i)) as [->|Hne].
  - rewrite list_lookup_alter_eq in Hi.
    destruct (g !! i) as [row'|] eqn:Hrow; [|done]. injection Hi as <-.
    rewrite length_insert. by eapply (Forall_lookup_1 _ _ _ _ Hrows).
  - rewrite list_lookup_alter_ne in Hi by done.
    by eapply (Forall_lookup_1 _ _ _ _ Hrows).
Qed.

Lemma grid_at_write_cell g r c v r' c' :
  is_9x9 g → r < 9 → c < 9 →
  grid_at (write_cell g r c v) r' c'
  = if decide ((r, c) = (r', c')) then v else grid_at g r' c'.
Proof.
  intros [Hlen Hrows] Hr Hc. unfold grid_at, write_cell.
  rewrite list_lookup_total_alter.
  destruct (decide (r = r')) as [<-|Hne].
  - rewrite decide_True by (split; [done|lia]).
    assert (length (g !!! r) = 9) as Hrow.
    { eapply Forall_lookup_total_1; [done|lia]. }
    rewrite list_lookup_total_insert by lia.
    destruct (decide (c = c')) as [<-|Hc'].
    + rewrite decide_True by (split; [done|lia]). by rewrite decide_True.
    + rewrite decide_False by (intros [? _]; done).
      rewrite decide_False; [done|]. by intros [= ?].
  - rewrite decide_False by (intros [? _]; done).
    rewrite decide_False; [done|]. by intros [= ? ?].
Qed.

Lemma foldl_write_cell (f : cell → Z) (l : list cell) g0 :
  is_9x9 g0 → Forall (λ rc, rc ∈ cells) l →
  let g := foldl (λ g rc, write_cell g rc.1 rc.2 (f rc)) g0 l in
  is_9x9 g ∧
  ∀ rc, (∀ k1 k2, l = k1 ++ rc :: k2 → rc ∉ k2) →
    grid_at g rc.1 rc.2
    = if decide (rc ∈ l) then f rc else grid_at g0 rc.1 rc.2.
Proof.
  revert g0. induction l as [|x l IH]; intros g0 Hg0 Hl; cbn [foldl]; cbv zeta.
  { split; [done|]. intros rc _. rewrite decide_False; [done|].
    apply not_elem_of_nil. }
  apply Forall_cons in Hl as [Hx%elem_of_cells Hl].
  destruct (IH (write_cell g0 x.1 x.2 (f x))) as [Hg Hread];
    [by apply is_9x9_write_cell|done|].
  split; [done|]. intros rc Hlast. rewrite Hread.
  - destruct (decide (rc ∈ l)) as [Hin|Hout].
    + by rewrite decide_True by by apply list_elem_of_further.
    + rewrite grid_at_write_cell by (done || lia).
      destruct x as [r c], rc as [r' c']. cbn [fst snd].
      destruct (decide ((r, c) = (r', c'))) as [[= <- <-]|Hne].
      * by rewrite decide_True by apply list_elem_of_here.
      * rewrite decide_False; [done|].
        intros [?|?]%elem_of_cons; [congruence|done].
  - intros k1 k2 ->. apply (Hlast (x :: k1) k2). done.
Qed.

Section Grid_facts.
Context {O : SetOrder}.

Lemma next_iter_singleton v : next_iter {[v]} = v.
Proof.
  unfold next_iter. pose proof (iter_values_perm {[v]}) as Hp.
  rewrite elements_singleton in Hp. apply Permutation_singleton_r in Hp.
  by rewrite Hp.
Qed.

Lemma solved_grid_spec sol :
  is_9x9 (solved_grid sol) ∧
  ∀ rc, rc ∈ cells →
    grid_at (solved_grid sol) rc.1 rc.2
    = if decide (size (dom_of sol rc) = 1) then next_iter (dom_of sol rc)
      else 0%Z.
Proof.
  unfold solved_grid.
  destruct (foldl_write_cell
              (λ rc, if decide (size (dom_of sol rc) = 1)
                     then next_iter (dom_of sol rc) else 0%Z)
              cells (replicate 9 (replicate 9 0%Z))) as [Hg Hread].
  - split; [reflexivity|]. repeat (constructor; [reflexivity|]). constructor.
  - by apply Forall_forall.
  - split; [done|]. intros rc Hrc. rewrite Hread.
    + by rewrite decide_True.
    + intros k1 k2 Heq Hin. pose proof NoDup_cells as Hnd.
      rewrite Heq in Hnd. apply NoDup_app in Hnd as (_ & _ & Hnd).
      by apply NoDup_cons in Hnd as [? _].
Qed.

(** A solved dictionary that admits no pruning and holds values 1..9
    yields a valid grid. *)
Lemma solved_grid_valid sol :
  is_solved sol = true → arc_consistent sol → values_1_9 sol →
  valid_solution (solved_grid sol).
Proof.
  intros Hsolved Hcons Hvals. rewrite is_solved_spec in Hsolved.
  destruct (solved_grid_spec sol) as [Hg Hread]. split; [done|].
  assert (∀ rc, rc ∈ cells →
            dom_of sol rc = {[grid_at (solved_grid sol) rc.1 rc.2]}) as Hval.
  { intros rc Hrc. rewrite Hread, decide_True by auto.
    destruct (size_1_elem_of _ (Hsolved rc Hrc)) as [v ->%leibniz_equiv].
    by rewrite next_iter_singleton. }
  pose proof units_table as Hunits. rewrite Forall_forall in Hunits.
  apply Forall_forall. intros u Hu.
  destruct (Hunits u Hu) as (Hlen & Hnd & Hpeers).
  rewrite Forall_forall in Hpeers.
  apply submseteq_length_Permutation;
    [|unfold read_cells; rewrite length_map, Hlen; simpl; lia].
  apply NoDup_submseteq.
  - apply NoDup_fmap_2_strong; [|done]. intros a b Ha Hb Heq.
    destruct (Hpeers a Ha) as [Hac Hrest]. rewrite Forall_forall in Hrest.
    destruct (Hrest b Hb) as [|Hpeer]; [done|]. exfalso.
    assert (b ∈ cells) as Hbc by by destruct (Hpeers b Hb).
    assert (grid_at (solved_grid sol) a.1 a.2 ∈ to_remove sol a b) as Hin.
    { apply elem_of_to_remove. rewrite (Hval a Hac), (Hval b Hbc), Heq.
      split; [by apply elem_of_singleton|done]. }
    rewrite (Hcons a b Hac Hpeer) in Hin. by apply elem_of_empty in Hin.
  - intros v (a & -> & Ha)%list_elem_of_fmap.
    destruct (Hpeers a Ha) as [Hac _].
    unfold values_1_9 in Hvals. rewrite Forall_forall in Hvals.
    assert (grid_at (solved_grid sol) a.1 a.2 ∈ range_1_10) as Hr.
    { apply (Hvals a Hac). rewrite (Hval a Hac). by apply elem_of_singleton. }
    apply elem_of_range_1_10 in Hr. by apply elem_of_digits.
Qed.

End Grid_facts.

(** ** Construction *)

Section Init_facts.
Context {O : SetOrder}.

Lemma foldl_insert_dom_of (f : cell → gset Z) (l : list cell) d0 rc :
  dom_of (foldl (λ doms rc, <[rc := f rc]> doms) d0 l) rc
  = if decide (rc ∈ l) then f rc else dom_of d0 rc.
Proof.
  revert d0. induction l as [|x l IH]; intros d0; cbn [foldl].
  { rewrite decide_False; [done|apply not_elem_of_nil]. }
  rewrite IH. destruct (decide (rc ∈ l)) as [Hin|Hout].
  - by rewrite decide_True by by apply list_elem_of_further.
  - rewrite dom_of_insert. destruct (decide (x = rc)) as [->|Hne].
    + by rewrite decide_True by apply list_elem_of_here.
    + rewrite decide_False; [done|].
      intros [?|?]%elem_of_cons; [congruence|done].
Qed.

Lemma foldl_insert_is_Some (f : cell → gset Z) (l : list cell)
    (d0 : assignment) rc :
  is_Some (d0 !! rc) ∨ rc ∈ l →
  is_Some (foldl (λ doms rc, <[rc := f rc]> doms) d0 l !! rc).
Proof.
  revert d0. induction l as [|x l IH]; intros d0 H; cbn [foldl].
  { destruct H as [?|H]; [done|by apply elem_of_nil in H]. }
  apply IH. destruct (decide (x = rc)) as [->|Hne].
  - left. by rewrite lookup_insert_eq.
  - rewrite lookup_insert_ne by done.
    destruct H as [?|[?|?]%elem_of_cons]; [by left|congruence|by right].
Qed.

Lemma initialize_domains_dom_of grid d0 rc :
  rc ∈ cells → dom_of (initialize_domains grid d0) rc = initial_domain grid rc.
Proof.
  intros Hrc. unfold initialize_domains.
  by rewrite foldl_insert_dom_of, decide_True.
Qed.

Lemma initialize_domains_total grid d0 :
  total_on_cells (initialize_domains grid d0).
Proof.
  apply Forall_forall. intros rc Hrc. apply foldl_insert_is_Some. by right.
Qed.

Lemma initial_domain_clue grid rc v :
  clue grid rc v → initial_domain grid rc = {[v]}.
Proof.
  intros [<- Hv]. unfold initial_domain.
  rewrite decide_True; [done|]. split; [lia|done].
Qed.

(** A cell that holds no clue starts from 1..9 minus the clues of its
    peers. *)
Lemma initial_domain_no_clue grid rc w :
  ¬ (1 ≤ grid_at grid rc.1 rc.2 ≤ 9)%Z →
  w ∈ initial_domain grid rc ↔ (1 ≤ w ≤ 9)%Z ∧ ¬ peer_clue grid rc w.
Proof.
  intros Hrc. unfold initial_domain. rewrite decide_False by tauto.
  rewrite elem_of_difference, elem_of_range_1_10, elem_of_list_to_set.
  rewrite list_elem_of_filter. split; intros [Hw Hn].
  - split; [exact Hw|].
    intros (p & Hp & <- & Hclue). apply Hn. split; [lia|].
    apply list_elem_of_fmap. exists p. by rewrite elem_of_iter_peers.
  - split; [exact Hw|].
    intros [Hw0 (p & -> & Hp)%list_elem_of_fmap]. apply Hn. exists p.
    rewrite elem_of_iter_peers in Hp. by split.
Qed.

Lemma initial_domain_values grid rc : initial_domain grid rc ⊆ range_1_10.
Proof.
  unfold initial_domain. case_decide as H.
  - intros w ->%elem_of_singleton. apply elem_of_range_1_10. by destruct H.
  - by intros w [? _]%elem_of_difference.
Qed.

Lemma new_SudokuCSP_9x9 g :
  is_9x9 g →
  new_SudokuCSP g
  = inr {| grid := g;
           domains :=
             initialize_domains g
               (list_to_map (map (λ c, (c, (∅ : gset Z))) cells)) |}.
Proof.
  intros [Hlen Hrows]. unfold new_SudokuCSP.
  assert (bool_decide (length g = 9)
          && forallb (λ row : list Z, bool_decide (length row = 9)) g = true)
    as ->; [|reflexivity].
  apply andb_true_intro. split; [by apply bool_decide_eq_true_2|].
  apply forallb_forall. intros row Hrow%list_elem_of_In.
  apply bool_decide_eq_true_2. by apply (proj1 (Forall_forall _ _) Hrows).
Qed.

Lemma new_SudokuCSP_not_9x9 g :
  ¬ is_9x9 g → new_SudokuCSP g = inl (AssertionError "Grid must be 9x9").
Proof.
  intros Hn. unfold new_SudokuCSP.
  destruct (bool_decide (length g = 9)
            && forallb (λ row : list Z, bool_decide (length row = 9)) g)
    eqn:Hcond; [|reflexivity].
  destruct Hn. apply andb_prop in Hcond as [Hlen Hrows]. split.
  - by apply bool_decide_eq_true in Hlen.
  - apply Forall_forall. intros row Hrow%list_elem_of_In.
    rewrite forallb_forall in Hrows.
    by apply (bool_decide_eq_true_1 _), Hrows.
Qed.

(** [solve] returns, and a grid it returns is valid and is read off a
    solved dictionary included in the initial one. *)
Lemma solve_spec self :
  values_1_9 (domains self) →
  ∃ r, solve self = Done r ∧
    ∀ g, r = Some g →
      valid_solution g ∧
      ∃ sol, g = solved_grid sol ∧ is_solved sol = true
             ∧ shrinks sol (domains self).
Proof.
  intros Hvals. unfold solve.
  destruct (ac3_returns (domains self)) as (b & d & -> & Hsh & _ & Hpost).
  destruct b; [|by eexists].
  destruct Hpost as [Hcons _].
  destruct (backtrack_returns 81 d (count_open_le_81 d)) as [r Hr].
  rewrite Hr. destruct r as [sol|]; [|by eexists].
  apply backtrack_sound in Hr as (Hsolved & Hsh' & Hcons').
  eexists. split; [done|]. intros g [= <-].
  assert (shrinks sol (domains self)) as Hsh'' by by eapply shrinks_trans.
  split; [|by exists sol].
  apply solved_grid_valid; [done|by auto|].
  unfold values_1_9 in *. rewrite Forall_forall in *.
  intros c Hc. etrans; [apply Hsh''|by apply Hvals].
Qed.

Lemma values_1_9_initialize grid d0 :
  values_1_9 (initialize_domains grid d0).
Proof.
  apply Forall_forall. intros rc Hrc.
  rewrite initialize_domains_dom_of by done. apply initial_domain_values.
Qed.

(** The value that [solve] writes in a cell whose initial domain is a
    singleton. *)
Lemma solve_keeps_singleton self g rc v :
  rc ∈ cells → dom_of (domains self) rc = {[v]} →
  values_1_9 (domains self) →
  solve self = Done (Some g) → grid_at g rc.1 rc.2 = v.
Proof.
  intros Hrc Hv Hvals Hsolve.
  destruct (solve_spec self Hvals) as (r & Hr & Hg).
  rewrite Hsolve in Hr. injection Hr as <-.
  destruct (Hg g eq_refl) as (_ & sol & -> & Hsolved & Hsh).
  destruct (solved_grid_spec sol) as [_ Hread].
  rewrite is_solved_spec in Hsolved.
  rewrite Hread, decide_True by auto.
  destruct (size_1_elem_of _ (Hsolved rc Hrc)) as [w Hw%leibniz_equiv].
  rewrite Hw, next_iter_singleton.
  assert (w ∈ dom_of (domains self) rc) as Hin.
  { apply Hsh. rewrite Hw. by apply elem_of_singleton. }
  rewrite Hv in Hin. by apply elem_of_singleton in Hin.
Qed.

End Init_facts.

Lemma is_9x9_puzzle : is_9x9 puzzle.
Proof. apply (bool_decide_unpack _). vm_compute. exact I. Defined.

Lemma entries_0_9_puzzle : entries_0_9 puzzle.
Proof. apply (bool_decide_unpack _). vm_compute. exact I. Defined.

Section Claims_solve.
Context {O : SetOrder}.

(** C1: for a 9x9 grid with entries 0..9 the solver is constructed and
    [solve] returns; it returns [None] or a 9x9 grid in which every row,
    every column and every box is a permutation of 1..9. *)
Theorem solve_returns_none_or_valid_grid grid :
  is_9x9 grid → entries_0_9 grid →
  ∃ self, new_SudokuCSP grid = inr self ∧
    ∃ r, solve self = Done r ∧
      (r = None ∨ ∃ g, r = Some g ∧ valid_solution g).
Proof.
  intros Hg _. eexists. split; [by apply new_SudokuCSP_9x9|].
  destruct (solve_spec
              {| grid := grid;
                 domains :=
                   initialize_domains grid
                     (list_to_map (map (λ c, (c, (∅ : gset Z))) cells)) |})
    as (r & Hr & Hvalid); [apply values_1_9_initialize|].
  exists r. split; [done|]. destruct r as [g|]; [right|by left].
  exists g. split; [done|]. by destruct (Hvalid g eq_refl).
Qed.

Lemma produced_keeps_singleton self d rc v :
  rc ∈ cells → dom_of (domains self) rc = {[v]} →
  produced self d → dom_of d rc = {[v]}.
Proof.
  intros Hrc Hv Hprod.
  induction Hprod as [|d Hac3|d var value nd _ IH Hsel Hval Hassign]; [done| |].
  - destruct (ac3_returns (domains self)) as (b & d' & Hrun & Hsh & _ & Hpost).
    rewrite Hac3 in Hrun. injection Hrun as <- <-. destruct Hpost as [_ Hw].
    apply set_eq. intros y. split.
    + intros Hy. rewrite <- Hv. by apply Hsh.
    + intros ->%elem_of_singleton.
      destruct (set_choose_L (dom_of d rc)) as [w Hw'].
      { apply Hw. rewrite Hv. intros He.
        assert (v ∈ (∅ : gset Z)) as []%elem_of_empty.
        rewrite <- He. by apply elem_of_singleton. }
      pose proof (Hsh rc w Hw') as Hw''. rewrite Hv in Hw''.
      by apply elem_of_singleton in Hw'' as <-.
  - apply select_unassigned_variable_Some in Hsel as [Hvar Hsize].
    destruct (assign_and_propagate_spec var value d Hvar) as (r & Hr & Hspec).
    rewrite Hassign in Hr. injection Hr as <-.
    destruct (Hspec nd eq_refl) as (_ & _ & Hsub & Hne & _).
    assert (rc ≠ var) as Hrcvar.
    { intros ->. rewrite IH, size_singleton in Hsize. lia. }
    apply set_eq. intros y. split.
    + intros Hy. rewrite <- IH. by apply Hsub.
    + intros ->%elem_of_singleton.
      destruct (set_choose_L (dom_of nd rc)) as [w Hw'].
      { apply Hne; [done|]. rewrite IH. intros He.
        assert (v ∈ (∅ : gset Z)) as []%elem_of_empty.
        rewrite <- He. by apply elem_of_singleton. }
      pose proof (Hsub rc Hrcvar w Hw') as Hw''. rewrite IH in Hw''.
      by apply elem_of_singleton in Hw'' as <-.
Qed.

(** C2: a cell that holds a clue [v] starts with the domain [{v}], keeps
    it in every dictionary that the run hands on, and holds [v] in the grid
    that [solve] returns. *)
Theorem clue_is_kept grid :
  is_9x9 grid → entries_0_9 grid →
  ∃ self, new_SudokuCSP grid = inr self ∧
    ∀ rc v, rc ∈ cells → clue grid rc v →
      dom_of (domains self) rc = {[v]}
      ∧ (∀ d, produced self d → dom_of d rc = {[v]})
      ∧ (∀ g, solve self = Done (Some g) → grid_at g rc.1 rc.2 = v).
Proof.
  intros Hg _. eexists. split; [by apply new_SudokuCSP_9x9|].
  intros rc v Hrc Hclue. cbn [domains].
  assert (dom_of
            (initialize_domains grid
               (list_to_map (map (λ c, (c, (∅ : gset Z))) cells))) rc
          = {[v]}) as Hv.
  { rewrite initialize_domains_dom_of by done.
    by apply initial_domain_clue. }
  split_and!; [done| |].
  - intros d Hd. eapply produced_keeps_singleton; [done| |exact Hd]. exact Hv.
  - intros g Hsolve.
    eapply solve_keeps_singleton; [done| | |exact Hsolve];
      [exact Hv|apply values_1_9_initialize].
Qed.

(** C4: at construction a clue [v] gets the domain [{v}]; a blank cell
    gets 1..9 minus the clues that appear among its 20 peers. *)
Theorem initial_domains_spec grid :
  is_9x9 grid → entries_0_9 grid →
  ∃ self, new_SudokuCSP grid = inr self ∧
    ∀ rc, rc ∈ cells →
      size (peers rc) = 20
      ∧ (∀ v, clue grid rc v → dom_of (domains self) rc = {[v]})
      ∧ (grid_at grid rc.1 rc.2 = 0%Z →
         ∀ w, w ∈ dom_of (domains self) rc
              ↔ (1 ≤ w ≤ 9)%Z ∧ ¬ peer_clue grid rc w).
Proof.
  intros Hg _. eexists. split; [by apply new_SudokuCSP_9x9|].
  intros rc Hrc. cbn [domains]. rewrite initialize_domains_dom_of by done.
  split_and!; [by apply peers_size|by apply initial_domain_clue|].
  intros Hblank w. apply initial_domain_no_clue. rewrite Hblank. lia.
Qed.

(** C7: construction raises the assertion error exactly when the grid is
    not 9 rows of 9 entries; otherwise it succeeds and keeps the grid. *)
Theorem construction_checks_the_shape (g : list (list Z)) :
  (is_9x9 g ∧ ∃ self, new_SudokuCSP g = inr self ∧ grid self = g)
  ∨ (¬ is_9x9 g
     ∧ new_SudokuCSP g = inl (AssertionError "Grid must be 9x9")).
Proof.
  destruct (decide (is_9x9 g)) as [Hg|Hg].
  - left. split; [done|]. eexists. by split; [apply new_SudokuCSP_9x9|].
  - right. split; [done|]. by apply new_SudokuCSP_not_9x9.
Qed.

(** C10: only the shape is checked.  A 9x9 grid with entries outside 0..9
    is accepted; such an entry is treated as a blank (its cell starts from
    1..9 minus the clues of its peers), and a grid that [solve] returns
    holds a value 1..9 there, which differs from the entry. *)
Theorem out_of_range_entry_is_blank grid :
  is_9x9 grid →
  ∃ self, new_SudokuCSP grid = inr self ∧
    ∀ rc, rc ∈ cells → ¬ (0 ≤ grid_at grid rc.1 rc.2 ≤ 9)%Z →
      (∀ w, w ∈ dom_of (domains self) rc
            ↔ (1 ≤ w ≤ 9)%Z ∧ ¬ peer_clue grid rc w)
      ∧ ∃ r, solve self = Done r ∧
          ∀ g, r = Some g →
            (1 ≤ grid_at g rc.1 rc.2 ≤ 9)%Z
            ∧ grid_at g rc.1 rc.2 ≠ grid_at grid rc.1 rc.2.
Proof.
  intros Hg. eexists. split; [by apply new_SudokuCSP_9x9|].
  intros rc Hrc Hout. cbn [domains].
  rewrite initialize_domains_dom_of by done. split.
  { intros w. apply initial_domain_no_clue. lia. }
  destruct (solve_spec
              {| grid := grid;
                 domains :=
                   initialize_domains grid
                     (list_to_map (map (λ c, (c, (∅ : gset Z))) cells)) |})
    as (r & Hr & Hvalid); [apply values_1_9_initialize|].
  exists r. split; [done|]. intros g ->.
  destruct (Hvalid g eq_refl) as (_ & sol & -> & Hsolved & Hsh).
  destruct (solved_grid_spec sol) as [_ Hread].
  rewrite is_solved_spec in Hsolved.
  rewrite Hread, decide_True by auto.
  destruct (size_1_elem_of _ (Hsolved rc Hrc)) as [w Hw%leibniz_equiv].
  rewrite Hw, next_iter_singleton.
  assert (w ∈ range_1_10) as Hw'%elem_of_range_1_10; [|lia].
  cbn [domains] in Hsh. apply (initial_domain_values grid rc).
  rewrite <- (initialize_domains_dom_of grid
                (list_to_map (map (λ c, (c, (∅ : gset Z))) cells))) by done.
  apply Hsh. rewrite Hw. by apply elem_of_singleton.
Qed.

End Claims_solve.

Lemma arc_consistent_check d :
  Forall (λ xi, set_Forall (λ xj, to_remove d xi xj = ∅) (peers xi)) cells →
  arc_consistent d.
Proof.
  intros H xi xj Hxi Hxj. rewrite Forall_forall in H. by apply (H xi Hxi).
Qed.

Lemma total_size_mono d' d : shrinks d' d → total_size d' ≤ total_size d.
Proof.
  intros Hsh. unfold total_size. induction cells as [|c l IH]; [done|].
  cbn [sum_list_with]. pose proof (subseteq_size _ _ (Hsh c)). lia.
Qed.

Section Claims_ac3.
Context {O : SetOrder}.

Lemma revise_dom_of d xi xj c :
  dom_of (revise d xi xj).2 c
  = if decide (xi = c) then dom_of d xi ∖ to_remove d xi xj else dom_of d c.
Proof.
  destruct (decide (to_remove d xi xj = ∅)) as [He|Hne].
  - rewrite revise_false by done. cbn [snd]. case_decide; [subst c|done].
    rewrite He. apply set_eq. intros y. rewrite elem_of_difference.
    split; [|tauto]. intros Hy. split; [done|apply not_elem_of_empty].
  - rewrite revise_true by done. apply dom_of_insert.
Qed.

Lemma revise_flag d xi xj :
  (revise d xi xj).1 = true ↔ to_remove d xi xj ≠ ∅.
Proof.
  destruct (decide (to_remove d xi xj = ∅)) as [He|Hne].
  - rewrite revise_false by done. by split.
  - rewrite revise_true by done. by split.
Qed.

(** C3: [revise] removes [x] from the domain of [xi] exactly when the
    domain of [xj] is the singleton [{x}], touches no other cell, and
    leaves everything alone when [xj] has no or several candidates.  A run
    of [ac3] only removes a candidate of a cell against a peer that
    collapsed to that candidate; when it succeeds, the candidates it removed
    from a cell are exactly those held as singletons by the peers; it fails
    if and only if a domain that was not empty has become empty. *)
Theorem ac3_prunes_against_singletons d :
  total_on_cells d →
  (∀ xi xj,
     (∀ x, x ∈ dom_of (revise d xi xj).2 xi
           ↔ x ∈ dom_of d xi ∧ dom_of d xj ≠ {[x]})
     ∧ (∀ c, c ≠ xi → dom_of (revise d xi xj).2 c = dom_of d c)
     ∧ ((revise d xi xj).1 = true
        ↔ ∃ x, x ∈ dom_of d xi ∧ dom_of d xj = {[x]})
     ∧ (size (dom_of d xj) ≠ 1 → revise d xi xj = (false, d)))
  ∧ ∃ b d', ac3 d = Done (b, d') ∧ shrinks d' d
      ∧ (∀ xi x, x ∈ dom_of d xi → x ∉ dom_of d' xi →
           xi ∈ cells
           ∧ ∃ xj, xj ∈ peers xi ∧ x ∈ dom_of d xj
                   ∧ dom_of d' xj ⊆ {[x]})
      ∧ (b = true →
         ∀ xi x, xi ∈ cells → x ∈ dom_of d xi →
           (x ∉ dom_of d' xi ↔ ∃ xj, xj ∈ peers xi ∧ dom_of d' xj = {[x]}))
      ∧ (b = false ↔ ∃ c, c ∈ cells ∧ dom_of d c ≠ ∅ ∧ dom_of d' c = ∅).
Proof.
  intros _. split.
  { intros xi xj. split_and!.
    - intros x. rewrite revise_dom_of, decide_True by done.
      rewrite elem_of_difference, elem_of_to_remove. split.
      + intros [Hx Hn]. split; [done|]. intros Hs. apply Hn. by split.
      + intros [Hx Hn]. split; [done|]. by intros [_ ?].
    - intros c Hc. by rewrite revise_dom_of, decide_False.
    - rewrite revise_flag. split.
      + intros (x & Hj & Hi & _)%to_remove_nonempty. by exists x.
      + intros (x & Hi & Hj) He.
        assert (x ∈ to_remove d xi xj) as Hin by by apply elem_of_to_remove.
        rewrite He in Hin. by apply elem_of_empty in Hin.
    - intros Hsize. apply revise_false. apply set_eq. intros y.
      split; [|by intros ?%elem_of_empty].
      intros [_ Hs]%elem_of_to_remove. destruct Hsize.
      rewrite Hs. apply size_singleton. }
  destruct (ac3_returns d) as (b & d' & Hrun & Hsh & Hj & Hpost).
  exists b, d'. split_and!; [done..| |].
  - intros -> xi x Hxi Hx. destruct Hpost as [Hcons Hw]. split.
    + intros Hout. destruct (Hj xi x Hx Hout) as (_ & xj & Hp & Hx0 & Hsub).
      exists xj. split; [done|]. apply set_eq. intros y. split.
      * apply Hsub.
      * intros ->%elem_of_singleton.
        destruct (set_choose_L (dom_of d' xj)) as [w Hw'].
        { apply Hw. intros He. rewrite He in Hx0.
          by apply elem_of_empty in Hx0. }
        pose proof (Hsub w Hw') as ->%elem_of_singleton. done.
    + intros (xj & Hp & Hs) Hin.
      assert (x ∈ to_remove d' xi xj) as Hrm by by apply elem_of_to_remove.
      rewrite (Hcons xi xj Hxi Hp) in Hrm. by apply elem_of_empty in Hrm.
  - destruct b.
    + destruct Hpost as [_ Hw]. split; [done|].
      intros (c & _ & Hc & He). by destruct (Hw c Hc).
    + by split.
Qed.

(** C6, as the code has it: when [ac3] succeeds, a second run on the
    dictionary it left succeeds too and removes no candidate. *)
Theorem ac3_idempotent_after_success d :
  total_on_cells d →
  ∃ b d', ac3 d = Done (b, d') ∧ (b = true → ac3 d' = Done (true, d')).
Proof.
  intros _. destruct (ac3_returns d) as (b & d' & Hrun & _ & _ & Hpost).
  exists b, d'. split; [done|]. intros ->. destruct Hpost as [Hcons _].
  by apply ac3_consistent.
Qed.

(** C8: a revision that reports a change strictly lowers the number of
    candidates; an arc that changes nothing is dropped and appends nothing;
    from a dictionary of candidates 1..9 the loop ends within
    [1620 + 20 * 729] iterations, whatever fuel it is given beyond that, and
    removes at most 729 candidates. *)
Theorem ac3_terminates d :
  total_on_cells d → values_1_9 d →
  (∀ xi xj, xi ∈ cells → (revise d xi xj).1 = true →
     total_size (revise d xi xj).2 < total_size d)
  ∧ (∀ fuel xi xj q, (revise d xi xj).1 = false →
       ac3_loop (S fuel) d ((xi, xj) :: q) = ac3_loop fuel d q)
  ∧ ∃ b d', ac3 d = Done (b, d')
      ∧ (∀ fuel, 1620 + 20 * 729 ≤ fuel →
           ac3_loop fuel d all_arcs = Done (b, d'))
      ∧ total_size d' ≤ total_size d ∧ total_size d - total_size d' ≤ 729.
Proof.
  intros _ Hvals. split_and!.
  - intros xi xj Hxi Hflag%revise_flag. rewrite revise_true by done.
    by apply total_size_prune.
  - intros fuel xi xj q Hflag. apply ac3_loop_skip.
    destruct (decide (to_remove d xi xj = ∅)) as [|Hne]; [done|].
    apply revise_flag in Hne. congruence.
  - destruct (ac3_returns d) as (b & d' & Hrun & Hsh & _).
    pose proof (total_size_le d Hvals) as Hle.
    exists b, d'. split_and!; [done| | |].
    + intros fuel Hfuel. eapply ac3_loop_fuel_mono; [|exact Hrun].
      unfold ac3_fuel. rewrite length_all_arcs. lia.
    + by apply total_size_mono.
    + lia.
Qed.

End Claims_ac3.

Section Claims_backtrack.
Context {O : SetOrder}.

Lemma first_result_mono {A} (body body' : Z → outcome (option A)) values r :
  (∀ v r', v ∈ values → body v = Done r' → body' v = Done r') →
  first_result body values = Done r → first_result body' values = Done r.
Proof.
  induction values as [|v values IH]; intros Hb; [done|]. cbn [first_result].
  destruct (body v) as [|[r'|]] eqn:Hv; [done| |].
  - rewrite (Hb v (Some r')); [done|apply list_elem_of_here|done].
  - rewrite (Hb v None); [|apply list_elem_of_here|done].
    apply IH. intros w r' Hw. apply Hb. by apply list_elem_of_further.
Qed.

(** Allowing deeper recursion does not change a result. *)
Lemma backtrack_depth_mono depth depth' d r :
  depth ≤ depth' → backtrack depth d = Done r → backtrack depth' d = Done r.
Proof.
  revert depth' d r. induction depth as [|depth IH]; intros depth' d r Hle;
    rewrite !(backtrack_unfold _ d);
    (destruct (is_solved d); [done|]);
    (destruct (select_unassigned_variable d) as [var|]; [|done]);
    apply first_result_mono; intros v r' _;
    (destruct (assign_and_propagate var v d) as [|[nd|]]; [done| |done]).
  - done.
  - destruct depth' as [|depth']; [lia|]. apply IH. lia.
Qed.

(** C9: [backtrack] returns when it may nest 81 calls, and already when
    it may nest as many calls as there are cells with two candidates or
    more; the result does not depend on the allowance.  A recursive call
    receives a dictionary in which the selected variable holds exactly the
    tried value, no domain has grown, and fewer cells are open. *)
Theorem backtrack_depth_at_most_81 d :
  total_on_cells d →
  count_open d ≤ 81
  ∧ (∃ r, ∀ depth, count_open d ≤ depth → backtrack depth d = Done r)
  ∧ (∃ r, backtrack 81 d = Done r)
  ∧ ∀ var value new_domains,
      select_unassigned_variable d = Some var →
      value ∈ order_domain_values var d →
      assign_and_propagate var value d = Done (Some new_domains) →
      dom_of new_domains var = {[value]} ∧ shrinks new_domains d
      ∧ count_open new_domains < count_open d.
Proof.
  intros _. pose proof (count_open_le_81 d) as H81. split_and!; [done| | |].
  - destruct (backtrack_returns (count_open d) d) as [r Hr]; [done|].
    exists r. intros depth Hdepth. by eapply backtrack_depth_mono.
  - by apply backtrack_returns.
  - intros var value nd [Hvar Hsize]%select_unassigned_variable_Some Hval Hrun.
    destruct (assign_and_propagate_spec var value d Hvar) as (r & Hr & Hspec).
    rewrite Hrun in Hr. injection Hr as <-.
    destruct (Hspec nd eq_refl) as (Hv & _ & Hsub & _).
    split_and!; [done| |].
    + intros c. destruct (decide (c = var)) as [->|Hne]; [|by apply Hsub].
      rewrite Hv. apply elem_of_order_domain_values in Hval.
      by apply singleton_subseteq_l.
    + apply (count_open_assign d nd var); [done..| |done].
      by rewrite Hv, size_singleton.
Qed.

End Claims_backtrack.

(** ** The run on two equal clues in a row

    Whatever the iteration order, [ac3] fails on the dictionary built from
    [two_fives] as soon as it reaches the arc between the two clues, and
    succeeds on the dictionary that this failure leaves behind. *)

Lemma initial_domain_order (O1 O2 : SetOrder) g rc :
  initial_domain (O := O1) g rc = initial_domain (O := O2) g rc.
Proof.
  unfold initial_domain. case_decide; [done|]. f_equal.
  apply set_eq. intros v. rewrite !elem_of_list_to_set, !list_elem_of_filter.
  split; intros [Hv (p & -> & Hp)%list_elem_of_fmap]; (split; [done|]);
    apply list_elem_of_fmap; exists p; (split; [done|]);
    apply elem_of_iter_peers; by apply elem_of_iter_peers in Hp.
Qed.

Lemma initialize_domains_order (O1 O2 : SetOrder) g d0 :
  initialize_domains (O := O1) g d0 = initialize_domains (O := O2) g d0.
Proof.
  unfold initialize_domains. revert d0.
  induction cells as [|c l IH]; intros d0; [done|]. cbn [foldl].
  by rewrite IH, (initial_domain_order O1 O2).
Qed.

Section Two_fives.
Context {O : SetOrder}.

Lemma ac3_loop_skip_prefix fuel d pre q :
  Forall (λ a, to_remove d a.1 a.2 = ∅) pre →
  ac3_loop (length pre + fuel) d (pre ++ q) = ac3_loop fuel d q.
Proof.
  induction 1 as [|[xi xj] pre Ha _ IH]; [done|].
  cbn [length app Nat.add]. by rewrite ac3_loop_skip.
Qed.

Lemma ac3_two_fives :
  ac3 two_fives_domains = Done (false, <[(0, 0) := ∅]> two_fives_domains)
  ∧ ac3 (<[(0, 0) := ∅]> two_fives_domains)
    = Done (true, <[(0, 0) := ∅]> two_fives_domains).
Proof.
  split.
  - assert ((0, 1) ∈ iter_peers (0, 0)) as Hin.
    { apply elem_of_iter_peers. apply (bool_decide_unpack _).
      vm_compute. exact I. }
    apply list_elem_of_split_l in Hin as (l1 & l2 & Heq & Hl1).
    assert (all_arcs
            = map (λ xj, ((0, 0), xj)) l1
              ++ ((0, 0), (0, 1)) :: map (λ xj, ((0, 0), xj)) l2
              ++ flat_map (λ xi, map (λ xj, (xi, xj)) (iter_peers xi))
                   (tail cells)) as Harcs.
    { unfold all_arcs. change cells with ((0, 0) :: tail cells) at 1.
      cbn [flat_map]. rewrite Heq, map_app. cbn [map].
      by rewrite <- app_assoc. }
    unfold ac3.
    eapply (ac3_loop_fuel_mono (length (map (λ xj, ((0, 0), xj)) l1) + 1)).
    { unfold ac3_fuel. rewrite Harcs, length_app. cbn [length]. lia. }
    rewrite Harcs, ac3_loop_skip_prefix.
    + assert (prune two_fives_domains (0, 0) (0, 1)
              = <[(0, 0) := ∅]> two_fives_domains) as <-.
      { apply (bool_decide_unpack _). vm_compute. exact I. }
      apply ac3_loop_wipeout; apply (bool_decide_unpack _); vm_compute;
        exact I.
    + apply Forall_map, Forall_forall. intros xj Hxj. cbn [fst snd].
      assert (set_Forall
                (λ xj, xj ≠ (0, 1) →
                       to_remove two_fives_domains (0, 0) xj = ∅)
                (peers (0, 0))) as Hall.
      { apply (bool_decide_unpack _). vm_compute. exact I. }
      apply Hall.
      * apply elem_of_iter_peers. rewrite Heq. apply elem_of_app. by left.
      * by intros ->.
  - apply ac3_consistent, arc_consistent_check.
    apply (bool_decide_unpack _). vm_compute. exact I.
Qed.

End Two_fives.

(** C6, counterexample: on the dictionary built from a grid with two 5s in
    its first row, [ac3] fails; run again on the dictionary it left, it
    succeeds: the two runs do not give the same result. *)
Lemma ac3_is_not_idempotent_after_failure :
  ac3 (O := elements_order) two_fives_domains
  = Done (false, <[(0, 0) := ∅]> two_fives_domains)
  ∧ ac3 (O := elements_order) (<[(0, 0) := ∅]> two_fives_domains)
    = Done (true, <[(0, 0) := ∅]> two_fives_domains).
Proof. apply ac3_two_fives. Qed.

(** ** The heuristics do not depend on the iteration order *)

Lemma count_le_spec a b :
  count_le a b ↔ a.1 < b.1 ∨ (a.1 = b.1 ∧ (a.2 ≤ b.2)%Z).
Proof.
  unfold count_le, count_leb.
  rewrite orb_True, andb_True, !Is_true_true.
  rewrite Nat.ltb_lt, Nat.eqb_eq, Z.leb_le. tauto.
Qed.

Lemma count_le_trans : Transitive count_le.
Proof. intros a b c. rewrite !count_le_spec. lia. Qed.

Lemma count_le_total : Total count_le.
Proof. intros a b. rewrite !count_le_spec. lia. Qed.

Lemma count_le_antisymm : AntiSymm (=) count_le.
Proof.
  intros [a1 a2] [b1 b2]. rewrite !count_le_spec. cbn [fst snd].
  intros H1 H2. f_equal; lia.
Qed.

(** [order_domain_values] sorts pairs that are pairwise distinct, so the
    order in which it met the values and the peers is forgotten. *)
Lemma order_domain_values_order (O1 O2 : SetOrder) var d :
  order_domain_values (O := O1) var d = order_domain_values (O := O2) var d.
Proof.
  unfold order_domain_values. f_equal.
  apply (@Sorted_unique _ count_le count_le_trans count_le_antisymm);
    [apply (@Sorted_merge_sort _ count_le _ count_le_total)..|].
  rewrite !merge_sort_Permutation.
  etrans; [apply fmap_Permutation, (iter_values_perm (SetOrder := O1))|].
  etrans; [|symmetry; apply fmap_Permutation, (iter_values_perm (SetOrder := O2))].
  assert (∀ l : list Z,
            map (λ val, (length (filter (λ p, val ∈ dom_of d p)
                                   (iter_peers (SetOrder := O1) var)), val)) l
            = map (λ val, (length (filter (λ p, val ∈ dom_of d p)
                                     (iter_peers (SetOrder := O2) var)), val)) l)
    as ->; [|done].
  intros l. apply map_ext. intros val. f_equal.
  apply Permutation_length. apply filter_Permutation.
  by rewrite (iter_peers_perm (SetOrder := O1)), (iter_peers_perm (SetOrder := O2)).
Qed.

(** ** The result of [ac3] does not depend on the iteration order *)

Lemma dom_of_nonempty_is_Some (d : assignment) c :
  dom_of d c ≠ ∅ → is_Some (d !! c).
Proof.
  unfold dom_of. rewrite lookup_total_alt.
  destruct (d !! c); [by eexists|]. by intros [].
Qed.

Lemma dom_of_ext (d1 d2 : assignment) :
  same_keys d1 d2 → (∀ c, dom_of d1 c = dom_of d2 c) → d1 = d2.
Proof.
  intros Hk Hd. apply map_eq. intros c. specialize (Hk c). specialize (Hd c).
  unfold dom_of in Hd. rewrite !lookup_total_alt in Hd.
  destruct (d1 !! c) as [s1|], (d2 !! c) as [s2|]; cbn in Hd.
  - by subst.
  - by destruct (proj1 Hk eq_refl).
  - by destruct (proj2 Hk eq_refl).
  - done.
Qed.

Lemma same_keys_prune d xi xj :
  to_remove d xi xj ≠ ∅ → same_keys d (prune d xi xj).
Proof.
  intros Hne c. unfold prune. destruct (decide (xi = c)) as [<-|Hc].
  - rewrite lookup_insert_eq.
    destruct (dom_of_nonempty_is_Some d xi) as [s Hs].
    { apply set_choose_L in Hne as [x Hx%to_remove_subseteq].
      intros He. rewrite He in Hx. by apply elem_of_empty in Hx. }
    rewrite Hs. done.
  - by rewrite lookup_insert_ne.
Qed.

Section Confluence.
Context {O : SetOrder}.

Lemma ac3_loop_same_keys d0 fuel d q b d' :
  same_keys d0 d → ac3_loop fuel d q = Done (b, d') → same_keys d0 d'.
Proof.
  apply (ac3_loop_invariant (λ d _, same_keys d0 d) (λ _ d', same_keys d0 d')).
  - done.
  - done.
  - intros d1 xi xj q1 Hk Hne _ c.
    rewrite (same_keys_prune d1 xi xj Hne c). apply Hk.
  - intros d1 xi xj q1 Hk Hne _ c.
    rewrite (same_keys_prune d1 xi xj Hne c). apply Hk.
Qed.

(** A successful run bounds every other run from below: no run removes a
    candidate that the successful one kept, so no run fails. *)
Lemma ac3_loop_above_success d0 d1 fuel d q b d' :
  ac3_post d0 true d1 →
  arcs_wf q → shrinks d d0 → shrinks d1 d →
  ac3_loop fuel d q = Done (b, d') → b = true ∧ shrinks d1 d'.
Proof.
  intros (Hsh1 & _ & Hcons1 & Hw1) Hwf Hsh Hlow.
  assert (∀ d xi xj, xi ∈ cells → xj ∈ peers xi → shrinks d d0 →
            shrinks d1 d → to_remove d xi xj ≠ ∅ →
            dom_of d1 xi ⊆ dom_of d xi ∖ to_remove d xi xj) as Hkeep.
  { intros d2 xi xj Hxi Hxj Hsh2 Hlow2 (x & Hj & Hi & Hrm)%to_remove_nonempty.
    rewrite Hrm. intros y Hy. apply elem_of_difference. split; [by apply Hlow2|].
    intros ->%elem_of_singleton.
    assert (dom_of d1 xj = {[x]}) as Hj1.
    { apply set_eq. intros z. split.
      - intros Hz. rewrite <- Hj. by apply Hlow2.
      - intros ->%elem_of_singleton.
        destruct (set_choose_L (dom_of d1 xj)) as [w Hw].
        { apply Hw1. intros He.
          assert (x ∈ dom_of d0 xj) as Hx0.
          { apply Hsh2. rewrite Hj. by apply elem_of_singleton. }
          rewrite He in Hx0. by apply elem_of_empty in Hx0. }
        pose proof (Hlow2 xj w Hw) as Hw'. rewrite Hj in Hw'.
        by apply elem_of_singleton in Hw' as <-. }
    assert (x ∈ to_remove d1 xi xj) as Hin by by apply elem_of_to_remove.
    rewrite (Hcons1 xi xj Hxi Hxj) in Hin. by apply elem_of_empty in Hin. }
  intros Hrun.
  apply (ac3_loop_invariant
           (λ d q, arcs_wf q ∧ shrinks d d0 ∧ shrinks d1 d)
           (λ b d', b = true ∧ shrinks d1 d') ) with (fuel := fuel) (d := d)
           (q := q); [| | | |done|done].
  - by intros d2 (_ & _ & ?).
  - intros d2 xi xj q2 (Hwf2 & ? & ?) _.
    by apply Forall_cons in Hwf2 as [_ ?].
  - intros d2 xi xj q2 (Hwf2 & Hsh2 & Hlow2) Hne Hwipe. exfalso.
    apply Forall_cons in Hwf2 as [[Hxi Hxj] _]. cbn [fst snd] in *.
    pose proof (Hkeep d2 xi xj Hxi Hxj Hsh2 Hlow2 Hne) as Hsub.
    rewrite Hwipe in Hsub.
    apply set_choose_L in Hne as [x Hx%to_remove_subseteq].
    destruct (set_choose_L (dom_of d1 xi)) as [w Hw].
    { apply Hw1. intros He. apply Hsh2 in Hx. rewrite He in Hx.
      by apply elem_of_empty in Hx. }
    apply Hsub in Hw. by apply elem_of_empty in Hw.
  - intros d2 xi xj q2 (Hwf2 & Hsh2 & Hlow2) Hne _.
    apply Forall_cons in Hwf2 as [[Hxi Hxj] Hwf2]. cbn [fst snd] in *.
    split_and!.
    + apply Forall_app. split; [done|]. by apply arcs_wf_requeue.
    + eapply shrinks_trans; [apply shrinks_prune|done].
    + intros c. rewrite dom_of_prune. case_decide; [subst c|by apply Hlow2].
      by apply Hkeep.
Qed.

End Confluence.

(** Two iteration orders give the same flag, and the same dictionary when
    the flag is [True]. *)
Lemma ac3_order (O1 O2 : SetOrder) d :
  ∃ b d1 d2, ac3 (O := O1) d = Done (b, d1) ∧ ac3 (O := O2) d = Done (b, d2)
             ∧ (b = true → d1 = d2).
Proof.
  destruct (ac3_returns (O := O1) d) as (b1 & d1 & Hrun1 & Hpost1).
  destruct (ac3_returns (O := O2) d) as (b2 & d2 & Hrun2 & Hpost2).
  assert (∀ (Oa Ob : SetOrder) da db ba,
            ac3 (O := Oa) d = Done (true, da) → ac3_post d true da →
            ac3 (O := Ob) d = Done (ba, db) →
            ba = true ∧ shrinks da db) as Habove.
  { intros Oa Ob da db ba _ Hposta Hrunb.
    eapply (ac3_loop_above_success (O := Ob) d da); [done| | | |exact Hrunb].
    - apply arcs_wf_all_arcs.
    - apply shrinks_refl.
    - by destruct Hposta. }
  destruct b1, b2.
  - exists true, d1, d2. split_and!; [done..|]. intros _.
    destruct (Habove O1 O2 d1 d2 true Hrun1 Hpost1 Hrun2) as [_ H12].
    destruct (Habove O2 O1 d2 d1 true Hrun2 Hpost2 Hrun1) as [_ H21].
    apply dom_of_ext.
    + pose proof (ac3_loop_same_keys (O := O1) d _ _ _ _ _
                    (λ _, reflexivity _) Hrun1) as K1.
      pose proof (ac3_loop_same_keys (O := O2) d _ _ _ _ _
                    (λ _, reflexivity _) Hrun2) as K2.
      intros c. by rewrite (K1 c), (K2 c).
    + intros c. apply set_eq. intros x. split; [apply H12|apply H21].
  - by destruct (Habove O1 O2 d1 d2 false Hrun1 Hpost1 Hrun2).
  - by destruct (Habove O2 O1 d2 d1 false Hrun2 Hpost2 Hrun1).
  - exists false, d1, d2. by split_and!.
Qed.

(** ** The search does not depend on the iteration order *)

Lemma forward_check_same_keys value ps d d' :
  forward_check value ps d = Some d' → same_keys d d'.
Proof.
  revert d. induction ps as [|p ps IH]; intros d Hfc; cbn in Hfc.
  { by injection Hfc as <-. }
  destruct (decide (value ∈ dom_of d p)) as [Hin|]; [|by apply IH].
  destruct (decide (dom_of _ p = ∅)); [done|].
  apply IH in Hfc. intros c. rewrite (Hfc c).
  destruct (decide (p = c)) as [<-|Hne]; [|by rewrite lookup_insert_ne].
  rewrite lookup_insert_eq.
  destruct (dom_of_nonempty_is_Some d p) as [s ->]; [|done].
  intros He. rewrite He in Hin. by apply elem_of_empty in Hin.
Qed.

Lemma forward_check_None value ps d :
  forward_check value ps d = None ↔ ∃ p, p ∈ ps ∧ dom_of d p = {[value]}.
Proof.
  revert d. induction ps as [|p ps IH]; intros d; cbn [forward_check].
  { split; [done|]. by intros (p & ?%elem_of_nil & _). }
  destruct (decide (value ∈ dom_of d p)) as [Hin|Hout].
  - rewrite dom_of_insert_eq.
    destruct (decide (dom_of d p ∖ {[value]} = ∅)) as [He|Hne].
    + split; [intros _|done]. exists p. split; [apply list_elem_of_here|].
      apply set_eq. intros y. rewrite elem_of_singleton. split.
      * intros Hy. destruct (decide (y = value)) as [|Hyv]; [done|].
        assert (y ∈ dom_of d p ∖ {[value]}) as Hy'.
        { apply elem_of_difference. split; [done|].
          by intros ?%elem_of_singleton. }
        rewrite He in Hy'. by apply elem_of_empty in Hy'.
      * by intros ->.
    + rewrite IH. split.
      * intros (q & Hq & Hs). exists q. split; [by apply list_elem_of_further|].
        rewrite dom_of_insert in Hs. case_decide; [subst q|done].
        assert (value ∈ dom_of d p ∖ {[value]}) as [_ Hn]%elem_of_difference.
        { rewrite Hs. by apply elem_of_singleton. }
        destruct Hn. by apply elem_of_singleton.
      * intros (q & [->|Hq]%elem_of_cons & Hs).
        -- destruct Hne. rewrite Hs. apply set_eq. intros y.
           rewrite elem_of_difference. split; [tauto|by intros ?%elem_of_empty].
        -- exists q. split; [done|]. rewrite dom_of_insert_ne; [done|].
           intros ->. destruct Hne. rewrite Hs. apply set_eq. intros y.
           rewrite elem_of_difference. split; [tauto|by intros ?%elem_of_empty].
  - rewrite IH. split.
    + intros (q & Hq & Hs). exists q. by split; [apply list_elem_of_further|].
    + intros (q & [->|Hq]%elem_of_cons & Hs); [|by exists q].
      destruct Hout. rewrite Hs. by apply elem_of_singleton.
Qed.

Lemma forward_check_order value (ps1 ps2 : list cell) d :
  (∀ p, p ∈ ps1 ↔ p ∈ ps2) →
  forward_check value ps1 d = forward_check value ps2 d.
Proof.
  intros Hps.
  destruct (forward_check value ps1 d) as [d1|] eqn:H1,
           (forward_check value ps2 d) as [d2|] eqn:H2.
  - f_equal. apply dom_of_ext.
    + intros c. rewrite (forward_check_same_keys _ _ _ _ H1 c).
      by rewrite (forward_check_same_keys _ _ _ _ H2 c).
    + intros c. apply forward_check_spec in H1 as [_ ->].
      apply forward_check_spec in H2 as [_ ->].
      destruct (decide (c ∈ ps1)) as [Hc|Hc].
      * by rewrite decide_True by by apply Hps.
      * rewrite decide_False; [done|]. by rewrite <- Hps.
  - apply forward_check_None in H2 as (p & Hp & Hs).
    assert (forward_check value ps1 d = None) as Hn; [|congruence].
    apply forward_check_None. exists p. by rewrite Hps.
  - apply forward_check_None in H1 as (p & Hp & Hs).
    assert (forward_check value ps2 d = None) as Hn; [|congruence].
    apply forward_check_None. exists p. by rewrite <- Hps.
  - done.
Qed.

Lemma assign_and_propagate_order (O1 O2 : SetOrder) var value d :
  assign_and_propagate (O := O1) var value d
  = assign_and_propagate (O := O2) var value d.
Proof.
  unfold assign_and_propagate. cbv zeta.
  rewrite (forward_check_order value (iter_peers (SetOrder := O1) var)
             (iter_peers (SetOrder := O2) var)).
  2:{ intros p. by rewrite !elem_of_iter_peers. }
  destruct (forward_check _ _ _) as [nd|]; [|done].
  destruct (ac3_order O1 O2 nd) as (b & d1 & d2 & -> & -> & Heq).
  destruct b; [|done]. by rewrite Heq.
Qed.

Lemma first_result_ext {A} (body1 body2 : Z → outcome (option A)) values :
  (∀ v, body1 v = body2 v) →
  first_result body1 values = first_result body2 values.
Proof.
  intros Hb. induction values as [|v values IH]; [done|].
  cbn [first_result]. by rewrite Hb, IH.
Qed.

Lemma backtrack_order (O1 O2 : SetOrder) depth d :
  backtrack (O := O1) depth d = backtrack (O := O2) depth d.
Proof.
  revert d. induction depth as [|depth IH]; intros d;
    rewrite !backtrack_unfold;
    (destruct (is_solved d); [done|]);
    (destruct (select_unassigned_variable d) as [var|]; [|done]);
    rewrite (order_domain_values_order O1 O2);
    apply first_result_ext; intros v;
    rewrite (assign_and_propagate_order O1 O2);
    destruct (assign_and_propagate _ _ _) as [|[nd|]]; done.
Qed.

Lemma next_iter_order (O1 O2 : SetOrder) (vals : gset Z) :
  size vals = 1 → next_iter (O := O1) vals = next_iter (O := O2) vals.
Proof.
  intros [v ->%leibniz_equiv]%size_1_elem_of.
  by rewrite !next_iter_singleton.
Qed.

Lemma solved_grid_order (O1 O2 : SetOrder) sol :
  solved_grid (O := O1) sol = solved_grid (O := O2) sol.
Proof.
  unfold solved_grid. generalize (replicate 9 (replicate 9 0%Z)).
  induction cells as [|rc l IH]; intros g; [done|]. cbn [foldl].
  rewrite IH. do 2 f_equal. case_decide; [|done].
  by apply next_iter_order.
Qed.

(** Determinism: the solver built from a grid, and what [solve] returns,
    are the same for every iteration order of the sets. *)
Theorem solve_order (O1 O2 : SetOrder) (g : list (list Z)) :
  new_SudokuCSP (O := O1) g = new_SudokuCSP (O := O2) g
  ∧ ∀ self, solve (O := O1) self = solve (O := O2) self.
Proof.
  split.
  - unfold new_SudokuCSP. by rewrite (initialize_domains_order O1 O2).
  - intros self. unfold solve.
    destruct (ac3_order O1 O2 (domains self)) as (b & d1 & d2 & -> & -> & Heq).
    destruct b; [|done]. rewrite Heq by done.
    rewrite (backtrack_order O1 O2).
    destruct (backtrack 81 d2) as [|[sol|]]; [done| |done].
    by rewrite (solved_grid_order O1 O2).
Qed.

(** ** Frame properties in the store *)

Lemma prefix_insert_ge {A} (l0 l : list A) i x :
  l0 `prefix_of` l → length l0 ≤ i → l0 `prefix_of` <[i := x]> l.
Proof.
  intros [k ->] Hi. rewrite insert_app_r_alt by done. by eexists.
Qed.

Lemma prefix_alter_ge {A} (f : A → A) (l0 l : list A) i :
  l0 `prefix_of` l → length l0 ≤ i → l0 `prefix_of` alter f i l.
Proof.
  intros [k ->] Hi. rewrite alter_app_r_alt by done. by eexists.
Qed.

Lemma sum_list_with_insert_lt {A} (f : A → nat) (l : list A) i x y :
  l !! i = Some y → f x < f y →
  sum_list_with f (<[i := x]> l) < sum_list_with f l.
Proof.
  revert i. induction l as [|z l IH]; intros [|i] Hi Hlt; try done.
  - injection Hi as ->. simpl. lia.
  - simpl. specialize (IH i Hi Hlt). simpl in IH. lia.
Qed.

Section Store_facts.
Context {O : SetOrder}.
Import Store.

Lemma preserved_refl h : preserved h h.
Proof. by split. Qed.

Lemma preserved_trans h1 h2 h3 :
  preserved h1 h2 → preserved h2 h3 → preserved h1 h3.
Proof. intros [? ?] [? ?]. split; by etrans. Qed.

Lemma preserved_new_set h0 h s :
  preserved h0 h → preserved h0 (new_set s h).2.
Proof. intros [Hs Hd]. split; [by apply prefix_app_r|done]. Qed.

Lemma preserved_new_dict h0 h m :
  preserved h0 h → preserved h0 (new_dict m h).2.
Proof. intros [Hs Hd]. split; [done|by apply prefix_app_r]. Qed.

Lemma preserved_dict_bind h0 h nd c a :
  preserved h0 h → length (dicts h0) ≤ nd →
  preserved h0 (dict_bind nd c a h).
Proof. intros [Hs Hd] Hnd. split; [done|by apply prefix_alter_ge]. Qed.

Lemma preserved_set_update h0 h a s :
  preserved h0 h → length (sets h0) ≤ a → preserved h0 (set_update a s h).
Proof. intros [Hs Hd] Ha. split; [by apply prefix_insert_ge|done]. Qed.

Lemma dict_at_dict_bind h nd c a :
  dict_at (dict_bind nd c a h) nd
  = if decide (nd < length (dicts h)) then <[c := a]> (dict_at h nd)
    else dict_at h nd.
Proof.
  unfold dict_at, dict_bind. cbn [dicts].
  rewrite list_lookup_total_alter. case_decide as H1.
  - by rewrite decide_True by by destruct H1.
  - rewrite decide_False; [done|]. intros ?. by apply H1.
Qed.

Lemma private_dict_bind h0 h nd c a :
  private h0 h nd → length (sets h0) ≤ a →
  private h0 (dict_bind nd c a h) nd.
Proof.
  intros [Hnd Hall] Ha. split; [done|]. rewrite dict_at_dict_bind.
  case_decide; [|done]. by apply map_Forall_insert_2.
Qed.

Lemma private_new_set h0 h nd s :
  private h0 h nd → private h0 (new_set s h).2 nd.
Proof. done. Qed.

(** *** [revise] and [ac3] only touch the sets of their dictionary *)

Lemma value_of_lookup h d c a :
  dict_at h d !! c = Some a → dom_of (value_of h d) c = set_at h a.
Proof.
  intros Hc. unfold dom_of, value_of.
  by rewrite lookup_total_alt, lookup_fmap, Hc.
Qed.

Lemma revise_frame d xi xj h b h' :
  Store.revise d xi xj h = (b, h') →
  dicts h' = dicts h
  ∧ (if b then store_size h' < store_size h else h' = h)
  ∧ ∀ h0, preserved h0 h → private h0 h d → preserved h0 h'.
Proof.
  unfold Store.revise.
  destruct (decide (to_remove (value_of h d) xi xj = ∅)) as [He|Hne].
  { by intros [= <- <-]. }
  destruct (dict_at h d !! xi) as [a|] eqn:Ha; [|by intros [= <- <-]].
  intros [= <- <-]. split_and!; [done| |].
  - apply set_choose_L in Hne as [x Hx].
    pose proof (to_remove_subseteq _ _ _ _ Hx) as Hx'.
    rewrite (value_of_lookup h d xi a Ha) in Hx'.
    unfold store_size, set_update. cbn [sets].
    destruct (sets h !! a) as [s|] eqn:Hs.
    + assert (set_at h a = s) as Hsa.
      { unfold set_at. by rewrite list_lookup_total_alt, Hs. }
      apply (sum_list_with_insert_lt size _ _ _ s); [done|].
      rewrite Hsa in *. apply subset_size. split.
      * by intros y [? _]%elem_of_difference.
      * intros Hsub. by apply Hsub, elem_of_difference in Hx' as [_ ?].
    + unfold set_at in Hx'. rewrite list_lookup_total_alt, Hs in Hx'.
      by apply elem_of_empty in Hx'.
  - intros h0 Hp [_ Hall]. apply preserved_set_update; [done|].
    by apply (Hall xi a).
Qed.

Lemma ac3_loop_frame fuel d h q b h' :
  Store.ac3_loop fuel d h q = Done (b, h') →
  dicts h' = dicts h
  ∧ ∀ h0, preserved h0 h → private h0 h d → preserved h0 h'.
Proof.
  revert h q. induction fuel as [|fuel IH]; intros h q Hrun.
  { destruct q as [|[xi xj] q]; [|done]. by injection Hrun as <- <-. }
  destruct q as [|[xi xj] q]; [by injection Hrun as <- <-|].
  cbn [Store.ac3_loop] in Hrun.
  destruct (Store.revise d xi xj h) as [revised h1] eqn:Hrev.
  apply revise_frame in Hrev as (Hd1 & _ & Hp1).
  assert (∀ h0, private h0 h d → private h0 h1 d) as Hpriv.
  { intros h0. unfold private, dict_at. by rewrite Hd1. }
  destruct revised.
  - destruct (decide (dom_of (value_of h1 d) xi = ∅)).
    + injection Hrun as <- <-. by split.
    + apply IH in Hrun as [Hd' Hp']. split; [congruence|]. eauto.
  - apply IH in Hrun as [Hd' Hp']. split; [congruence|]. eauto.
Qed.

Lemma ac3_loop_returns fuel d h q :
  arcs_wf q → length q + 20 * store_size h ≤ fuel →
  ∃ b h', Store.ac3_loop fuel d h q = Done (b, h').
Proof.
  revert h q. induction fuel as [|fuel IH]; intros h q Hwf Hfuel.
  { destruct q; [|simpl in Hfuel; lia]. by eexists _, _. }
  destruct q as [|[xi xj] q]; [by eexists _, _|].
  apply Forall_cons in Hwf as [[Hxi Hxj] Hwf]. cbn [Store.ac3_loop].
  destruct (Store.revise d xi xj h) as [revised h1] eqn:Hrev.
  apply revise_frame in Hrev as (_ & Hsize & _). simpl in Hfuel.
  destruct revised.
  - case_decide; [by eexists _, _|]. apply IH.
    + apply Forall_app. split; [done|]. by apply arcs_wf_requeue.
    + rewrite length_app, length_map.
      pose proof (length_iter_peers_except xi xj Hxi). lia.
  - subst h1. apply IH; [done|lia].
Qed.

(** *** [deepcopy] allocates every object it returns *)

Lemma deepcopy_frame d h nd h' :
  deepcopy d h = (nd, h') → preserved h h' ∧ private h h' nd.
Proof.
  unfold deepcopy.
  assert (∀ items memo y h1,
            sets h `prefix_of` sets h1 → dicts h1 = dicts h →
            map_Forall (λ _ a, length (sets h) ≤ a) y →
            map_Forall (λ _ a, length (sets h) ≤ a) memo →
            ∀ memo' y' h2, foldl copy_item (memo, y, h1) items
                           = (memo', y', h2) →
            sets h `prefix_of` sets h2 ∧ dicts h2 = dicts h
            ∧ map_Forall (λ (_ : cell) a, length (sets h) ≤ a) y') as Hfold.
  { induction items as [|[key a] items IH];
      intros memo y h1 Hs Hd Hy Hmemo memo' y' h2 Hrun.
    { by injection Hrun as <- <- <-. }
    cbn [foldl copy_item] in Hrun.
    destruct (memo !! a) as [a'|] eqn:Ha.
    - eapply IH; [..|exact Hrun]; [done..| |done].
      apply map_Forall_insert_2; [|done]. by apply (Hmemo a a').
    - cbn [new_set] in Hrun. pose proof (prefix_length _ _ Hs).
      eapply IH; [..|exact Hrun].
      + by apply prefix_app_r.
      + done.
      + by apply map_Forall_insert_2.
      + by apply map_Forall_insert_2. }
  destruct (foldl copy_item (∅, ∅, h) (map_to_list (dict_at h d)))
    as [[memo y] h1] eqn:Hrun.
  apply Hfold in Hrun as (Hs & Hd & Hy);
    [|done|done|apply map_Forall_empty..].
  intros [= <- <-]. split.
  - split; [done|]. cbn [new_dict snd dicts]. rewrite Hd. by apply prefix_app_r.
  - split; [cbn [fst]; by rewrite Hd|].
    unfold dict_at. cbn [new_dict fst snd dicts].
    by rewrite list_lookup_total_middle.
Qed.

Lemma forward_check_frame h0 value nd ps h b h' :
  preserved h0 h → private h0 h nd →
  Store.forward_check value nd ps h = (b, h') →
  preserved h0 h' ∧ private h0 h' nd.
Proof.
  revert h. induction ps as [|p ps IH]; intros h Hp Hpriv Hrun.
  { by injection Hrun as <- <-. }
  cbn [Store.forward_check] in Hrun.
  destruct (decide (value ∈ dom_of (value_of h nd) p)); [|by eapply IH].
  cbn [new_set] in Hrun.
  set (h1 := {| sets := sets h ++ [dom_of (value_of h nd) p ∖ {[value]}];
                dicts := dicts h |}) in *.
  assert (preserved h0 (dict_bind nd p (length (sets h)) h1)
          ∧ private h0 (dict_bind nd p (length (sets h)) h1) nd)
    as [Hp2 Hpriv2].
  { split.
    - apply preserved_dict_bind; [|by destruct Hpriv].
      by apply (preserved_new_set h0 h).
    - apply private_dict_bind; [done|].
      destruct Hp as [Hs _]. by apply prefix_length. }
  destruct (decide (dom_of (value_of _ nd) p = ∅)).
  - by injection Hrun as <- <-.
  - by eapply IH.
Qed.

(** [assign_and_propagate] returns and leaves every object of the
    caller's store as it was. *)
Lemma assign_and_propagate_frame var value d h :
  ∃ r h', Store.assign_and_propagate var value d h = Done (r, h')
          ∧ preserved h h'.
Proof.
  unfold Store.assign_and_propagate.
  destruct (deepcopy d h) as [nd h1] eqn:Hcopy.
  apply deepcopy_frame in Hcopy as [Hp1 Hpriv1].
  cbn [new_set].
  set (h2 := {| sets := sets h1 ++ [{[value]}]; dicts := dicts h1 |}).
  assert (preserved h (dict_bind nd var (length (sets h1)) h2)
          ∧ private h (dict_bind nd var (length (sets h1)) h2) nd)
    as [Hp3 Hpriv3].
  { split.
    - apply preserved_dict_bind; [|by destruct Hpriv1].
      by apply (preserved_new_set h h1).
    - apply private_dict_bind; [done|].
      destruct Hp1 as [Hs _]. by apply prefix_length. }
  destruct (Store.forward_check _ _ _ _) as [b h4] eqn:Hfc.
  apply (forward_check_frame h) in Hfc as [Hp4 Hpriv4]; [|done..].
  destruct b; [|by eexists _, _].
  destruct (ac3_loop_returns (length all_arcs + 20 * store_size h4) nd h4
              all_arcs) as (b & h5 & Hrun);
    [apply arcs_wf_all_arcs|done|].
  unfold Store.ac3. rewrite Hrun.
  apply ac3_loop_frame in Hrun as [_ Hp5].
  destruct b; eexists _, _; (split; [done|]); by apply Hp5.
Qed.

Lemma first_result_frame body values h r h' :
  (∀ v h1 r1 h2, body v h1 = Done (r1, h2) → preserved h1 h2) →
  Store.first_result body values h = Done (r, h') → preserved h h'.
Proof.
  intros Hbody. revert h.
  induction values as [|v values IH]; intros h Hrun; cbn in Hrun.
  { injection Hrun as <- <-. apply preserved_refl. }
  destruct (body v h) as [|[[r1|] h1]] eqn:Hv; [done| |].
  - injection Hrun as <- <-. by eapply Hbody.
  - eapply preserved_trans; [by eapply Hbody|by apply IH].
Qed.

(** A whole search, failed branches included, leaves every object of the
    caller's store as it was. *)
Lemma backtrack_frame depth d h r h' :
  Store.backtrack depth d h = Done (r, h') → preserved h h'.
Proof.
  revert d h r h'.
  induction depth as [|depth IH]; intros d h r h' Hrun;
    cbn [Store.backtrack] in Hrun;
    (destruct (is_solved (value_of h d));
     [injection Hrun as <- <-; apply preserved_refl|]);
    (destruct (select_unassigned_variable (value_of h d)) as [var|];
     [|injection Hrun as <- <-; apply preserved_refl]);
    (eapply first_result_frame; [|exact Hrun]);
    intros v h1 r1 h2 Hv; cbv beta in Hv;
    destruct (assign_and_propagate_frame var v d h1) as (r2 & h3 & Heq & Hp);
    rewrite Heq in Hv; (destruct r2 as [nd|]; [|by injection Hv as <- <-]).
  - done.
  - eapply preserved_trans; [done|by eapply IH].
Qed.

Lemma preserved_value_of h h' d :
  preserved h h' → live h d → value_of h' d = value_of h d.
Proof.
  intros [Hs Hd] [Hlt Hall]. unfold value_of.
  assert (dict_at h' d = dict_at h d) as ->.
  { unfold dict_at. destruct Hd as [k ->]. by apply lookup_total_app_l. }
  apply map_fmap_ext. intros c a Ha. unfold set_at.
  destruct Hs as [k ->]. apply lookup_total_app_l. by apply (Hall c a).
Qed.

End Store_facts.

(** ** The store refines the values *)

Section Store_refinement.
Context {O : SetOrder}.

Lemma value_of_lookup_None h d c :
  Store.dict_at h d !! c = None → dom_of (Store.value_of h d) c = ∅.
Proof.
  intros Hc. unfold dom_of, Store.value_of.
  by rewrite lookup_total_alt, lookup_fmap, Hc.
Qed.

Lemma separated_same h h' d :
  Store.dicts h' = Store.dicts h → length (Store.sets h') = length (Store.sets h) →
  Store.separated h d → Store.separated h' d.
Proof.
  intros Hd Hl [[Hlt Hall] Hinj]. unfold Store.separated, Store.live, Store.dict_at in *.
  rewrite Hd, Hl. done.
Qed.

Lemma separated_preserved h h' d :
  Store.preserved h h' → Store.separated h d → Store.separated h' d.
Proof.
  intros [Hs Hd] [[Hlt Hall] Hinj].
  assert (Store.dict_at h' d = Store.dict_at h d) as Heq.
  { unfold Store.dict_at. destruct Hd as [k ->]. by apply lookup_total_app_l. }
  unfold Store.separated, Store.live. rewrite Heq. split_and!.
  - apply prefix_length in Hd. lia.
  - intros c a Ha. apply prefix_length in Hs. specialize (Hall c a Ha).
    simpl in Hall. lia.
  - done.
Qed.

(** Updating in place the set of one cell of a Store.separated dictionary changes
    the value of that cell only. *)
Lemma value_of_set_update h d c a s :
  Store.separated h d → Store.dict_at h d !! c = Some a →
  Store.value_of (Store.set_update a s h) d = <[c := s]> (Store.value_of h d).
Proof.
  intros [[Hlt Hall] Hinj] Hc. apply map_eq. intros k.
  unfold Store.value_of. change (Store.dict_at (Store.set_update a s h) d) with (Store.dict_at h d).
  rewrite lookup_insert, !lookup_fmap.
  destruct (decide (c = k)) as [<-|Hne].
  - rewrite Hc. cbn. f_equal. unfold Store.set_at, Store.set_update. cbn [Store.sets].
    apply list_lookup_total_insert_eq. by apply (Hall c a).
  - destruct (Store.dict_at h d !! k) as [a'|] eqn:Hk; [|done]. cbn. f_equal.
    unfold Store.set_at, Store.set_update. cbn [Store.sets].
    apply list_lookup_total_insert_ne. intros <-. apply Hne. by eapply Hinj.
Qed.

(** Binding a cell to a fresh set changes the value of that cell only. *)
Lemma value_of_bind_new h nd c s :
  Store.separated h nd →
  Store.value_of (Store.dict_bind nd c (length (Store.sets h)) (Store.new_set s h).2) nd
  = <[c := s]> (Store.value_of h nd)
  ∧ Store.separated (Store.dict_bind nd c (length (Store.sets h)) (Store.new_set s h).2) nd.
Proof.
  intros [[Hlt Hall] Hinj].
  assert (Store.dict_at (Store.dict_bind nd c (length (Store.sets h)) (Store.new_set s h).2) nd
          = <[c := length (Store.sets h)]> (Store.dict_at h nd)) as Hdict.
  { rewrite dict_at_dict_bind. cbn [Store.new_set snd Store.dicts].
    by rewrite decide_True. }
  split.
  - unfold Store.value_of. rewrite Hdict, fmap_insert. f_equal.
    + unfold Store.set_at. cbn [Store.dict_bind Store.new_set snd Store.sets].
      by rewrite list_lookup_total_middle.
    + apply map_fmap_ext. intros k a Ha. unfold Store.set_at.
      cbn [Store.dict_bind Store.new_set snd Store.sets].
      apply lookup_total_app_l. by apply (Hall k a).
  - unfold Store.separated, Store.live. rewrite Hdict. split_and!.
    + cbn [Store.dict_bind Store.dicts Store.new_set snd]. by rewrite length_alter.
    + cbn [Store.dict_bind Store.sets Store.new_set snd]. rewrite length_app. cbn [length].
      apply map_Forall_insert_2; [lia|].
      intros k a Ha. specialize (Hall k a Ha). simpl in Hall. lia.
    + intros c1 c2 a. rewrite !lookup_insert.
      destruct (decide (c = c1)) as [<-|H1], (decide (c = c2)) as [<-|H2];
        try done.
      * intros [= <-] Ha. specialize (Hall c2 _ Ha). simpl in Hall. lia.
      * intros Ha [= <-]. specialize (Hall c1 _ Ha). simpl in Hall. lia.
      * apply Hinj.
Qed.

(** *** [revise] and [ac3] *)

Lemma revise_refines d xi xj h b h' :
  Store.separated h d → Store.revise d xi xj h = (b, h') →
  revise (Store.value_of h d) xi xj = (b, Store.value_of h' d) ∧ Store.separated h' d.
Proof.
  intros Hsep. unfold Store.revise, revise.
  destruct (decide (to_remove (Store.value_of h d) xi xj = ∅)) as [He|Hne].
  { by intros [= <- <-]. }
  destruct (Store.dict_at h d !! xi) as [a|] eqn:Ha.
  - intros [= <- <-]. split.
    + rewrite (value_of_set_update h d xi a) by done.
      by rewrite (value_of_lookup h d xi a).
    + eapply separated_same; [..|done]; [done|].
      cbn [Store.set_update Store.sets]. by rewrite length_insert.
  - destruct Hne. apply set_eq. intros x.
    split; [|by intros ?%elem_of_empty].
    intros Hx%to_remove_subseteq.
    by rewrite value_of_lookup_None in Hx.
Qed.

Lemma ac3_loop_refines fuel d h q :
  Store.separated h d →
  match Store.ac3_loop fuel d h q with
  | OutOfFuel => ac3_loop fuel (Store.value_of h d) q = OutOfFuel
  | Done (b, h') =>
      ac3_loop fuel (Store.value_of h d) q = Done (b, Store.value_of h' d)
      ∧ Store.separated h' d
  end.
Proof.
  revert h q. induction fuel as [|fuel IH]; intros h q Hsep.
  { by destruct q as [|[xi xj] q]. }
  destruct q as [|[xi xj] q]; [done|]. cbn [Store.ac3_loop ac3_loop].
  destruct (Store.revise d xi xj h) as [revised h1] eqn:Hrev.
  apply revise_refines in Hrev as [-> Hsep1]; [|done].
  destruct revised; [|by apply IH].
  destruct (decide (dom_of (Store.value_of h1 d) xi = ∅)); [done|by apply IH].
Qed.

Lemma ac3_refines d h :
  Store.separated h d →
  ∃ b h', Store.ac3 d h = Done (b, h')
          ∧ ac3 (Store.value_of h d) = Done (b, Store.value_of h' d)
          ∧ Store.separated h' d ∧ Store.dicts h' = Store.dicts h
          ∧ ∀ h0, Store.preserved h0 h → Store.private h0 h d → Store.preserved h0 h'.
Proof.
  intros Hsep. unfold Store.ac3.
  destruct (ac3_loop_returns (length all_arcs + 20 * Store.store_size h) d h
              all_arcs) as (b & h' & Hrun); [apply arcs_wf_all_arcs|done|].
  pose proof (ac3_loop_refines (length all_arcs + 20 * Store.store_size h) d h
                all_arcs Hsep) as Href.
  rewrite Hrun in Href. destruct Href as [Hpure Hsep'].
  destruct (ac3_loop_frame _ _ _ _ _ _ Hrun) as [Hd Hp].
  exists b, h'. split_and!; [done| |done..].
  destruct (ac3_returns (Store.value_of h d)) as (b2 & d2 & Hrun2 & _).
  rewrite Hrun2. unfold ac3 in Hrun2.
  destruct (Nat.le_ge_cases (ac3_fuel (Store.value_of h d) all_arcs)
              (length all_arcs + 20 * Store.store_size h)) as [Hle|Hle].
  - apply (ac3_loop_fuel_mono _ _ _ _ _ Hle) in Hrun2. congruence.
  - apply (ac3_loop_fuel_mono _ _ _ _ _ Hle) in Hpure. congruence.
Qed.

(** *** [deepcopy] *)

Lemma copy_items_fresh h0 items memo y h1 memo' y' h2 :
  Store.sets h0 `prefix_of` Store.sets h1 →
  NoDup items.*1 → NoDup items.*2 →
  Forall (λ item, memo !! item.2 = None ∧ item.2 < length (Store.sets h0))
    items →
  foldl Store.copy_item (memo, y, h1) items = (memo', y', h2) →
  Store.sets h1 `prefix_of` Store.sets h2 ∧ Store.dicts h2 = Store.dicts h1
  ∧ (∀ k a, (k, a) ∈ items →
       ∃ a', y' !! k = Some a'
             ∧ length (Store.sets h1) ≤ a' < length (Store.sets h2)
             ∧ Store.sets h2 !! a' = Some (Store.set_at h0 a))
  ∧ (∀ k, k ∉ items.*1 → y' !! k = y !! k)
  ∧ (∀ k1 k2 a', k1 ∈ items.*1 → k2 ∈ items.*1 →
       y' !! k1 = Some a' → y' !! k2 = Some a' → k1 = k2).
Proof.
  revert memo y h1. induction items as [|[k a] items IH];
    intros memo y h1 Hpre Hk Ha Hall Hrun.
  { injection Hrun as <- <- <-. split_and!; [done..| |done|].
    - by intros k a ?%elem_of_nil.
    - by intros k1 k2 a' ?%elem_of_nil. }
  apply NoDup_cons in Hk as [Hk Hks]. apply NoDup_cons in Ha as [Ha Has].
  apply Forall_cons in Hall as [[Hmemo Hlive] Hall]. cbn [fst snd] in *.
  cbn [foldl Store.copy_item] in Hrun. rewrite Hmemo in Hrun.
  cbn [Store.new_set] in Hrun.
  assert (Store.set_at h1 a = Store.set_at h0 a) as Hcopy.
  { unfold Store.set_at. destruct Hpre as [rest ->].
    by apply lookup_total_app_l. }
  apply IH in Hrun as (Hpre2 & Hd2 & Hitems & Hother & Hinj);
    [|cbn [Store.sets]..].
  - cbn [Store.sets Store.dicts] in *.
    assert (y' !! k = Some (length (Store.sets h1))) as Hhead.
    { rewrite Hother by done. apply lookup_insert_eq. }
    assert (∀ k', k' ∈ items.*1 → ∀ a', y' !! k' = Some a' →
                  length (Store.sets h1) < a') as Htail.
    { intros k' ([k2 a2] & -> & Hin)%list_elem_of_fmap a' Hy.
      destruct (Hitems k2 a2 Hin) as (a3 & Hy3 & Hrange & _).
      cbn [fst] in Hy. rewrite Hy in Hy3. injection Hy3 as <-.
      rewrite length_app in Hrange. cbn [length] in Hrange. lia. }
    split_and!.
    + etrans; [|exact Hpre2]. by apply prefix_app_r.
    + done.
    + intros k' a0 [[= -> ->]|Hin]%elem_of_cons.
      * exists (length (Store.sets h1)). split; [done|].
        destruct Hpre2 as [rest Heq]. rewrite Heq, !length_app. cbn [length].
        split; [lia|]. rewrite <- app_assoc. cbn [app].
        by rewrite list_lookup_middle, Hcopy.
      * destruct (Hitems k' a0 Hin) as (a' & Hy & Hrange & Hs).
        exists a'. rewrite length_app in Hrange. cbn [length] in Hrange.
        split; [done|]. split; [lia|done].
    + intros k' Hk'. rewrite Hother.
      * apply lookup_insert_ne. intros ->. apply Hk'. apply list_elem_of_here.
      * intros ?. apply Hk'. by apply list_elem_of_further.
    + intros k1 k2 a' H1 H2 Hy1 Hy2. cbn [fmap list_fmap fst] in H1, H2.
      apply elem_of_cons in H1 as [->|H1];
        apply elem_of_cons in H2 as [->|H2].
      * done.
      * rewrite Hhead in Hy1. injection Hy1 as <-.
        pose proof (Htail k2 H2 _ Hy2). lia.
      * rewrite Hhead in Hy2. injection Hy2 as <-.
        pose proof (Htail k1 H1 _ Hy1). lia.
      * by eapply Hinj.
  - etrans; [exact Hpre|]. by apply prefix_app_r.
  - done.
  - done.
  - apply Forall_forall. intros [k' a0] Hin. cbn [snd].
    rewrite Forall_forall in Hall. destruct (Hall _ Hin) as [Hm Hl].
    split; [|done]. rewrite lookup_insert_ne; [done|].
    intros ->. apply Ha. apply list_elem_of_fmap. by exists (k', a0).
Qed.

Lemma deepcopy_refines d h nd h' :
  Store.separated h d → Store.deepcopy d h = (nd, h') →
  Store.value_of h' nd = Store.value_of h d ∧ Store.separated h' nd.
Proof.
  intros [[Hlt Hall] Hinj]. unfold Store.deepcopy.
  destruct (foldl Store.copy_item (∅, ∅, h) (map_to_list (Store.dict_at h d)))
    as [[memo y] h1] eqn:Hrun.
  apply (copy_items_fresh h) in Hrun as (Hpre & Hd & Hitems & Hother & Hyinj).
  - unfold Store.new_dict. intros [= <- <-].
    assert (Store.dict_at
              {| Store.sets := Store.sets h1;
                 Store.dicts := Store.dicts h1 ++ [y] |}
              (length (Store.dicts h1)) = y) as Hy.
    { unfold Store.dict_at. cbn [Store.dicts].
      by rewrite list_lookup_total_middle. }
    assert (∀ k, Store.dict_at h d !! k = None → y !! k = None) as Hnone.
    { intros k Hk. rewrite Hother; [done|].
      intros ([k' a] & -> & Hin%elem_of_map_to_list)%list_elem_of_fmap.
      cbn [fst] in Hk. congruence. }
    assert (∀ k a', y !! k = Some a' →
              k ∈ (map_to_list (Store.dict_at h d)).*1
              ∧ a' < length (Store.sets h1)) as Hsome.
    { intros k a' Hk.
      destruct (Store.dict_at h d !! k) as [a|] eqn:Hdk;
        [|by rewrite Hnone in Hk].
      destruct (Hitems k a) as (a2 & Hy2 & Hrange & _);
        [by apply elem_of_map_to_list|].
      rewrite Hk in Hy2. injection Hy2 as <-. split; [|lia].
      apply list_elem_of_fmap. exists (k, a).
      split; [done|by apply elem_of_map_to_list]. }
    split.
    + unfold Store.value_of. rewrite Hy. apply map_eq. intros k.
      rewrite !lookup_fmap.
      destruct (Store.dict_at h d !! k) as [a|] eqn:Hk.
      * destruct (Hitems k a) as (a' & -> & _ & Hs);
          [by apply elem_of_map_to_list|]. cbn. f_equal.
        unfold Store.set_at at 1. cbn [Store.sets].
        by rewrite list_lookup_total_alt, Hs.
      * by rewrite Hnone.
    + unfold Store.separated, Store.live. rewrite Hy.
      cbn [Store.dicts Store.sets]. split_and!.
      * rewrite length_app. cbn [length]. lia.
      * intros k a' Hk. by destruct (Hsome k a' Hk).
      * intros k1 k2 a' Hk1 Hk2.
        destruct (Hsome k1 a' Hk1) as [H1 _].
        destruct (Hsome k2 a' Hk2) as [H2 _]. by eapply Hyinj.
  - done.
  - apply NoDup_fst_map_to_list.
  - apply NoDup_fmap_2_strong; [|apply NoDup_map_to_list].
    intros [k1 a1] [k2 a2] H1%elem_of_map_to_list H2%elem_of_map_to_list.
    cbn [snd]. intros <-. f_equal. by eapply Hinj.
  - apply Forall_forall. intros [k a] Hin%elem_of_map_to_list. cbn [snd].
    split; [apply lookup_empty|]. by apply (Hall k a).
Qed.

(** *** [assign_and_propagate] and [backtrack] *)

Lemma forward_check_refines value nd ps h b h' :
  Store.separated h nd → Store.forward_check value nd ps h = (b, h') →
  forward_check value ps (Store.value_of h nd)
  = (if b then Some (Store.value_of h' nd) else None)
  ∧ Store.separated h' nd.
Proof.
  revert h. induction ps as [|p ps IH]; intros h Hsep Hrun.
  { by injection Hrun as <- <-. }
  cbn [Store.forward_check forward_check] in *.
  destruct (decide (value ∈ dom_of (Store.value_of h nd) p)); [|by apply IH].
  destruct (value_of_bind_new h nd p
              (dom_of (Store.value_of h nd) p ∖ {[value]}) Hsep)
    as [Hval Hsep2].
  cbn [Store.new_set snd] in *.
  set (newv := <[p := dom_of (Store.value_of h nd) p ∖ {[value]}]>
                 (Store.value_of h nd)) in *.
  clearbody newv. subst newv.
  destruct (decide (dom_of (Store.value_of _ nd) p = ∅)).
  - by injection Hrun as <- <-.
  - by apply IH.
Qed.

Lemma assign_and_propagate_refines var value d h :
  Store.separated h d →
  ∃ r h', Store.assign_and_propagate var value d h = Done (r, h')
          ∧ assign_and_propagate var value (Store.value_of h d)
            = Done (Store.value_of h' <$> r)
          ∧ Store.preserved h h'
          ∧ ∀ nd, r = Some nd → Store.separated h' nd.
Proof.
  intros Hsep.
  destruct (assign_and_propagate_frame var value d h) as (r & h' & Hrun & Hp).
  exists r, h'. split; [done|].
  assert (assign_and_propagate var value (Store.value_of h d)
          = Done (Store.value_of h' <$> r)
          ∧ ∀ nd, r = Some nd → Store.separated h' nd) as [H1 H2]; [|done].
  revert Hrun. unfold Store.assign_and_propagate, assign_and_propagate.
  cbv zeta.
  destruct (Store.deepcopy d h) as [nd h1] eqn:Hcopy.
  apply deepcopy_refines in Hcopy as [Hv1 Hsep1]; [|done].
  destruct (value_of_bind_new h1 nd var {[value]} Hsep1) as [Hv3 Hsep3].
  cbn [Store.new_set snd] in *.
  destruct (Store.forward_check _ _ _ _) as [b h4] eqn:Hfc.
  apply forward_check_refines in Hfc as [Hfc Hsep4]; [|done].
  rewrite Hv3, Hv1 in Hfc. rewrite Hfc.
  destruct b; [|by intros [= <- <-]].
  destruct (ac3_refines nd h4 Hsep4) as (b & h5 & -> & -> & Hsep5 & _).
  destruct b; intros [= <- <-]; [|done]. split; [done|]. by intros ? [= <-].
Qed.

Lemma first_result_refines
    (sbody : Z → Store.store → outcome (option nat * Store.store))
    (pbody : Z → outcome (option assignment)) values h0 h :
  (∀ v h1, Store.preserved h0 h1 →
     match sbody v h1 with
     | OutOfFuel => pbody v = OutOfFuel
     | Done (r, h2) =>
         pbody v = Done (Store.value_of h2 <$> r) ∧ Store.preserved h1 h2
         ∧ ∀ nd, r = Some nd → Store.separated h2 nd
     end) →
  Store.preserved h0 h →
  match Store.first_result sbody values h with
  | OutOfFuel => first_result pbody values = OutOfFuel
  | Done (r, h') =>
      first_result pbody values = Done (Store.value_of h' <$> r)
      ∧ ∀ nd, r = Some nd → Store.separated h' nd
  end.
Proof.
  intros Hbody. revert h. induction values as [|v values IH]; intros h Hp.
  { done. }
  cbn [Store.first_result first_result].
  specialize (Hbody v h Hp).
  destruct (sbody v h) as [|[[nd|] h1]].
  - by rewrite Hbody.
  - destruct Hbody as (-> & _ & Hsep). done.
  - destruct Hbody as (-> & Hp1 & _). cbn [fmap option_fmap option_map].
    apply IH. by eapply preserved_trans.
Qed.

(** The search in the store computes what the search on values
    computes. *)
Lemma backtrack_refines depth d h :
  Store.separated h d →
  match Store.backtrack depth d h with
  | OutOfFuel => backtrack depth (Store.value_of h d) = OutOfFuel
  | Done (r, h') =>
      backtrack depth (Store.value_of h d) = Done (Store.value_of h' <$> r)
      ∧ ∀ nd, r = Some nd → Store.separated h' nd
  end.
Proof.
  revert d h. induction depth as [|depth IH]; intros d h Hsep;
    rewrite backtrack_unfold; cbn [Store.backtrack];
    (destruct (is_solved (Store.value_of h d));
     [split; [done|by intros ? [= <-]]|]);
    (destruct (select_unassigned_variable (Store.value_of h d)) as [var|];
     [|done]);
    apply (first_result_refines _ _ _ h); [|apply preserved_refl| |apply preserved_refl];
    intros v h1 Hp1;
    pose proof (separated_preserved _ _ _ Hp1 Hsep) as Hsep1;
    destruct (assign_and_propagate_refines var v d h1 Hsep1)
      as (r & h2 & -> & Hpure & Hp2 & Hsep2);
    rewrite (preserved_value_of h h1 d Hp1 (proj1 Hsep)) in Hpure;
    rewrite Hpure; (destruct r as [nd|]; [|done]);
    cbn [fmap option_fmap option_map].
  - done.
  - specialize (IH nd h2 (Hsep2 nd eq_refl)).
    destruct (Store.backtrack depth nd h2) as [|[r3 h3]] eqn:Hrun; [done|].
    destruct IH as [-> Hsep3]. split_and!; [done| |done].
    eapply preserved_trans; [done|by eapply backtrack_frame].
Qed.

(** [solve] in the store computes what [solve] on values computes, and
    leaves [self.domains] as it was. *)
Theorem store_solve_refines g self_domains h :
  Store.separated h self_domains →
  ∃ r h', Store.solve self_domains h = Done (r, h')
          ∧ solve {| grid := g; domains := Store.value_of h self_domains |}
            = Done r
          ∧ Store.preserved h h'.
Proof.
  intros Hsep. unfold Store.solve, solve. cbn [domains].
  destruct (Store.deepcopy self_domains h) as [dm h1] eqn:Hcopy.
  pose proof (deepcopy_frame _ _ _ _ Hcopy) as [Hp1 Hpriv1].
  apply deepcopy_refines in Hcopy as [Hv1 Hsep1]; [|done].
  destruct (ac3_refines dm h1 Hsep1) as (b & h2 & -> & Hpure & Hsep2 & _ & Hp2).
  rewrite Hv1 in Hpure. rewrite Hpure.
  specialize (Hp2 h Hp1 Hpriv1).
  destruct b; [|by eexists _, _].
  pose proof (backtrack_refines 81 dm h2 Hsep2) as Href.
  destruct (backtrack_returns 81 (Store.value_of h2 dm)
              (count_open_le_81 _)) as [r Hr].
  destruct (Store.backtrack 81 dm h2) as [|[r3 h3]] eqn:Hrun;
    [congruence|].
  destruct Href as [Href _]. rewrite Href.
  apply backtrack_frame in Hrun.
  destruct r3 as [sol|]; eexists _, _; (split; [done|]);
    (split; [done|]); by eapply preserved_trans.
Qed.

End Store_refinement.

Lemma separated_check h d :
  Store.live h d → NoDup (map_to_list (Store.dict_at h d)).*2 →
  Store.separated h d.
Proof.
  intros Hlive Hnd. split; [done|]. intros c1 c2 a H1 H2.
  apply elem_of_map_to_list in H1, H2.
  apply list_elem_of_lookup in H1 as [i1 H1], H2 as [i2 H2].
  assert (i1 = i2) as ->.
  { eapply NoDup_lookup; [exact Hnd|..];
      rewrite list_lookup_fmap; [by rewrite H1|by rewrite H2]. }
  congruence.
Qed.

Section Claims_store.
Context {O : SetOrder}.

(** C5: [assign_and_propagate] returns, whether with a new dictionary or
    with [None], and every object of the caller's store, the caller's
    dictionary and each of its candidate sets among them, is then what it
    was before the call.  The same holds for a whole call of [backtrack], so
    a failed branch alters neither its parent's dictionary nor the one a
    sibling branch starts from; and [backtrack] does return when no two
    cells of the caller's dictionary share a set. *)
Theorem assign_and_propagate_leaves_caller_unchanged var value d h :
  Store.live h d →
  (∃ r h', Store.assign_and_propagate var value d h = Done (r, h')
           ∧ Store.preserved h h'
           ∧ Store.value_of h' d = Store.value_of h d)
  ∧ (∀ depth r h', Store.backtrack depth d h = Done (r, h') →
       Store.preserved h h' ∧ Store.value_of h' d = Store.value_of h d)
  ∧ (Store.separated h d →
     ∃ r h', Store.backtrack 81 d h = Done (r, h')
             ∧ Store.preserved h h'
             ∧ Store.value_of h' d = Store.value_of h d).
Proof.
  intros Hlive. split_and!.
  - destruct (assign_and_propagate_frame var value d h) as (r & h' & Hrun & Hp).
    exists r, h'. split_and!; [done..|]. by apply preserved_value_of.
  - intros depth r h' Hp%backtrack_frame. split; [done|].
    by apply preserved_value_of.
  - intros Hsep. pose proof (backtrack_refines 81 d h Hsep) as Href.
    destruct (backtrack_returns 81 (Store.value_of h d)
                (count_open_le_81 _)) as [r0 Hr0].
    destruct (Store.backtrack 81 d h) as [|[r h']] eqn:Hrun; [congruence|].
    exists r, h'. apply backtrack_frame in Hrun.
    split_and!; [done..|]. by apply preserved_value_of.
Qed.

End Claims_store.

(** * Further properties *)

(** ** The board and the heuristics *)

Lemma peers_row_column_box_table :
  Forall (λ xi,
    set_Forall (λ xj, xj ∈ cells ∧ xj ≠ xi
       ∧ (xj.1 = xi.1 ∨ xj.2 = xi.2
          ∨ (xj.1 / 3 = xi.1 / 3 ∧ xj.2 / 3 = xi.2 / 3))) (peers xi)
    ∧ Forall (λ xj, xj ≠ xi →
        (xj.1 = xi.1 ∨ xj.2 = xi.2
          ∨ (xj.1 / 3 = xi.1 / 3 ∧ xj.2 / 3 = xi.2 / 3)) →
        xj ∈ peers xi) cells) cells.
Proof. apply (bool_decide_unpack _). by vm_compute. Qed.

(** X1: the peers that [_build_peers] gives a cell are exactly the other
    cells of its row, of its column and of its 3x3 box, and being a peer is
    symmetric. *)
Theorem peers_are_row_column_box (xi xj : cell) :
  xi ∈ cells →
  (xj ∈ peers xi ↔
     xj ∈ cells ∧ xj ≠ xi
     ∧ (xj.1 = xi.1 ∨ xj.2 = xi.2
        ∨ (xj.1 / 3 = xi.1 / 3 ∧ xj.2 / 3 = xi.2 / 3)))
  ∧ (xj ∈ peers xi → xi ∈ peers xj).
Proof.
  intros Hxi. pose proof peers_row_column_box_table as H.
  rewrite Forall_forall in H. destruct (H xi Hxi) as [H1 H2].
  split; [split|].
  - apply H1.
  - intros (Hxj & Hne & Hu). rewrite Forall_forall in H2. by apply H2.
  - by apply peers_sym.
Qed.

Lemma mrv_le_spec a b :
  mrv_le a b ↔
  a.1.1 < b.1.1
  ∨ (a.1.1 = b.1.1
     ∧ ((a.1.2 < b.1.2)%Z
        ∨ (a.1.2 = b.1.2
           ∧ (a.2.1 < b.2.1 ∨ (a.2.1 = b.2.1 ∧ a.2.2 ≤ b.2.2))))).
Proof.
  destruct a as [[la pa] [ra ca]], b as [[lb pb] [rb cb]].
  unfold mrv_le, mrv_leb, cell_leb. cbn [fst snd].
  rewrite !orb_True, !andb_True, !orb_True, !andb_True, !Is_true_true.
  rewrite orb_true_iff, andb_true_iff.
  rewrite !Nat.ltb_lt, !Nat.eqb_eq, Z.ltb_lt, Z.eqb_eq, Nat.leb_le. tauto.
Qed.

Lemma mrv_le_trans : Transitive mrv_le.
Proof. intros a b c. rewrite !mrv_le_spec. lia. Qed.

Lemma mrv_le_total : Total mrv_le.
Proof. intros a b. rewrite !mrv_le_spec. lia. Qed.

Section Heuristics.
Context {O : SetOrder}.

(** X2: [select_unassigned_variable] returns [None] exactly when no cell has
    two candidates or more.  Otherwise it returns an open cell with the
    fewest candidates and, among those, the first one by row and then by
    column: every cell has 20 peers, so the second component of the sorted
    tuples never decides. *)
Theorem select_unassigned_variable_mrv d :
  match select_unassigned_variable d with
  | None => ∀ c, c ∈ cells → size (dom_of d c) ≤ 1
  | Some var =>
      var ∈ cells ∧ 1 < size (dom_of d var)
      ∧ ∀ c, c ∈ cells → 1 < size (dom_of d c) →
          size (dom_of d var) < size (dom_of d c)
          ∨ (size (dom_of d var) = size (dom_of d c)
             ∧ (var.1 < c.1 ∨ (var.1 = c.1 ∧ var.2 ≤ c.2)))
  end.
Proof.
  unfold select_unassigned_variable.
  set (mrv := map _ _).
  pose proof (@Sorted_merge_sort _ mrv_le _ mrv_le_total mrv) as Hs.
  apply (@Sorted_StronglySorted _ _ mrv_le_trans) in Hs.
  pose proof (merge_sort_Permutation mrv_le mrv) as Hp.
  destruct (merge_sort mrv_le mrv) as [|t l].
  - intros c Hc. apply Permutation_nil_l in Hp.
    destruct (decide (1 < size (dom_of d c))) as [Hopen|]; [|lia].
    assert ((size (dom_of d c), (- Z.of_nat (size (peers c)))%Z, c) ∈ mrv) as Hin.
    { apply list_elem_of_fmap. exists c. split; [done|].
      by apply list_elem_of_filter. }
    rewrite <- Hp in Hin. by apply elem_of_nil in Hin.
  - assert (t ∈ mrv) as Ht by (rewrite <- Hp; apply list_elem_of_here).
    apply list_elem_of_fmap in Ht as (var & -> & Hvar).
    apply list_elem_of_filter in Hvar as [Hopen Hvar]. cbn [snd].
    split_and!; [done..|]. intros c Hc Hcopen.
    assert ((size (dom_of d c), (- Z.of_nat (size (peers c)))%Z, c) ∈ mrv) as Hin.
    { apply list_elem_of_fmap. exists c. split; [done|].
      by apply list_elem_of_filter. }
    rewrite <- Hp in Hin. apply StronglySorted_inv in Hs as [_ Hall].
    apply elem_of_cons in Hin as [Heq|Hin].
    { injection Heq as _ _ ->. right. split; [done|lia]. }
    rewrite Forall_forall in Hall. specialize (Hall _ Hin).
    apply mrv_le_spec in Hall. cbn [fst snd] in Hall.
    rewrite (peers_size var Hvar), (peers_size c Hc) in Hall. lia.
Qed.

Lemma length_filter_iter_peers d var val :
  length (filter (λ p, val ∈ dom_of d p) (iter_peers var))
  = peer_count d var val.
Proof.
  unfold peer_count, size, set_size. cbn.
  apply Permutation_length.
  rewrite (iter_peers_perm var).
  apply NoDup_Permutation.
  - apply NoDup_filter, NoDup_elements.
  - apply NoDup_elements.
  - intros p. rewrite list_elem_of_filter, !elem_of_elements, elem_of_filter.
    done.
Qed.

(** X3: [order_domain_values] lists every candidate of the variable exactly
    once, by increasing number of peers that still hold the value and, for
    equal numbers, by increasing value. *)
Theorem order_domain_values_lcv var d :
  order_domain_values var d ≡ₚ elements (dom_of d var)
  ∧ StronglySorted
      (λ v w, peer_count d var v < peer_count d var w
              ∨ (peer_count d var v = peer_count d var w ∧ (v < w)%Z))
      (order_domain_values var d).
Proof.
  unfold order_domain_values.
  rewrite (map_ext _ (λ val, (peer_count d var val, val)))
    by (intros val; by rewrite length_filter_iter_peers).
  set (counts := map (λ val, (peer_count d var val, val)) _).
  pose proof (@Sorted_merge_sort _ count_le _ count_le_total counts) as Hs.
  apply (@Sorted_StronglySorted _ _ count_le_trans) in Hs.
  pose proof (merge_sort_Permutation count_le counts) as Hp.
  assert (map snd counts = iter_values (dom_of d var)) as Hsnd.
  { unfold counts. rewrite map_map. apply map_id. }
  assert (map snd (merge_sort count_le counts) ≡ₚ elements (dom_of d var))
    as Hperm.
  { etrans; [apply fmap_Permutation, Hp|].
    change (map snd counts ≡ₚ elements (dom_of d var)).
    rewrite Hsnd. apply iter_values_perm. }
  split; [done|].
  assert (NoDup (map snd (merge_sort count_le counts))) as Hnd.
  { rewrite Hperm. apply NoDup_elements. }
  assert (Forall (λ t, t.1 = peer_count d var t.2)
            (merge_sort count_le counts)) as Hall.
  { rewrite Hp. unfold counts. apply Forall_forall.
    by intros t (val & -> & _)%list_elem_of_fmap. }
  clear Hperm Hp. revert Hs Hnd Hall.
  generalize (merge_sort count_le counts).
  intros l. induction l as [|t l IH]; intros Hs Hnd Hall; [constructor|].
  apply StronglySorted_inv in Hs as [Hs Ht].
  apply Forall_cons in Hall as [Ht1 Hall].
  cbn [map] in Hnd. apply NoDup_cons in Hnd as [Hnt Hnd].
  cbn [map]. constructor; [by apply IH|].
  apply Forall_forall. intros w (u & -> & Hu)%list_elem_of_fmap.
  rewrite Forall_forall in Ht, Hall. specialize (Ht u Hu).
  specialize (Hall u Hu). apply count_le_spec in Ht.
  rewrite Ht1, Hall in Ht.
  assert (t.2 ≠ u.2).
  { intros Heq. apply Hnt. rewrite Heq. apply list_elem_of_fmap. by exists u. }
  lia.
Qed.

End Heuristics.

(** ** Solutions *)

Lemma peers_share_a_unit :
  Forall (λ xi,
    Exists (λ u, xi ∈ u) units
    ∧ set_Forall (λ xj, Exists (λ u, xi ∈ u ∧ xj ∈ u) units) (peers xi))
    cells.
Proof. apply (bool_decide_unpack _). by vm_compute. Qed.

Lemma NoDup_fmap_inj_on {A B} (f : A → B) (l : list A) x y :
  NoDup (f <$> l) → x ∈ l → y ∈ l → f x = f y → x = y.
Proof.
  induction l as [|a l IH]; [by intros _ ?%elem_of_nil|].
  rewrite fmap_cons, NoDup_cons. intros [Ha Hnd] Hx Hy Heq.
  apply elem_of_cons in Hx as [->|Hx], Hy as [->|Hy]; [done| | |by apply IH].
  - destruct Ha. rewrite Heq. apply list_elem_of_fmap. by exists y.
  - destruct Ha. rewrite <- Heq. apply list_elem_of_fmap. by exists x.
Qed.

Lemma NoDup_digits : NoDup digits.
Proof. apply (bool_decide_unpack _). by vm_compute. Qed.

(** In a valid grid no two peers hold the same value, and every value is
    one of 1..9. *)
Lemma valid_solution_no_conflict g :
  valid_solution g →
  no_conflict (cell_values g)
  ∧ ∀ rc, rc ∈ cells → (1 ≤ cell_values g rc ≤ 9)%Z.
Proof.
  intros [_ Hunits]. rewrite Forall_forall in Hunits.
  pose proof peers_share_a_unit as Htab. rewrite Forall_forall in Htab.
  split.
  - intros xi xj Hxi Hxj Heq. destruct (Htab xi Hxi) as [_ Hall].
    apply Hall in Hxj as Hex. apply Exists_exists in Hex as (u & Hu & Hi & Hj).
    apply (peers_ne xi xj Hxi Hxj).
    apply (NoDup_fmap_inj_on (cell_values g) u); [|done..].
    change (NoDup (read_cells g u)). rewrite (Hunits u Hu).
    apply NoDup_digits.
  - intros rc Hrc. destruct (Htab rc Hrc) as [Hex _].
    apply Exists_exists in Hex as (u & Hu & Hi).
    apply elem_of_digits. rewrite <- (Hunits u Hu).
    apply list_elem_of_fmap. by exists rc.
Qed.

Lemma count_open_0 d c :
  count_open d = 0 → c ∈ cells → size (dom_of d c) ≤ 1.
Proof.
  unfold count_open. intros H0 Hc.
  destruct (decide (1 < size (dom_of d c))) as [Hopen|]; [|lia].
  assert (c ∈ filter (λ c, 1 < size (dom_of d c)) cells) as Hin
    by by apply list_elem_of_filter.
  apply length_zero_iff_nil in H0. rewrite H0 in Hin.
  by apply elem_of_nil in Hin.
Qed.

Lemma count_open_pos d c :
  c ∈ cells → 1 < size (dom_of d c) → 0 < count_open d.
Proof.
  intros Hc Hopen. destruct (count_open d) eqn:H0; [|lia].
  pose proof (count_open_0 d c H0 Hc). lia.
Qed.

Section Solutions.
Context {O : SetOrder}.

(** Pruning [xi] against a peer never discards the value of a solution. *)
Lemma within_prune s d xi xj :
  no_conflict s → within s d → xi ∈ cells → xj ∈ peers xi →
  within s (prune d xi xj).
Proof.
  intros Hs Hd Hxi Hxj c Hc. rewrite dom_of_prune.
  case_decide as Heq; [subst c|by apply Hd].
  apply elem_of_difference. split; [by apply Hd|].
  intros [_ Hj]%elem_of_to_remove.
  assert (s xj ∈ dom_of d xj) as Hin.
  { apply Hd. by eapply peers_cells. }
  rewrite Hj in Hin. apply elem_of_singleton in Hin.
  by apply (Hs xi xj).
Qed.

Lemma ac3_loop_keeps_solution s fuel d q b d' :
  no_conflict s → within s d → arcs_wf q →
  ac3_loop fuel d q = Done (b, d') → b = true ∧ within s d'.
Proof.
  intros Hs Hd Hq.
  apply (ac3_loop_invariant (λ d q, within s d ∧ arcs_wf q)
           (λ b d', b = true ∧ within s d')); [| | | |done].
  - by intros d1 [? _].
  - intros d1 xi xj q1 [Hd1 Hq1] _. split; [done|].
    by apply Forall_cons in Hq1 as [_ ?].
  - intros d1 xi xj q1 [Hd1 Hq1] _ Hempty. exfalso.
    apply Forall_cons in Hq1 as [[Hxi Hxj] _]. cbn [fst snd] in Hxi, Hxj.
    pose proof (within_prune s d1 xi xj Hs Hd1 Hxi Hxj xi Hxi) as Hin.
    rewrite dom_of_prune, decide_True, Hempty in Hin by done.
    by apply elem_of_empty in Hin.
  - intros d1 xi xj q1 [Hd1 Hq1] _ _.
    apply Forall_cons in Hq1 as [[Hxi Hxj] Hq1]. cbn [fst snd] in Hxi, Hxj.
    split; [by apply within_prune|].
    apply Forall_app. split; [done|by apply arcs_wf_requeue].
Qed.

Lemma ac3_keeps_solution s d :
  no_conflict s → within s d →
  ∃ d', ac3 d = Done (true, d') ∧ within s d'.
Proof.
  intros Hs Hd. destruct (ac3_returns d) as (b & d' & Hrun & _).
  destruct (ac3_loop_keeps_solution s _ d all_arcs b d' Hs Hd
              arcs_wf_all_arcs Hrun) as [-> Hd'].
  by exists d'.
Qed.

Lemma assign_and_propagate_keeps_solution s var d :
  no_conflict s → within s d → var ∈ cells →
  ∃ nd, assign_and_propagate var (s var) d = Done (Some nd) ∧ within s nd.
Proof.
  intros Hs Hd Hvar. unfold assign_and_propagate.
  assert (within s (<[var := {[s var]}]> d)) as Hd0.
  { intros c Hc. rewrite dom_of_insert. case_decide; [subst c|by apply Hd].
    by apply elem_of_singleton. }
  destruct (forward_check (s var) (iter_peers var) (<[var := {[s var]}]> d))
    as [d2|] eqn:Hfc.
  - apply forward_check_spec in Hfc as [_ Hd2].
    destruct (ac3_keeps_solution s d2 Hs) as (nd & -> & Hnd).
    + intros c Hc. rewrite Hd2. case_decide as Hp; [|by apply Hd0].
      apply elem_of_difference. split; [by apply Hd0|].
      intros Heq%elem_of_singleton. apply elem_of_iter_peers in Hp.
      by apply (Hs var c).
    + by exists nd.
  - apply forward_check_None in Hfc as (p & Hp & Heq). exfalso.
    apply elem_of_iter_peers in Hp.
    assert (s p ∈ dom_of (<[var := {[s var]}]> d) p) as Hin.
    { apply Hd0. by eapply peers_cells. }
    rewrite Heq in Hin. apply elem_of_singleton in Hin.
    by apply (Hs var p).
Qed.

Lemma first_result_finds {A} (body : Z → outcome (option A)) values v r :
  (∀ w, w ∈ values → ∃ r', body w = Done r') →
  v ∈ values → body v = Done (Some r) →
  ∃ r', first_result body values = Done (Some r').
Proof.
  induction values as [|w values IH]; intros Hbody Hv Hr;
    [by apply elem_of_nil in Hv|].
  cbn [first_result].
  destruct (Hbody w) as [[rw|] Hw]; [apply list_elem_of_here| |];
    rewrite Hw; [by eexists|].
  apply elem_of_cons in Hv as [->|Hv]; [congruence|].
  apply IH; [|done..]. intros u Hu. apply Hbody. by apply list_elem_of_further.
Qed.

(** The search is complete: when the dictionary allows a solution, it
    returns a dictionary. *)
Lemma backtrack_complete s depth d :
  no_conflict s → within s d → count_open d ≤ depth →
  ∃ sol, backtrack depth d = Done (Some sol).
Proof.
  intros Hs. revert d. induction depth as [|depth IH]; intros d Hd Hcount;
    rewrite backtrack_unfold.
  - destruct (is_solved d) eqn:Hsolved; [by eexists|].
    destruct (select_unassigned_variable d) as [var|] eqn:Hsel.
    + apply select_unassigned_variable_Some in Hsel as [Hvar Hsize].
      pose proof (count_open_pos d var Hvar Hsize). lia.
    + exfalso. apply select_unassigned_variable_None in Hsel.
      apply not_true_iff_false in Hsolved. apply Hsolved.
      apply is_solved_spec. intros c Hc.
      pose proof (count_open_0 d c Hsel Hc).
      assert (size (dom_of d c) ≠ 0); [|lia].
      intros H0%size_empty_inv%leibniz_equiv. specialize (Hd c Hc).
      rewrite H0 in Hd. by apply elem_of_empty in Hd.
  - destruct (is_solved d) eqn:Hsolved; [by eexists|].
    destruct (select_unassigned_variable d) as [var|] eqn:Hsel.
    + apply select_unassigned_variable_Some in Hsel as [Hvar Hsize].
      assert (∀ v nd, assign_and_propagate var v d = Done (Some nd) →
                count_open nd ≤ depth) as Hless.
      { intros v nd Hrun.
        destruct (assign_and_propagate_spec var v d Hvar) as (r & Heq & Hr).
        rewrite Hrun in Heq. injection Heq as <-.
        destruct (Hr nd eq_refl) as (Hv & _ & Hsub & _).
        assert (count_open nd < count_open d); [|lia].
        apply (count_open_assign d nd var); [done..| |done].
        by rewrite Hv, size_singleton. }
      destruct (assign_and_propagate_keeps_solution s var d Hs Hd Hvar)
        as (nd & Hrun & Hnd).
      destruct (IH nd Hnd (Hless _ _ Hrun)) as [sol Hsol].
      apply (first_result_finds _ _ (s var) sol).
      * intros v _.
        destruct (assign_and_propagate_spec var v d Hvar) as (r & Heq & _).
        rewrite Heq. destruct r as [nd'|]; [|by eexists].
        apply backtrack_returns. by eapply Hless.
      * apply elem_of_order_domain_values. by apply Hd.
      * by rewrite Hrun.
    + exfalso. apply select_unassigned_variable_None in Hsel.
      apply not_true_iff_false in Hsolved. apply Hsolved.
      apply is_solved_spec. intros c Hc.
      pose proof (count_open_0 d c Hsel Hc).
      assert (size (dom_of d c) ≠ 0); [|lia].
      intros H0%size_empty_inv%leibniz_equiv. specialize (Hd c Hc).
      rewrite H0 in Hd. by apply elem_of_empty in Hd.
Qed.

(** A solved dictionary in which no arc can prune is a solution. *)
Lemma solved_no_conflict sol :
  is_solved sol = true → arc_consistent sol →
  ∃ s, no_conflict s ∧ within s sol ∧ ∀ c, c ∈ cells → dom_of sol c = {[s c]}.
Proof.
  intros Hsolved Hcons. rewrite is_solved_spec in Hsolved.
  exists (λ c, next_iter (dom_of sol c)).
  assert (∀ c, c ∈ cells → dom_of sol c = {[next_iter (dom_of sol c)]}) as Hval.
  { intros c Hc.
    destruct (size_1_elem_of _ (Hsolved c Hc)) as [v Hv%leibniz_equiv].
    by rewrite Hv, next_iter_singleton. }
  split_and!; [| |done].
  - intros xi xj Hxi Hxj Heq.
    assert (next_iter (dom_of sol xi) ∈ to_remove sol xi xj) as Hin.
    { apply elem_of_to_remove. split.
      - rewrite (Hval xi Hxi) at 2. by apply elem_of_singleton.
      - rewrite Heq. apply Hval. by eapply peers_cells. }
    rewrite (Hcons xi xj Hxi Hxj) in Hin. by apply elem_of_empty in Hin.
  - intros c Hc. rewrite (Hval c Hc) at 2. by apply elem_of_singleton.
Qed.

(** The initial domains allow every grid that solves the puzzle. *)
Lemma completes_within_initial g grid d0 :
  completes g grid → within (cell_values g) (initialize_domains grid d0).
Proof.
  intros [Hvalid Hclues] rc Hrc.
  apply valid_solution_no_conflict in Hvalid as [Hs Hrange].
  rewrite initialize_domains_dom_of by done.
  destruct (decide (1 ≤ grid_at grid rc.1 rc.2 ≤ 9)%Z) as [Hc|Hc].
  - rewrite (initial_domain_clue grid rc (grid_at grid rc.1 rc.2)) by done.
    apply elem_of_singleton. by apply Hclues.
  - apply initial_domain_no_clue; [done|]. split; [by apply Hrange|].
    intros (p & Hp & Hclue).
    apply (Hs rc p Hrc Hp). symmetry. apply Hclues; [|done].
    by eapply peers_cells.
Qed.

(** [solve] returns a grid that solves the puzzle when there is one, and
    [None] otherwise. *)
Lemma solve_complete grid :
  ∃ r, solve {| grid := grid;
                domains := initialize_domains grid
                  (list_to_map (map (λ c, (c, (∅ : gset Z))) cells)) |}
       = Done r
    ∧ (∀ g, r = Some g → completes g grid)
    ∧ ((∃ g, completes g grid) → ∃ g, r = Some g).
Proof.
  set (self := {| grid := grid; domains := _ |}).
  destruct (solve_spec self) as (r & Hr & Hg); [apply values_1_9_initialize|].
  exists r. split; [done|]. split.
  - intros g ->. destruct (Hg g eq_refl) as [Hvalid _]. split; [done|].
    intros rc v Hrc Hclue.
    apply (solve_keeps_singleton self); [done| |apply values_1_9_initialize|done].
    cbn [domains self]. rewrite initialize_domains_dom_of by done.
    by apply initial_domain_clue.
  - intros [g Hcomp].
    pose proof (completes_within_initial g grid
                  (list_to_map (map (λ c, (c, (∅ : gset Z))) cells)) Hcomp)
      as Hin.
    destruct Hcomp as [[Hs _]%valid_solution_no_conflict _].
    unfold solve in Hr. cbn [domains self] in Hr.
    destruct (ac3_keeps_solution _ _ Hs Hin) as (d & Hac3 & Hd).
    rewrite Hac3 in Hr.
    destruct (backtrack_complete _ 81 d Hs Hd (count_open_le_81 d))
      as [sol Hsol].
    rewrite Hsol in Hr. injection Hr as <-. by eexists.
Qed.

End Solutions.

(** ** Soundness and completeness of the search *)

Lemma grid_ext (g1 g2 : list (list Z)) :
  is_9x9 g1 → is_9x9 g2 →
  (∀ rc, rc ∈ cells → grid_at g1 rc.1 rc.2 = grid_at g2 rc.1 rc.2) →
  g1 = g2.
Proof.
  intros [Hl1 Hr1] [Hl2 Hr2] Heq.
  apply list_eq_same_length with 9; [done..|].
  intros r row1 row2 Hr Hrow1 Hrow2.
  apply list_eq_same_length with 9.
  - by eapply (Forall_lookup_1 _ _ _ _ Hr2).
  - by eapply (Forall_lookup_1 _ _ _ _ Hr1).
  - intros c v1 v2 Hc Hv1 Hv2.
    specialize (Heq (r, c)). unfold grid_at in Heq. cbn [fst snd] in Heq.
    rewrite (list_lookup_total_correct _ _ _ Hrow1) in Heq.
    rewrite (list_lookup_total_correct _ _ _ Hrow2) in Heq.
    rewrite (list_lookup_total_correct _ _ _ Hv1) in Heq.
    rewrite (list_lookup_total_correct _ _ _ Hv2) in Heq.
    apply Heq. apply elem_of_cells. cbn [fst snd]. lia.
Qed.

Lemma completes_check g grid :
  valid_solution g →
  Forall (λ rc, (1 ≤ grid_at grid rc.1 rc.2 ≤ 9)%Z →
                grid_at g rc.1 rc.2 = grid_at grid rc.1 rc.2) cells →
  completes g grid.
Proof.
  intros Hvalid Hall. split; [done|]. intros rc v Hrc [<- Hv].
  rewrite Forall_forall in Hall. by apply Hall.
Qed.

Lemma valid_solution_puzzle_solution : valid_solution puzzle_solution.
Proof. apply (bool_decide_unpack _). vm_compute. exact I. Defined.

Section Search_theorems.
Context {O : SetOrder}.

(** X4: [ac3] never discards the value of a solution.  When some choice of
    one candidate per cell puts no value twice among peers, [ac3] returns
    [True] and every chosen value is still a candidate afterwards. *)
Theorem ac3_never_discards_a_solution (s : cell → Z) d :
  no_conflict s → within s d →
  ∃ d', ac3 d = Done (true, d') ∧ within s d'.
Proof. apply ac3_keeps_solution. Qed.

(** X5: [assign_and_propagate] returns [None] when a peer of [var] has
    exactly [{value}] as its domain.  In a dictionary it returns, [var]
    holds [{value}], no peer of [var] holds [value], every other domain is
    included in the caller's and is empty only if it was, and no arc can
    prune any more. *)
Theorem assign_and_propagate_result var value d :
  var ∈ cells →
  ∃ r, assign_and_propagate var value d = Done r
    ∧ ((∃ p, p ∈ peers var ∧ dom_of d p = {[value]}) → r = None)
    ∧ ∀ nd, r = Some nd →
        dom_of nd var = {[value]}
        ∧ (∀ p, p ∈ peers var → value ∉ dom_of nd p)
        ∧ (∀ c, c ≠ var → dom_of nd c ⊆ dom_of d c)
        ∧ (∀ c, c ≠ var → dom_of d c ≠ ∅ → dom_of nd c ≠ ∅)
        ∧ arc_consistent nd.
Proof.
  intros Hvar.
  destruct (assign_and_propagate_spec var value d Hvar) as (r & Hr & Hspec).
  exists r. split; [done|]. split.
  - intros (p & Hp & Heq). unfold assign_and_propagate in Hr.
    destruct (forward_check value (iter_peers var) (<[var := {[value]}]> d))
      as [d2|] eqn:Hfc; [|by injection Hr as <-].
    assert (forward_check value (iter_peers var) (<[var := {[value]}]> d)
            = None) as Hnone; [|congruence].
    apply forward_check_None. exists p. split; [by apply elem_of_iter_peers|].
    rewrite dom_of_insert_ne; [done|]. by apply peers_ne.
  - intros nd Hnd. destruct (Hspec nd Hnd) as (H1 & H2 & H3 & H4 & H5).
    done.
Qed.

(** X6: assigning to a cell the value that a solution gives it never fails:
    [assign_and_propagate] returns a dictionary, and every value of the
    solution is still a candidate in it. *)
Theorem assign_and_propagate_keeps_a_solution (s : cell → Z) var d :
  no_conflict s → within s d → var ∈ cells →
  ∃ nd, assign_and_propagate var (s var) d = Done (Some nd) ∧ within s nd.
Proof. apply assign_and_propagate_keeps_solution. Qed.

(** X7: on a dictionary in which no arc can prune, [backtrack] is sound and
    complete.  A dictionary it returns holds one value per cell, chosen
    among the caller's candidates, with no value twice among peers; and it
    returns [None] exactly when the caller's candidates admit no such
    choice. *)
Theorem backtrack_finds_a_solution_iff_one_exists d :
  arc_consistent d →
  ∃ r, backtrack 81 d = Done r
    ∧ (∀ sol, r = Some sol →
         ∃ s, no_conflict s ∧ within s d
              ∧ ∀ c, c ∈ cells → dom_of sol c = {[s c]})
    ∧ (r = None ↔ ¬ ∃ s, no_conflict s ∧ within s d).
Proof.
  intros Hcons.
  destruct (backtrack_returns 81 d (count_open_le_81 d)) as [r Hr].
  exists r. split; [done|].
  assert (∀ sol, r = Some sol →
            ∃ s, no_conflict s ∧ within s d
                 ∧ ∀ c, c ∈ cells → dom_of sol c = {[s c]}) as Hsound.
  { intros sol ->. apply backtrack_sound in Hr as (Hsolved & Hsh & Hc).
    destruct (solved_no_conflict sol Hsolved (Hc Hcons)) as (s & Hs & Hin & Hv).
    exists s. split_and!; [done| |done].
    intros c Hc'. by apply Hsh, Hin. }
  split; [done|]. split.
  - intros -> (s & Hs & Hin).
    destruct (backtrack_complete s 81 d Hs Hin (count_open_le_81 d)) as [sol ?].
    congruence.
  - intros Hno. destruct r as [sol|]; [|done]. destruct Hno.
    destruct (Hsound sol eq_refl) as (s & ? & ? & _). by exists s.
Qed.

(** X8: for every 9x9 grid, a grid that [solve] returns solves the puzzle
    (it is valid and keeps every clue), and [solve] returns [None] exactly
    when no grid solves the puzzle. *)
Theorem solve_finds_a_solution_iff_one_exists grid :
  is_9x9 grid →
  ∃ self, new_SudokuCSP grid = inr self ∧
    ∃ r, solve self = Done r
      ∧ (∀ g, r = Some g → completes g grid)
      ∧ (r = None ↔ ¬ ∃ g, completes g grid).
Proof.
  intros Hg. eexists. split; [by apply new_SudokuCSP_9x9|].
  destruct (solve_complete grid) as (r & Hr & Hsound & Hcomplete).
  exists r. split; [done|]. split; [done|]. split.
  - intros -> Hex. by destruct (Hcomplete Hex).
  - intros Hno. destruct r as [g|]; [|done]. destruct Hno.
    exists g. by apply Hsound.
Qed.

(** X9: when exactly one grid solves the puzzle, [solve] returns that
    grid. *)
Theorem solve_returns_the_unique_solution grid g :
  is_9x9 grid → completes g grid → (∀ g', completes g' grid → g' = g) →
  ∃ self, new_SudokuCSP grid = inr self ∧ solve self = Done (Some g).
Proof.
  intros Hg Hcomp Huniq. eexists. split; [by apply new_SudokuCSP_9x9|].
  destruct (solve_complete grid) as (r & Hr & Hsound & Hcomplete).
  destruct Hcomplete as [g' ->]; [by exists g|].
  by rewrite Hr, (Huniq g' (Hsound g' eq_refl)).
Qed.

(** X10: on a complete valid grid [solve] returns the grid itself. *)
Theorem solve_returns_a_solved_grid_unchanged grid :
  valid_solution grid →
  ∃ self, new_SudokuCSP grid = inr self ∧ solve self = Done (Some grid).
Proof.
  intros Hvalid. pose proof Hvalid as [Hg _].
  eexists. split; [by apply new_SudokuCSP_9x9|].
  destruct (solve_complete grid) as (r & Hr & Hsound & Hcomplete).
  destruct Hcomplete as [g' ->].
  { exists grid. split; [done|]. by intros rc v _ [<- _]. }
  rewrite Hr. do 2 f_equal.
  destruct (Hsound g' eq_refl) as [[Hg' Hunits] Hclues].
  apply grid_ext; [done..|]. intros rc Hrc. apply Hclues; [done|].
  split; [done|].
  by apply (proj2 (valid_solution_no_conflict grid Hvalid)).
Qed.

(** X11: when two peers (two cells of a row, a column or a box) hold the same
    clue, [solve] returns [None]. *)
Theorem solve_rejects_equal_clues_in_peers grid xi xj v :
  is_9x9 grid → xi ∈ cells → xj ∈ peers xi →
  clue grid xi v → clue grid xj v →
  ∃ self, new_SudokuCSP grid = inr self ∧ solve self = Done None.
Proof.
  intros Hg Hxi Hxj Hi Hj. eexists. split; [by apply new_SudokuCSP_9x9|].
  destruct (solve_complete grid) as (r & Hr & Hsound & _).
  rewrite Hr. destruct r as [g|]; [exfalso|done].
  destruct (Hsound g eq_refl) as [Hvalid Hclues].
  apply valid_solution_no_conflict in Hvalid as [Hs _].
  apply (Hs xi xj Hxi Hxj). unfold cell_values.
  by rewrite (Hclues xi v Hxi Hi), (Hclues xj v (peers_cells _ _ Hxi Hxj) Hj).
Qed.

(** X12: a 9x9 grid without clues, the empty grid for one, is filled:
    [solve] returns a valid grid. *)
Theorem solve_fills_a_grid_without_clues grid :
  is_9x9 grid →
  (∀ rc, rc ∈ cells → ¬ (1 ≤ grid_at grid rc.1 rc.2 ≤ 9)%Z) →
  ∃ self, new_SudokuCSP grid = inr self ∧
    ∃ g, solve self = Done (Some g) ∧ valid_solution g.
Proof.
  intros Hg Hblank. eexists. split; [by apply new_SudokuCSP_9x9|].
  destruct (solve_complete grid) as (r & Hr & Hsound & Hcomplete).
  destruct Hcomplete as [g ->].
  { exists puzzle_solution. split; [exact valid_solution_puzzle_solution|].
    intros rc v Hrc [<- Hv]. by destruct (Hblank rc Hrc). }
  exists g. split; [done|]. by destruct (Hsound g eq_refl).
Qed.

End Search_theorems.

(** X13: the order in which Python iterates over the sets of peers decides
    the order of the worklist of [ac3], but not its result: the flag is the
    same for any two orders, and so is the dictionary when the flag is
    [True]. *)
Theorem ac3_does_not_depend_on_the_set_order (O1 O2 : SetOrder) d :
  ∃ b d1 d2, ac3 (O := O1) d = Done (b, d1)
             ∧ ac3 (O := O2) d = Done (b, d2)
             ∧ (b = true → d1 = d2).
Proof. apply ac3_order. Qed.

(** X14: what [order_domain_values], [assign_and_propagate], [backtrack],
    the constructor and [solve] return does not depend on the order in which
    Python iterates over sets. *)
Theorem search_does_not_depend_on_the_set_order (O1 O2 : SetOrder) :
  (∀ var d,
     order_domain_values (O := O1) var d = order_domain_values (O := O2) var d)
  ∧ (∀ var value d,
       assign_and_propagate (O := O1) var value d
       = assign_and_propagate (O := O2) var value d)
  ∧ (∀ depth d, backtrack (O := O1) depth d = backtrack (O := O2) depth d)
  ∧ (∀ g, new_SudokuCSP (O := O1) g = new_SudokuCSP (O := O2) g)
  ∧ (∀ self, solve (O := O1) self = solve (O := O2) self).
Proof.
  split_and!.
  - apply order_domain_values_order.
  - apply assign_and_propagate_order.
  - apply backtrack_order.
  - intros g. apply (solve_order O1 O2 g).
  - apply (solve_order O1 O2 []).
Qed.

(** ** Empty domains, and calls in a row *)

Section Empty_domain.
Context {O : SetOrder}.

(** The search has no test for an empty domain, but a dictionary with one
    is never solved. *)
Lemma backtrack_empty_domain depth d c :
  c ∈ cells → dom_of d c = ∅ → count_open d ≤ depth →
  backtrack depth d = Done None.
Proof.
  intros Hc Hempty Hcount.
  destruct (backtrack_returns depth d Hcount) as [[sol|] Hr]; [exfalso|done].
  apply backtrack_sound in Hr as (Hsolved & Hsh & _).
  rewrite is_solved_spec in Hsolved. specialize (Hsolved c Hc).
  apply size_1_elem_of in Hsolved as [v Hv%leibniz_equiv].
  assert (v ∈ dom_of d c) as Hin.
  { apply Hsh. rewrite Hv. by apply elem_of_singleton. }
  rewrite Hempty in Hin. by apply elem_of_empty in Hin.
Qed.

Lemma solve_empty_domain self c :
  c ∈ cells → dom_of (domains self) c = ∅ → solve self = Done None.
Proof.
  intros Hc Hempty. unfold solve.
  destruct (ac3_returns (domains self)) as (b & d & -> & Hsh & _).
  destruct b; [|done].
  rewrite (backtrack_empty_domain 81 d c Hc); [done| |apply count_open_le_81].
  apply set_eq. intros v. split; [|by intros ?%elem_of_empty].
  intros Hv%Hsh. by rewrite Hempty in Hv.
Qed.

(** X15: [solve] has no test for an empty domain, and [ac3] reports one only
    when it empties it itself; still, when a cell of the solver's dictionary
    has no candidate, [solve] returns [None]. *)
Theorem solve_returns_none_on_an_empty_domain self c :
  c ∈ cells → dom_of (domains self) c = ∅ → solve self = Done None.
Proof. apply solve_empty_domain. Qed.

(** X16: [ac3] called without argument prunes the solver's own dictionary.
    Whether that call succeeds or fails, [solve] on the dictionary it leaves
    returns what [solve] returns on the dictionary as it was. *)
Theorem solve_after_ac3 g d :
  ∃ b d', ac3 d = Done (b, d')
    ∧ solve {| grid := g; domains := d' |}
      = solve {| grid := g; domains := d |}.
Proof.
  destruct (ac3_returns d) as (b & d' & Hrun & Hsh & _ & Hpost).
  exists b, d'. split; [done|]. destruct b.
  - destruct Hpost as [Hcons _]. unfold solve. cbn [domains].
    by rewrite Hrun, (ac3_consistent d' Hcons).
  - destruct Hpost as (c & Hc & _ & Hempty).
    rewrite (solve_empty_domain {| grid := g; domains := d' |} c Hc Hempty).
    unfold solve. cbn [domains]. by rewrite Hrun.
Qed.

End Empty_domain.

Section Store_theorems.
Context {O : SetOrder}.

Lemma revise_sets d xi xj h b h' :
  Store.revise d xi xj h = (b, h') →
  length (Store.sets h') = length (Store.sets h)
  ∧ ∀ a, (∀ c, Store.dict_at h d !! c ≠ Some a) →
      Store.sets h' !! a = Store.sets h !! a.
Proof.
  unfold Store.revise. case_decide; [by intros [= <- <-]|].
  destruct (Store.dict_at h d !! xi) as [a0|] eqn:Hxi; [|by intros [= <- <-]].
  intros [= <- <-]. cbn [Store.set_update Store.sets]. split.
  - by rewrite length_insert.
  - intros a Ha. apply list_lookup_insert_ne. intros ->. by apply (Ha xi).
Qed.

Lemma ac3_loop_sets fuel d h q b h' :
  Store.ac3_loop fuel d h q = Done (b, h') →
  length (Store.sets h') = length (Store.sets h)
  ∧ ∀ a, (∀ c, Store.dict_at h d !! c ≠ Some a) →
      Store.sets h' !! a = Store.sets h !! a.
Proof.
  revert h q. induction fuel as [|fuel IH]; intros h q.
  { destruct q as [|[xi xj] q]; [|done]. by intros [= <- <-]. }
  destruct q as [|[xi xj] q]; [by intros [= <- <-]|]. cbn [Store.ac3_loop].
  destruct (Store.revise d xi xj h) as [revised h1] eqn:Hrev.
  pose proof (revise_frame _ _ _ _ _ _ Hrev) as (Hdicts & _).
  apply revise_sets in Hrev as [Hlen Hsets].
  assert (Store.dict_at h1 d = Store.dict_at h d) as Hd.
  { unfold Store.dict_at. by rewrite Hdicts. }
  assert (∀ h2, length (Store.sets h2) = length (Store.sets h1)
                ∧ (∀ a, (∀ c, Store.dict_at h1 d !! c ≠ Some a) →
                     Store.sets h2 !! a = Store.sets h1 !! a) →
            length (Store.sets h2) = length (Store.sets h)
            ∧ ∀ a, (∀ c, Store.dict_at h d !! c ≠ Some a) →
                Store.sets h2 !! a = Store.sets h !! a) as Hstep.
  { intros h2 [Hl2 Hs2]. split; [congruence|]. intros a Ha.
    rewrite Hs2, Hsets; [done..|]. by rewrite Hd. }
  destruct revised.
  - case_decide.
    + intros [= <- <-]. by split.
    + intros Hrun%IH. by apply Hstep.
  - intros Hrun%IH. by apply Hstep.
Qed.

(** X17: [ac3] works in place.  It computes the pruned domains in the sets
    of the dictionary it is given, allocates no object, rebinds no key of
    any dictionary and leaves every set that its dictionary does not bind as
    it was. *)
Theorem ac3_updates_its_dictionary_in_place d h :
  Store.separated h d →
  ∃ b h', Store.ac3 d h = Done (b, h')
    ∧ ac3 (Store.value_of h d) = Done (b, Store.value_of h' d)
    ∧ Store.dicts h' = Store.dicts h
    ∧ length (Store.sets h') = length (Store.sets h)
    ∧ ∀ a, (∀ c, Store.dict_at h d !! c ≠ Some a) →
        Store.sets h' !! a = Store.sets h !! a.
Proof.
  intros Hsep.
  destruct (ac3_refines d h Hsep) as (b & h' & Hrun & Hval & _ & Hdicts & _).
  exists b, h'. split_and!; [done..| |];
    by apply (ac3_loop_sets _ _ _ _ _ _ Hrun).
Qed.

(** X18: [solve] works on a deep copy.  It leaves every object of the caller
    as it was, [self.domains] included, so that a second call returns the
    same result; and that result is the one computed on values. *)
Theorem solve_leaves_the_solver_unchanged g self_domains h :
  Store.separated h self_domains →
  ∃ r h', Store.solve self_domains h = Done (r, h')
    ∧ solve {| grid := g; domains := Store.value_of h self_domains |}
      = Done r
    ∧ Store.preserved h h'
    ∧ Store.value_of h' self_domains = Store.value_of h self_domains
    ∧ ∃ h'', Store.solve self_domains h' = Done (r, h'').
Proof.
  intros Hsep.
  destruct (store_solve_refines g self_domains h Hsep)
    as (r & h' & Hrun & Hval & Hpres).
  exists r, h'. split_and!; [done..| |].
  - apply preserved_value_of; [done|by destruct Hsep].
  - destruct (store_solve_refines g self_domains h'
                (separated_preserved _ _ _ Hpres Hsep))
      as (r' & h'' & Hrun' & Hval' & _).
    rewrite (preserved_value_of h h') in Hval';
      [|done|by destruct Hsep].
    exists h''. congruence.
Qed.

End Store_theorems.

(** ** The utilities *)

(** *** The readers *)

Section Reader_facts.
Context {B : Builtins} {F : FileSystem}.

Lemma parse_tokens_spec clean parts row :
  parse_tokens clean parts = inr row →
  Forall2 (λ p v, token_value (clean p) = inr v) parts row.
Proof.
  revert row. induction parts as [|p parts IH]; intros row; cbn [parse_tokens].
  { intros [= <-]. constructor. }
  destruct (token_value (clean p)) as [e|v] eqn:Hp; [done|].
  destruct (parse_tokens clean parts) as [e|row'] eqn:Hrest; [done|].
  intros [= <-]. constructor; [done|]. by apply IH.
Qed.

Lemma parse_tokens_length clean parts row :
  parse_tokens clean parts = inr row → length row = length parts.
Proof. intros H%parse_tokens_spec. symmetry. by eapply Forall2_length. Qed.

(** Tokens that are blank marks or that [int] reads make a row. *)
Lemma parse_tokens_complete clean parts row :
  Forall2 (λ p v, token_value (clean p) = inr v) parts row →
  parse_tokens clean parts = inr row.
Proof.
  induction 1 as [|p v parts row Hp _ IH]; cbn [parse_tokens]; [done|].
  by rewrite Hp, IH.
Qed.

(** The rows that the loop of the text reader appends. *)
Lemma txt_lines_spec lines fail grid0 grid :
  txt_lines lines fail grid0 = inr grid →
  fail = None
  ∧ ∃ rows, grid = grid0 ++ rows
      ∧ Forall2 (λ line row, length (txt_parts line) = 9
                             ∧ parse_tokens id (txt_parts line) = inr row)
          (filter (λ line, line ≠ "") (map str_strip lines)) rows.
Proof.
  revert grid0. induction lines as [|line lines IH]; intros grid0;
    cbn [txt_lines map].
  { destruct fail; [done|]. intros [= <-]. split; [done|].
    exists []. split; [by rewrite app_nil_r|constructor]. }
  rewrite filter_cons. case_bool_decide as Hblank.
  { rewrite decide_False by (by intros ?). apply IH. }
  rewrite decide_True by done.
  case_bool_decide as Hlen; [done|].
  destruct (parse_tokens id (txt_parts (str_strip line))) as [e|row] eqn:Hrow;
    [done|].
  intros (Hfail & rows & -> & Hrows)%IH. split; [done|].
  exists (row :: rows). split; [by rewrite <- app_assoc|].
  constructor; [|done]. split; [lia|done].
Qed.

Lemma txt_lines_blank l1 blank l2 fail grid :
  str_strip blank = "" →
  txt_lines (l1 ++ blank :: l2) fail grid = txt_lines (l1 ++ l2) fail grid.
Proof.
  intros Hblank. revert grid. induction l1 as [|line l1 IH]; intros grid.
  { cbn [app txt_lines]. by rewrite bool_decide_eq_true_2. }
  cbn [app txt_lines]. case_bool_decide; [done|].
  case_bool_decide; [done|].
  destruct (parse_tokens id (txt_parts (str_strip line))); [done|]. apply IH.
Qed.

Lemma txt_lines_complete lines grid0 rows :
  Forall2 (λ line row, length (txt_parts line) = 9
                       ∧ parse_tokens id (txt_parts line) = inr row)
    (filter (λ line, line ≠ "") (map str_strip lines)) rows →
  txt_lines lines None grid0 = inr (grid0 ++ rows).
Proof.
  revert grid0 rows. induction lines as [|line lines IH]; intros grid0 rows;
    cbn [txt_lines map].
  { rewrite filter_nil. intros ->%Forall2_nil_inv_l. by rewrite app_nil_r. }
  rewrite filter_cons. case_bool_decide as Hblank.
  { rewrite decide_False by (by intros ?). apply IH. }
  rewrite decide_True by done.
  intros (row & rows' & [Hlen Hrow] & Hrest & ->)%Forall2_cons_inv_l.
  rewrite bool_decide_eq_false_2 by lia. rewrite Hrow.
  rewrite (IH _ _ Hrest). by rewrite <- app_assoc.
Qed.

Lemma csv_rows_spec rows fail grid0 grid :
  csv_rows rows fail grid0 = inr grid →
  fail = None
  ∧ ∃ parsed, grid = grid0 ++ parsed
      ∧ Forall2 (λ row values, length row = 9
                               ∧ parse_tokens str_strip row = inr values)
          (filter (λ row, csv_blank row = false) rows) parsed.
Proof.
  revert grid0. induction rows as [|row rows IH]; intros grid0;
    cbn [csv_rows].
  { destruct fail; [done|]. intros [= <-]. split; [done|].
    exists []. split; [by rewrite app_nil_r|constructor]. }
  rewrite filter_cons. destruct (csv_blank row) eqn:Hblank.
  { rewrite decide_False by done. apply IH. }
  rewrite decide_True by done.
  case_bool_decide as Hlen; [done|].
  destruct (parse_tokens str_strip row) as [e|values] eqn:Hrow; [done|].
  intros (Hfail & parsed & -> & Hrows)%IH. split; [done|].
  exists (values :: parsed). split; [by rewrite <- app_assoc|].
  constructor; [|done]. split; [lia|done].
Qed.

Lemma rows_9x9 {A} (P : A → list Z → Prop) (l : list A) (g : list (list Z)) :
  (∀ a row, P a row → length row = 9) →
  Forall2 P l g → length g = 9 → is_9x9 g.
Proof.
  intros HP Hall Hlen. split; [done|].
  apply Forall_forall. intros row Hrow.
  apply list_elem_of_lookup in Hrow as [i Hi].
  destruct (Forall2_lookup_r _ _ _ _ _ Hall Hi) as (a & _ & Ha).
  by eapply HP.
Qed.

Lemma read_puzzle_from_txt_9x9 path g :
  read_puzzle_from_txt path = inr g → is_9x9 g.
Proof.
  unfold read_puzzle_from_txt.
  destruct (open_text path) as [e|f]; [done|].
  destruct (txt_lines (yields f) (then_raises f) []) as [e|g'] eqn:Hloop; [done|].
  case_bool_decide as Hlen; [done|]. intros [= ->].
  apply txt_lines_spec in Hloop as (Hfail & rows & -> & Hrows).
  rewrite app_nil_l in *.
  eapply rows_9x9; [|exact Hrows|lia].
  intros line row [Hl Hrow%parse_tokens_length]. lia.
Qed.

Lemma read_puzzle_from_csv_9x9 path g :
  read_puzzle_from_csv path = inr g → is_9x9 g.
Proof.
  unfold read_puzzle_from_csv.
  destruct (open_csv path) as [e|f]; [done|].
  destruct (csv_rows (yields f) (then_raises f) []) as [e|g'] eqn:Hloop; [done|].
  case_bool_decide as Hlen; [done|]. intros [= ->].
  apply csv_rows_spec in Hloop as (Hfail & rows & -> & Hrows).
  rewrite app_nil_l in *.
  eapply rows_9x9; [|exact Hrows|lia].
  intros line row [Hl Hrow%parse_tokens_length]. lia.
Qed.

(** X19: a grid that [read_puzzle_from_txt] returns is 9x9, so the
    constructor accepts it.  The file was read to its end without an
    exception; it has nine lines that are not blank, and row by row the
    grid holds 0 for a token among ['0'], ['.'] and what [int] reads for any
    other token. *)
Theorem read_puzzle_from_txt_returns_a_9x9_grid path g :
  read_puzzle_from_txt path = inr g →
  is_9x9 g
  ∧ (∀ O : SetOrder, ∃ self, new_SudokuCSP g = inr self)
  ∧ ∃ f, open_text path = inr f ∧ then_raises f = None
      ∧ Forall2 (λ line row,
                   Forall2 (λ p v, token_value p = inr v) (txt_parts line) row)
          (filter (λ line, line ≠ "") (map str_strip (yields f))) g.
Proof.
  unfold read_puzzle_from_txt.
  destruct (open_text path) as [e|f]; [done|].
  destruct (txt_lines (yields f) (then_raises f) []) as [e|g'] eqn:Hloop; [done|].
  case_bool_decide as Hlen; [done|]. intros [= ->].
  apply txt_lines_spec in Hloop as (Hfail & rows & -> & Hrows).
  rewrite app_nil_l in *.
  assert (is_9x9 rows) as Hg.
  { eapply rows_9x9; [|exact Hrows|lia].
    intros line row [Hl Hrow%parse_tokens_length]. lia. }
  split; [done|]. split.
  { intros O. eexists. by apply new_SudokuCSP_9x9. }
  exists f. split_and!; [done..|].
  eapply Forall2_impl; [exact Hrows|].
  intros line row [_ Hrow%parse_tokens_spec]. done.
Qed.

(** X20: a line that [strip] empties does not count: a file and the same
    file without that line are read alike, to the same grid or the same
    exception. *)
Theorem read_puzzle_from_txt_skips_blank_lines (F1 F2 : FileSystem)
    path1 path2 l1 blank l2 fail :
  str_strip blank = "" →
  open_text (FileSystem := F1) path1
  = inr {| yields := l1 ++ blank :: l2; then_raises := fail |} →
  open_text (FileSystem := F2) path2
  = inr {| yields := l1 ++ l2; then_raises := fail |} →
  read_puzzle_from_txt (F := F1) path1 = read_puzzle_from_txt (F := F2) path2.
Proof.
  intros Hblank H1 H2. unfold read_puzzle_from_txt. rewrite H1, H2.
  cbn [yields then_raises]. by rewrite txt_lines_blank.
Qed.

(** X21: when every line that is not blank has nine tokens that are blank
    marks or that [int] reads, [read_puzzle_from_txt] returns their rows if
    there are nine of them, and raises ['File must contain 9 non-empty
    rows'] otherwise. *)
Theorem read_puzzle_from_txt_counts_the_rows path f rows :
  open_text path = inr f → then_raises f = None →
  Forall2 (λ line row, length (txt_parts line) = 9
                       ∧ parse_tokens id (txt_parts line) = inr row)
    (filter (λ line, line ≠ "") (map str_strip (yields f))) rows →
  read_puzzle_from_txt path
  = if bool_decide (length rows = 9) then inr rows
    else inl (ValueError "File must contain 9 non-empty rows").
Proof.
  intros Hopen Hfail Hrows. unfold read_puzzle_from_txt.
  rewrite Hopen, Hfail, (txt_lines_complete _ [] rows Hrows), app_nil_l.
  case_bool_decide; [by rewrite bool_decide_eq_false_2|].
  by rewrite bool_decide_eq_true_2.
Qed.

Lemma txt_lines_app l1 lines fail grid0 rows :
  Forall2 (λ line row, length (txt_parts line) = 9
                       ∧ parse_tokens id (txt_parts line) = inr row)
    (filter (λ line, line ≠ "") (map str_strip l1)) rows →
  txt_lines (l1 ++ lines) fail grid0 = txt_lines lines fail (grid0 ++ rows).
Proof.
  revert grid0 rows. induction l1 as [|line l1 IH]; intros grid0 rows;
    cbn [app txt_lines map].
  { rewrite filter_nil. intros ->%Forall2_nil_inv_l. by rewrite app_nil_r. }
  rewrite filter_cons. case_bool_decide as Hblank.
  { rewrite decide_False by (by intros ?). apply IH. }
  rewrite decide_True by done.
  intros (row & rows' & [Hlen Hrow] & Hrest & ->)%Forall2_cons_inv_l.
  rewrite bool_decide_eq_false_2 by lia. rewrite Hrow.
  rewrite (IH _ _ Hrest). by rewrite <- app_assoc.
Qed.

(** X22: the first line that is not well formed decides the exception of
    [read_puzzle_from_txt], whatever follows it in the file.  After lines
    that are blank or hold nine readable tokens, a line with a number of
    tokens other than nine raises ['Each line must have 9 values (use 0 or .
    for empty)'], and a line of nine tokens one of which [int] rejects
    raises the [ValueError] of [int]. *)
Theorem read_puzzle_from_txt_reports_the_first_bad_line
    path f l1 line l2 rows :
  open_text path = inr f → yields f = l1 ++ line :: l2 →
  Forall2 (λ line row, length (txt_parts line) = 9
                       ∧ parse_tokens id (txt_parts line) = inr row)
    (filter (λ line, line ≠ "") (map str_strip l1)) rows →
  str_strip line ≠ "" →
  (length (txt_parts (str_strip line)) ≠ 9 →
   read_puzzle_from_txt path
   = inl (ValueError "Each line must have 9 values (use 0 or . for empty)"))
  ∧ (∀ e, length (txt_parts (str_strip line)) = 9 →
       parse_tokens id (txt_parts (str_strip line)) = inl e →
       read_puzzle_from_txt path = inl e).
Proof.
  intros Hopen Hf Hrows Hline. unfold read_puzzle_from_txt.
  rewrite Hopen, Hf, (txt_lines_app _ _ _ _ _ Hrows). cbn [txt_lines].
  rewrite (bool_decide_eq_false_2 (str_strip line = "")) by done. split.
  - intros Hlen. by rewrite bool_decide_eq_true_2.
  - intros e Hlen He. rewrite bool_decide_eq_false_2 by lia. by rewrite He.
Qed.

(** X23: a grid that [read_puzzle_from_csv] returns is 9x9, so the
    constructor accepts it.  The rows were read to the end without an
    exception; nine of them have a cell that is not blank, and cell by cell
    the grid holds 0 for a field that strips to [''], ['0'] or ['.'] and
    what [int] reads for any other field. *)
Theorem read_puzzle_from_csv_returns_a_9x9_grid path g :
  read_puzzle_from_csv path = inr g →
  is_9x9 g
  ∧ (∀ O : SetOrder, ∃ self, new_SudokuCSP g = inr self)
  ∧ ∃ f, open_csv path = inr f ∧ then_raises f = None
      ∧ Forall2 (λ row values,
                   Forall2 (λ p v, token_value (str_strip p) = inr v)
                     row values)
          (filter (λ row, csv_blank row = false) (yields f)) g.
Proof.
  unfold read_puzzle_from_csv.
  destruct (open_csv path) as [e|f]; [done|].
  destruct (csv_rows (yields f) (then_raises f) []) as [e|g'] eqn:Hloop; [done|].
  case_bool_decide as Hlen; [done|]. intros [= ->].
  apply csv_rows_spec in Hloop as (Hfail & rows & -> & Hrows).
  rewrite app_nil_l in *.
  assert (is_9x9 rows) as Hg.
  { eapply rows_9x9; [|exact Hrows|lia].
    intros line row [Hl Hrow%parse_tokens_length]. lia. }
  split; [done|]. split.
  { intros O. eexists. by apply new_SudokuCSP_9x9. }
  exists f. split_and!; [done..|].
  eapply Forall2_impl; [exact Hrows|].
  intros line row [_ Hrow%parse_tokens_spec]. done.
Qed.

Lemma csv_rows_blank l1 blank l2 fail grid :
  csv_blank blank = true →
  csv_rows (l1 ++ blank :: l2) fail grid = csv_rows (l1 ++ l2) fail grid.
Proof.
  intros Hblank. revert grid. induction l1 as [|row l1 IH]; intros grid.
  { cbn [app csv_rows]. by rewrite Hblank. }
  cbn [app csv_rows]. destruct (csv_blank row); [done|].
  case_bool_decide; [done|].
  destruct (parse_tokens str_strip row); [done|]. apply IH.
Qed.

(** X24: a CSV row all of whose cells strip to the empty string does not
    count, whatever its number of columns: a file and the same file without
    that row are read alike, to the same grid or the same exception. *)
Theorem read_puzzle_from_csv_skips_blank_rows (F1 F2 : FileSystem)
    path1 path2 l1 blank l2 fail :
  Forall (λ cell, str_strip cell = "") blank →
  open_csv (FileSystem := F1) path1
  = inr {| yields := l1 ++ blank :: l2; then_raises := fail |} →
  open_csv (FileSystem := F2) path2
  = inr {| yields := l1 ++ l2; then_raises := fail |} →
  read_puzzle_from_csv (F := F1) path1 = read_puzzle_from_csv (F := F2) path2.
Proof.
  intros Hblank H1 H2. unfold read_puzzle_from_csv. rewrite H1, H2.
  cbn [yields then_raises]. rewrite csv_rows_blank; [done|].
  unfold csv_blank. apply negb_true_iff, not_true_iff_false.
  intros (cell & Hin%list_elem_of_In & Hcell%bool_decide_eq_true)%existsb_exists.
  rewrite Forall_forall in Hblank. by apply Hcell, Hblank.
Qed.

(** *** [print_grid] and the script *)

Lemma in_2_5 (n : nat) :
  bool_decide (n ∈ [2; 5]) = bool_decide (n = 2 ∨ n = 5).
Proof.
  apply bool_decide_ext. rewrite !elem_of_cons, elem_of_nil. tauto.
Qed.

Lemma print_row_Some row cs line :
  Forall (λ c, c < length row) cs → is_Some (print_row row cs line).
Proof.
  revert line. induction cs as [|c cs IH]; intros line Hcs; cbn [print_row];
    [by eexists|].
  apply Forall_cons in Hcs as [Hc Hcs].
  destruct (lookup_lt_is_Some_2 row c Hc) as [v ->]. by apply IH.
Qed.

Lemma print_row_None row cs line :
  Exists (λ c, length row ≤ c) cs → print_row row cs line = None.
Proof.
  revert line. induction cs as [|c cs IH]; intros line Hcs; cbn [print_row];
    [by apply Exists_nil in Hcs|].
  destruct (row !! c) as [v|] eqn:Hv; [|done].
  apply Exists_cons in Hcs as [Hc|Hcs]; [|by apply IH].
  apply lookup_lt_Some in Hv. lia.
Qed.

Lemma print_row_9 row :
  print_row row (seq 0 9) "" = None ↔ length row < 9.
Proof.
  split.
  - intros Hnone. destruct (decide (length row < 9)) as [|Hge]; [done|].
    destruct (print_row_Some row (seq 0 9) "") as [line Hline]; [|congruence].
    apply Forall_forall. intros c Hc%elem_of_seq. lia.
  - intros Hlt. apply print_row_None. apply Exists_exists.
    exists (length row). split; [|done]. apply elem_of_seq. lia.
Qed.

Lemma print_rows_raises g rs out :
  (print_rows g rs out).2 = None ∨ (print_rows g rs out).2 = Some IndexError.
Proof.
  revert out. induction rs as [|r rs IH]; intros out; cbn [print_rows];
    [by left|].
  destruct (g !! r) as [row|]; [|by right].
  destruct (print_row row (seq 0 9) ""); [|by right]. apply IH.
Qed.

Lemma print_rows_None g rs out :
  (print_rows g rs out).2 = None ↔
  Forall (λ r, ∃ row, g !! r = Some row ∧ 9 ≤ length row) rs.
Proof.
  revert out. induction rs as [|r rs IH]; intros out; cbn [print_rows].
  { split; [constructor|done]. }
  rewrite Forall_cons. destruct (g !! r) as [row|] eqn:Hrow.
  - destruct (print_row row (seq 0 9) "") as [line|] eqn:Hline.
    + rewrite IH. split; [|tauto]. intros Hrs. split; [|done].
      exists row. split; [done|].
      destruct (decide (length row < 9)) as [Hlt%print_row_9|]; [|lia].
      congruence.
    + apply print_row_9 in Hline. split; [done|].
      intros [(row' & [= <-] & ?) _]. lia.
  - split; [done|]. by intros [(row' & ? & _) _].
Qed.

Lemma printable_lookup g :
  printable g ↔
  Forall (λ r, ∃ row, g !! r = Some row ∧ 9 ≤ length row) (seq 0 9).
Proof.
  unfold printable. rewrite !Forall_forall. split.
  - intros [Hlen Hrows] r Hr%elem_of_seq.
    destruct (lookup_lt_is_Some_2 g r) as [row Hrow]; [lia|].
    exists row. split; [done|]. apply Hrows.
    apply list_elem_of_lookup. exists r. rewrite lookup_take_lt by lia. done.
  - intros Hall. split.
    + destruct (Hall 8) as (row & Hrow%lookup_lt_Some & _); [|lia].
      apply elem_of_seq. lia.
    + intros row [r Hr]%list_elem_of_lookup.
      pose proof (lookup_lt_Some _ _ _ Hr) as Hlt.
      rewrite length_take in Hlt.
      rewrite lookup_take_lt in Hr by lia.
      destruct (Hall r) as (row' & Hrow' & ?); [apply elem_of_seq; lia|].
      congruence.
Qed.

(** X25: [print_grid] raises [IndexError] exactly when the grid has fewer
    than nine rows or one of its first nine rows has fewer than nine
    entries; rows and entries beyond the ninth are ignored. *)
Theorem print_grid_raises_IndexError_on_a_short_grid g :
  (print_grid (Some g)).2
  = if decide (printable g) then None else Some IndexError.
Proof.
  unfold print_grid. case_decide as Hp.
  - apply print_rows_None. by apply printable_lookup.
  - destruct (print_rows_raises g (seq 0 9) []) as [Hnone|Herr]; [|done].
    destruct Hp. by apply printable_lookup, (print_rows_None g _ []).
Qed.

Lemma print_grid_printable g :
  printable g →
  ∃ out, print_grid (Some g) = (out, None)
    ∧ length out = 11
    ∧ out !! 3 = Some (str_mul "-" 21) ∧ out !! 7 = Some (str_mul "-" 21)
    ∧ ∀ r, r < 9 →
        ∃ row, g !! r = Some row
          ∧ print_row row (seq 0 9) "" = out !! (r + r / 3).
Proof.
  intros Hp%printable_lookup. rewrite Forall_forall in Hp.
  assert (∀ r, r < 9 → ∃ row line,
            g !! r = Some row ∧ print_row row (seq 0 9) "" = Some line) as H.
  { intros r Hr. destruct (Hp r) as (row & Hrow & Hlen);
      [apply elem_of_seq; lia|].
    destruct (print_row_Some row (seq 0 9) "") as [line Hline].
    { apply Forall_forall. intros c Hc%elem_of_seq. lia. }
    by exists row, line. }
  destruct (H 0) as (r0 & l0 & Hr0 & Hl0); [lia|].
  destruct (H 1) as (r1 & l1 & Hr1 & Hl1); [lia|].
  destruct (H 2) as (r2 & l2 & Hr2 & Hl2); [lia|].
  destruct (H 3) as (r3 & l3 & Hr3 & Hl3); [lia|].
  destruct (H 4) as (r4 & l4 & Hr4 & Hl4); [lia|].
  destruct (H 5) as (r5 & l5 & Hr5 & Hl5); [lia|].
  destruct (H 6) as (r6 & l6 & Hr6 & Hl6); [lia|].
  destruct (H 7) as (r7 & l7 & Hr7 & Hl7); [lia|].
  destruct (H 8) as (r8 & l8 & Hr8 & Hl8); [lia|].
  exists [l0; l1; l2; str_mul "-" 21; l3; l4; l5; str_mul "-" 21; l6; l7; l8].
  split.
  { unfold print_grid. change (seq 0 9) with [0; 1; 2; 3; 4; 5; 6; 7; 8] at 1.
    cbn [print_rows].
    rewrite Hr0, Hl0, Hr1, Hl1, Hr2, Hl2, Hr3, Hl3, Hr4, Hl4, Hr5, Hl5,
      Hr6, Hl6, Hr7, Hl7, Hr8, Hl8.
    reflexivity. }
  split; [done|]. split; [done|]. split; [done|].
  intros r Hr.
  assert (r = 0 ∨ r = 1 ∨ r = 2 ∨ r = 3 ∨ r = 4 ∨ r = 5 ∨ r = 6 ∨ r = 7
          ∨ r = 8) as Hcases by lia.
  destruct Hcases as [->|[->|[->|[->|[->|[->|[->|[->| ->]]]]]]]];
    eexists; (split; [eassumption|]); done.
Qed.

(** X26: for a grid with nine rows of nine entries or more, [print_grid]
    prints eleven lines: the nine rows in order, and a line of 21 dashes
    after the third and after the sixth row. *)
Theorem print_grid_prints_eleven_lines g :
  printable g →
  ∃ out, print_grid (Some g) = (out, None)
    ∧ length out = 11
    ∧ out !! 3 = Some (str_mul "-" 21) ∧ out !! 7 = Some (str_mul "-" 21)
    ∧ ∀ r, r < 9 →
        ∃ row, g !! r = Some row
          ∧ print_row row (seq 0 9) "" = out !! (r + r / 3).
Proof. apply print_grid_printable. Qed.

Lemma is_9x9_printable g : is_9x9 g → printable g.
Proof.
  intros [Hlen Hrows]. split; [lia|].
  apply Forall_forall. intros row Hrow%subseteq_take.
  rewrite Forall_forall in Hrows. rewrite (Hrows row Hrow). done.
Qed.

Section Main_facts.
Context {O : SetOrder}.

(** X27: the script always ends.  With a number of arguments other than one
    it prints the usage line and exits with status 1.  Otherwise the only
    exception it can end with is the one that reading the file raises, in
    which case nothing is printed: a grid that a reader returns passes the
    assertion of the constructor, [solve] returns, and [print_grid] prints
    either the line ['No solution found (unsolvable)'] or eleven lines. *)
Theorem main_ends argv :
  ∃ out e, main argv = Done (out, e) ∧
    match e with
    | Exited status =>
        length argv ≠ 2 ∧ status = 1%Z
        ∧ out = ["Usage: python sudoku_csp.py puzzle.txt|puzzle.csv"]
    | Raised ex =>
        length argv = 2 ∧ out = []
        ∧ (if str_endswith (str_lower (argv !!! 1)) ".csv"
           then read_puzzle_from_csv (argv !!! 1)
           else read_puzzle_from_txt (argv !!! 1)) = inl ex
    | Returned =>
        length argv = 2
        ∧ ∃ g self r,
            (if str_endswith (str_lower (argv !!! 1)) ".csv"
             then read_puzzle_from_csv (argv !!! 1)
             else read_puzzle_from_txt (argv !!! 1)) = inr g
            ∧ new_SudokuCSP g = inr self ∧ solve self = Done r
            ∧ print_grid r = (out, None)
            ∧ (r = None ∧ out = ["No solution found (unsolvable)"]
               ∨ (∃ sol, r = Some sol) ∧ length out = 11)
    end.
Proof.
  unfold main. case_bool_decide as Hargv.
  { eexists _, _. split; [done|]. done. }
  assert (length argv = 2) as Hlen by (destruct (decide (length argv = 2)); [done|by destruct Hargv]).
  destruct (if str_endswith (str_lower (argv !!! 1)) ".csv"
            then read_puzzle_from_csv (argv !!! 1)
            else read_puzzle_from_txt (argv !!! 1)) as [ex|g] eqn:Hread.
  { eexists _, _. split; [done|]. done. }
  assert (is_9x9 g) as Hg.
  { destruct (str_endswith (str_lower (argv !!! 1)) ".csv").
    - by apply read_puzzle_from_csv_9x9 in Hread.
    - by apply read_puzzle_from_txt_9x9 in Hread. }
  rewrite (new_SudokuCSP_9x9 g Hg).
  destruct (solve_spec
              {| grid := g;
                 domains :=
                   initialize_domains g
                     (list_to_map (map (λ c, (c, (∅ : gset Z))) cells)) |})
    as (r & Hr & Hvalid); [apply values_1_9_initialize|].
  rewrite Hr. destruct r as [sol|].
  - destruct (Hvalid sol eq_refl) as [[Hsol _] _].
    destruct (print_grid_printable sol (is_9x9_printable sol Hsol))
      as (out & Hout & Hlen11 & _).
    rewrite Hout. eexists _, _. split; [done|]. split; [done|].
    eexists g, _, _.
    split_and!; [done|by apply new_SudokuCSP_9x9|exact Hr|done|].
    right. split; [by eexists|done].
  - eexists _, _. split; [done|]. split; [done|].
    eexists g, _, _.
    split_and!; [done|by apply new_SudokuCSP_9x9|exact Hr|done|]. by left.
Qed.

End Main_facts.

End Reader_facts.

(** * The theorems on concrete inputs *)

Lemma is_9x9_puzzle_with_ten : is_9x9 puzzle_with_ten.
Proof. apply (bool_decide_unpack _). vm_compute. exact I. Defined.

Lemma total_on_cells_puzzle_domains : total_on_cells puzzle_domains.
Proof. apply (bool_decide_unpack _). vm_compute. exact I. Defined.

Lemma values_1_9_puzzle_domains : values_1_9 puzzle_domains.
Proof. apply (bool_decide_unpack _). vm_compute. exact I. Defined.

Lemma live_store_of_puzzle : Store.live (store_of puzzle_domains) 0.
Proof. apply (bool_decide_unpack _). vm_compute. exact I. Defined.

(** The solver solves the puzzle, whatever the iteration order. *)
Example solve_puzzle (O : SetOrder) :
  ∃ self, new_SudokuCSP puzzle = inr self ∧
    solve self
    = Done (Some
        [ [5;3;4;6;7;8;9;1;2]; [6;7;2;1;9;5;3;4;8]; [1;9;8;3;4;2;5;6;7];
          [8;5;9;7;6;1;4;2;3]; [4;2;6;8;5;3;7;9;1]; [7;1;3;9;2;4;8;5;6];
          [9;6;1;5;3;7;2;8;4]; [2;8;7;4;1;9;6;3;5]; [3;4;5;2;8;6;1;7;9] ]%Z).
Proof.
  destruct (solve_order O elements_order puzzle) as [-> Hsolve].
  eexists. split; [apply new_SudokuCSP_9x9, is_9x9_puzzle|].
  rewrite Hsolve. vm_compute. reflexivity.
Qed.

(** Two equal clues in a row: no solution. *)
Example solve_two_fives (O : SetOrder) :
  ∃ self, new_SudokuCSP two_fives = inr self ∧ solve self = Done None.
Proof.
  destruct (solve_order O elements_order two_fives) as [-> Hsolve].
  eexists. split.
  - apply new_SudokuCSP_9x9. apply (bool_decide_unpack _). vm_compute. exact I.
  - rewrite Hsolve. vm_compute. reflexivity.
Qed.

(** An entry of 10 is solved as a blank: the grid returned holds 5 there. *)
Example solve_puzzle_with_ten (O : SetOrder) :
  ∃ self g, new_SudokuCSP puzzle_with_ten = inr self
            ∧ solve self = Done (Some g)
            ∧ grid_at puzzle_with_ten 0 0 = 10%Z ∧ grid_at g 0 0 = 5%Z.
Proof.
  destruct (solve_order O elements_order puzzle_with_ten) as [-> Hsolve].
  eexists _, _. split; [apply new_SudokuCSP_9x9, is_9x9_puzzle_with_ten|].
  rewrite Hsolve. split; [vm_compute; reflexivity|]. split; reflexivity.
Qed.

(** In the store, [ac3] on the dictionary of the puzzle and a whole search
    return, and the search leaves the dictionary it started from as it
    was. *)
Example store_backtrack_puzzle :
  match Store.backtrack (O := elements_order) 81 0 (store_of puzzle_domains)
  with
  | Done (Some nd, h') =>
      bool_decide (Store.value_of h' 0 = puzzle_domains)
      && is_solved (Store.value_of h' nd)
  | _ => false
  end = true.
Proof. vm_compute. reflexivity. Qed.

Lemma solve_returns_none_or_valid_grid_witness :
  is_9x9 puzzle ∧ entries_0_9 puzzle
  ∧ ∃ self, new_SudokuCSP (O := elements_order) puzzle = inr self ∧
      ∃ r, solve (O := elements_order) self = Done r ∧
        (r = None ∨ ∃ g, r = Some g ∧ valid_solution g).
Proof.
  split; [exact is_9x9_puzzle|]. split; [exact entries_0_9_puzzle|].
  exact (solve_returns_none_or_valid_grid (O := elements_order) puzzle
           is_9x9_puzzle entries_0_9_puzzle).
Defined.

Lemma clue_is_kept_witness :
  is_9x9 puzzle ∧ entries_0_9 puzzle
  ∧ ∃ self, new_SudokuCSP (O := elements_order) puzzle = inr self ∧
      ∀ rc v, rc ∈ cells → clue puzzle rc v →
        dom_of (domains self) rc = {[v]}
        ∧ (∀ d, produced (O := elements_order) self d → dom_of d rc = {[v]})
        ∧ (∀ g, solve (O := elements_order) self = Done (Some g) → grid_at g rc.1 rc.2 = v).
Proof.
  split; [exact is_9x9_puzzle|]. split; [exact entries_0_9_puzzle|].
  exact (clue_is_kept (O := elements_order) puzzle
           is_9x9_puzzle entries_0_9_puzzle).
Defined.

Lemma initial_domains_spec_witness :
  is_9x9 puzzle ∧ entries_0_9 puzzle
  ∧ ∃ self, new_SudokuCSP (O := elements_order) puzzle = inr self ∧
      ∀ rc, rc ∈ cells →
        size (peers rc) = 20
        ∧ (∀ v, clue puzzle rc v → dom_of (domains self) rc = {[v]})
        ∧ (grid_at puzzle rc.1 rc.2 = 0%Z →
           ∀ w, w ∈ dom_of (domains self) rc
                ↔ (1 ≤ w ≤ 9)%Z ∧ ¬ peer_clue puzzle rc w).
Proof.
  split; [exact is_9x9_puzzle|]. split; [exact entries_0_9_puzzle|].
  exact (initial_domains_spec (O := elements_order) puzzle
           is_9x9_puzzle entries_0_9_puzzle).
Defined.

(** The grid [puzzle_with_ten] holds 10 in its first cell; the solver
    accepts it, starts that cell from [{5}] and returns a grid with 5
    there. *)
Lemma out_of_range_entry_is_blank_witness :
  is_9x9 puzzle_with_ten ∧ grid_at puzzle_with_ten 0 0 = 10%Z
  ∧ ∃ self, new_SudokuCSP (O := elements_order) puzzle_with_ten = inr self
      ∧ (∀ w, w ∈ dom_of (domains self) (0, 0)
              ↔ (1 ≤ w ≤ 9)%Z ∧ ¬ peer_clue puzzle_with_ten (0, 0) w)
      ∧ ∃ g, solve (O := elements_order) self = Done (Some g) ∧ grid_at g 0 0 = 5%Z.
Proof.
  split; [exact is_9x9_puzzle_with_ten|]. split; [reflexivity|].
  destruct (out_of_range_entry_is_blank (O := elements_order) puzzle_with_ten
              is_9x9_puzzle_with_ten) as (self & Hnew & Hspec).
  exists self. split; [exact Hnew|].
  destruct (Hspec (0, 0)) as [Hdom _].
  - apply (bool_decide_unpack _). vm_compute. exact I.
  - vm_compute. intros [_ H]. apply H. reflexivity.
  - split; [exact Hdom|].
    rewrite (new_SudokuCSP_9x9 _ is_9x9_puzzle_with_ten) in Hnew.
    apply (inj inr) in Hnew. subst self.
    eexists. split; vm_compute; reflexivity.
Defined.

Lemma ac3_prunes_against_singletons_witness :
  total_on_cells puzzle_domains
  ∧ ∃ b d', ac3 (O := elements_order) puzzle_domains = Done (b, d')
      ∧ shrinks d' puzzle_domains
      ∧ (b = false
         ↔ ∃ c, c ∈ cells ∧ dom_of puzzle_domains c ≠ ∅ ∧ dom_of d' c = ∅).
Proof.
  split; [exact total_on_cells_puzzle_domains|].
  destruct (ac3_prunes_against_singletons (O := elements_order) puzzle_domains
              total_on_cells_puzzle_domains)
    as (_ & b & d' & Hrun & Hsh & _ & _ & Hfail).
  exists b, d'. split; [exact Hrun|]. split; [exact Hsh|exact Hfail].
Defined.

Lemma ac3_idempotent_after_success_witness :
  total_on_cells puzzle_domains
  ∧ ∃ b d', ac3 (O := elements_order) puzzle_domains = Done (b, d')
      ∧ (b = true → ac3 (O := elements_order) d' = Done (true, d')).
Proof.
  split; [exact total_on_cells_puzzle_domains|].
  exact (ac3_idempotent_after_success (O := elements_order) puzzle_domains
           total_on_cells_puzzle_domains).
Defined.

Lemma ac3_terminates_witness :
  total_on_cells puzzle_domains ∧ values_1_9 puzzle_domains
  ∧ ∃ b d', ac3 (O := elements_order) puzzle_domains = Done (b, d')
      ∧ (∀ fuel, 1620 + 20 * 729 ≤ fuel →
           ac3_loop (O := elements_order) fuel puzzle_domains (all_arcs (O := elements_order))
           = Done (b, d'))
      ∧ total_size d' ≤ total_size puzzle_domains
      ∧ total_size puzzle_domains - total_size d' ≤ 729.
Proof.
  split; [exact total_on_cells_puzzle_domains|].
  split; [exact values_1_9_puzzle_domains|].
  exact (proj2 (proj2 (ac3_terminates (O := elements_order) puzzle_domains
                         total_on_cells_puzzle_domains
                         values_1_9_puzzle_domains))).
Defined.

Lemma backtrack_depth_at_most_81_witness :
  total_on_cells puzzle_domains
  ∧ count_open puzzle_domains ≤ 81
  ∧ (∃ r, ∀ depth, count_open puzzle_domains ≤ depth →
            backtrack (O := elements_order) depth puzzle_domains = Done r)
  ∧ ∃ r, backtrack (O := elements_order) 81 puzzle_domains = Done r.
Proof.
  split; [exact total_on_cells_puzzle_domains|].
  destruct (backtrack_depth_at_most_81 (O := elements_order) puzzle_domains
              total_on_cells_puzzle_domains) as (H1 & H2 & H3 & _).
  split; [exact H1|]. split; [exact H2|exact H3].
Defined.

Lemma assign_and_propagate_leaves_caller_unchanged_witness :
  Store.live (store_of puzzle_domains) 0
  ∧ ∃ r h', Store.assign_and_propagate (O := elements_order) (0, 2) 1%Z 0
              (store_of puzzle_domains) = Done (r, h')
      ∧ Store.preserved (store_of puzzle_domains) h'
      ∧ Store.value_of h' 0 = Store.value_of (store_of puzzle_domains) 0.
Proof.
  split; [exact live_store_of_puzzle|].
  exact (proj1 (assign_and_propagate_leaves_caller_unchanged
                  (O := elements_order) (0, 2) 1%Z 0 (store_of puzzle_domains)
                  live_store_of_puzzle)).
Defined.

(** No two cells of the store built from the puzzle share a set. *)
Example separated_store_of_puzzle :
  Store.separated (store_of puzzle_domains) 0.
Proof.
  apply separated_check; [exact live_store_of_puzzle|].
  apply (bool_decide_unpack _). vm_compute. exact I.
Qed.

(** ** Further examples *)

Lemma completes_puzzle : completes puzzle_solution puzzle.
Proof.
  apply completes_check; [exact valid_solution_puzzle_solution|].
  apply (bool_decide_unpack _). vm_compute. exact I.
Defined.

Lemma no_conflict_puzzle_solution : no_conflict (cell_values puzzle_solution).
Proof.
  exact (proj1 (valid_solution_no_conflict _ valid_solution_puzzle_solution)).
Defined.

Lemma within_puzzle_domains :
  within (cell_values puzzle_solution) puzzle_domains.
Proof.
  exact (completes_within_initial (O := elements_order) _ _ _ completes_puzzle).
Defined.

Lemma arc_consistent_puzzle_propagated : arc_consistent puzzle_propagated.
Proof.
  apply arc_consistent_check. apply (bool_decide_unpack _). vm_compute. exact I.
Defined.

Lemma ac3_never_discards_a_solution_witness :
  no_conflict (cell_values puzzle_solution)
  ∧ within (cell_values puzzle_solution) puzzle_domains
  ∧ ∃ d', ac3 (O := elements_order) puzzle_domains = Done (true, d')
          ∧ within (cell_values puzzle_solution) d'.
Proof.
  split; [exact no_conflict_puzzle_solution|].
  split; [exact within_puzzle_domains|].
  exact (ac3_never_discards_a_solution (O := elements_order) _ _
           no_conflict_puzzle_solution within_puzzle_domains).
Defined.

Lemma peers_are_row_column_box_witness :
  (4, 4) ∈ cells
  ∧ ((3, 5) ∈ peers (4, 4) ↔
       (3, 5) ∈ cells ∧ (3, 5) ≠ (4, 4)
       ∧ ((3, 5).1 = (4, 4).1 ∨ (3, 5).2 = (4, 4).2
          ∨ ((3, 5).1 / 3 = (4, 4).1 / 3 ∧ (3, 5).2 / 3 = (4, 4).2 / 3)))
  ∧ ((3, 5) ∈ peers (4, 4) → (4, 4) ∈ peers (3, 5)).
Proof.
  assert ((4, 4) ∈ cells) as H by (apply elem_of_cells; cbn; lia).
  split; [exact H|]. exact (peers_are_row_column_box (4, 4) (3, 5) H).
Defined.

Lemma cell_0_2 : (0, 2) ∈ cells.
Proof. apply elem_of_cells. cbn. lia. Defined.

Lemma assign_and_propagate_result_witness :
  (0, 2) ∈ cells
  ∧ ∃ r, assign_and_propagate (O := elements_order) (0, 2) 4 puzzle_domains
         = Done r
    ∧ ((∃ p, p ∈ peers (0, 2) ∧ dom_of puzzle_domains p = {[4%Z]}) → r = None)
    ∧ ∀ nd, r = Some nd →
        dom_of nd (0, 2) = {[4%Z]}
        ∧ (∀ p, p ∈ peers (0, 2) → 4%Z ∉ dom_of nd p)
        ∧ (∀ c, c ≠ (0, 2) → dom_of nd c ⊆ dom_of puzzle_domains c)
        ∧ (∀ c, c ≠ (0, 2) → dom_of puzzle_domains c ≠ ∅ → dom_of nd c ≠ ∅)
        ∧ arc_consistent nd.
Proof.
  split; [exact cell_0_2|].
  exact (assign_and_propagate_result (O := elements_order) (0, 2) 4
           puzzle_domains cell_0_2).
Defined.

Lemma assign_and_propagate_keeps_a_solution_witness :
  no_conflict (cell_values puzzle_solution)
  ∧ within (cell_values puzzle_solution) puzzle_domains
  ∧ (0, 2) ∈ cells
  ∧ cell_values puzzle_solution (0, 2) = 4%Z
  ∧ ∃ nd, assign_and_propagate (O := elements_order) (0, 2)
            (cell_values puzzle_solution (0, 2)) puzzle_domains
          = Done (Some nd)
      ∧ within (cell_values puzzle_solution) nd.
Proof.
  split; [exact no_conflict_puzzle_solution|].
  split; [exact within_puzzle_domains|].
  split; [exact cell_0_2|]. split; [reflexivity|].
  exact (assign_and_propagate_keeps_a_solution (O := elements_order) _ _ _
           no_conflict_puzzle_solution within_puzzle_domains cell_0_2).
Defined.

Lemma backtrack_finds_a_solution_iff_one_exists_witness :
  arc_consistent puzzle_propagated
  ∧ ∃ r, backtrack (O := elements_order) 81 puzzle_propagated = Done r
      ∧ (∀ sol, r = Some sol →
           ∃ s, no_conflict s ∧ within s puzzle_propagated
                ∧ ∀ c, c ∈ cells → dom_of sol c = {[s c]})
      ∧ (r = None ↔ ¬ ∃ s, no_conflict s ∧ within s puzzle_propagated).
Proof.
  split; [exact arc_consistent_puzzle_propagated|].
  exact (backtrack_finds_a_solution_iff_one_exists (O := elements_order) _
           arc_consistent_puzzle_propagated).
Defined.

Lemma solve_finds_a_solution_iff_one_exists_witness :
  is_9x9 puzzle
  ∧ ∃ self, new_SudokuCSP (O := elements_order) puzzle = inr self ∧
      ∃ r, solve (O := elements_order) self = Done r
        ∧ (∀ g, r = Some g → completes g puzzle)
        ∧ (r = None ↔ ¬ ∃ g, completes g puzzle).
Proof.
  split; [exact is_9x9_puzzle|].
  exact (solve_finds_a_solution_iff_one_exists (O := elements_order) puzzle
           is_9x9_puzzle).
Defined.

(** [ac3] alone solves [puzzle]: every cell is left with the value of
    [puzzle_solution], so no other grid solves it. *)
Lemma puzzle_solution_unique g :
  completes g puzzle → g = puzzle_solution.
Proof.
  intros Hcomp.
  pose proof (completes_within_initial (O := elements_order) g puzzle
                (list_to_map (map (λ c, (c, (∅ : gset Z))) cells)) Hcomp)
    as Hin.
  destruct Hcomp as [Hvalid _]. pose proof Hvalid as [Hg _].
  apply valid_solution_no_conflict in Hvalid as [Hs _].
  destruct (ac3_keeps_solution (O := elements_order) _ _ Hs Hin)
    as (d & Hac3 & Hd).
  assert (d = puzzle_propagated) as ->.
  { unfold puzzle_propagated, puzzle_domains. by rewrite Hac3. }
  assert (Forall (λ c, dom_of puzzle_propagated c
                       = {[cell_values puzzle_solution c]}) cells) as Hall.
  { apply (bool_decide_unpack _). vm_compute. exact I. }
  rewrite Forall_forall in Hall.
  apply grid_ext; [done|apply valid_solution_puzzle_solution|].
  intros rc Hrc. specialize (Hd rc Hrc). rewrite (Hall rc Hrc) in Hd.
  by apply elem_of_singleton in Hd.
Qed.

Lemma solve_returns_the_unique_solution_witness :
  is_9x9 puzzle ∧ completes puzzle_solution puzzle
  ∧ (∀ g', completes g' puzzle → g' = puzzle_solution)
  ∧ ∃ self, new_SudokuCSP (O := elements_order) puzzle = inr self
            ∧ solve (O := elements_order) self = Done (Some puzzle_solution).
Proof.
  split; [exact is_9x9_puzzle|]. split; [exact completes_puzzle|].
  split; [exact puzzle_solution_unique|].
  exact (solve_returns_the_unique_solution (O := elements_order) puzzle
           puzzle_solution is_9x9_puzzle completes_puzzle
           puzzle_solution_unique).
Defined.

Lemma solve_returns_a_solved_grid_unchanged_witness :
  valid_solution puzzle_solution
  ∧ ∃ self, new_SudokuCSP (O := elements_order) puzzle_solution = inr self
            ∧ solve (O := elements_order) self = Done (Some puzzle_solution).
Proof.
  split; [exact valid_solution_puzzle_solution|].
  exact (solve_returns_a_solved_grid_unchanged (O := elements_order)
           puzzle_solution valid_solution_puzzle_solution).
Defined.

Lemma is_9x9_two_fives : is_9x9 two_fives.
Proof. apply (bool_decide_unpack _). vm_compute. exact I. Defined.

Lemma cell_0_0 : (0, 0) ∈ cells.
Proof. apply elem_of_cells. cbn. lia. Defined.

Lemma peer_0_1 : (0, 1) ∈ peers (0, 0).
Proof. apply (bool_decide_unpack _). vm_compute. exact I. Defined.

Lemma clue_two_fives_0_0 : clue two_fives (0, 0) 5.
Proof. split; [reflexivity|lia]. Defined.

Lemma clue_two_fives_0_1 : clue two_fives (0, 1) 5.
Proof. split; [reflexivity|lia]. Defined.

Lemma solve_rejects_equal_clues_in_peers_witness :
  is_9x9 two_fives ∧ (0, 0) ∈ cells ∧ (0, 1) ∈ peers (0, 0)
  ∧ clue two_fives (0, 0) 5 ∧ clue two_fives (0, 1) 5
  ∧ ∃ self, new_SudokuCSP (O := elements_order) two_fives = inr self
            ∧ solve (O := elements_order) self = Done None.
Proof.
  split; [exact is_9x9_two_fives|]. split; [exact cell_0_0|].
  split; [exact peer_0_1|]. split; [exact clue_two_fives_0_0|].
  split; [exact clue_two_fives_0_1|].
  exact (solve_rejects_equal_clues_in_peers (O := elements_order) two_fives
           (0, 0) (0, 1) 5 is_9x9_two_fives cell_0_0 peer_0_1
           clue_two_fives_0_0 clue_two_fives_0_1).
Defined.

Lemma is_9x9_empty_grid : is_9x9 empty_grid.
Proof. apply (bool_decide_unpack _). vm_compute. exact I. Defined.

Lemma empty_grid_blank rc :
  rc ∈ cells → ¬ (1 ≤ grid_at empty_grid rc.1 rc.2 ≤ 9)%Z.
Proof.
  intros Hrc.
  assert (Forall (λ rc, grid_at empty_grid rc.1 rc.2 = 0%Z) cells) as Hall.
  { apply (bool_decide_unpack _). vm_compute. exact I. }
  rewrite Forall_forall in Hall. rewrite (Hall rc Hrc). lia.
Defined.

Lemma solve_fills_a_grid_without_clues_witness :
  is_9x9 empty_grid
  ∧ (∀ rc, rc ∈ cells → ¬ (1 ≤ grid_at empty_grid rc.1 rc.2 ≤ 9)%Z)
  ∧ ∃ self, new_SudokuCSP (O := elements_order) empty_grid = inr self ∧
      ∃ g, solve (O := elements_order) self = Done (Some g)
           ∧ valid_solution g.
Proof.
  split; [exact is_9x9_empty_grid|]. split; [exact empty_grid_blank|].
  exact (solve_fills_a_grid_without_clues (O := elements_order) empty_grid
           is_9x9_empty_grid empty_grid_blank).
Defined.

Lemma solve_returns_none_on_an_empty_domain_witness :
  (0, 0) ∈ cells
  ∧ dom_of (<[(0, 0) := ∅]> two_fives_domains) (0, 0) = ∅
  ∧ solve (O := elements_order)
      {| grid := two_fives; domains := <[(0, 0) := ∅]> two_fives_domains |}
    = Done None.
Proof.
  split; [exact cell_0_0|]. split; [apply dom_of_insert_eq|].
  exact (solve_returns_none_on_an_empty_domain (O := elements_order)
           {| grid := two_fives;
              domains := <[(0, 0) := ∅]> two_fives_domains |}
           (0, 0) cell_0_0 (dom_of_insert_eq _ _ _)).
Defined.

Lemma solve_leaves_the_solver_unchanged_witness :
  Store.separated (store_of puzzle_domains) 0
  ∧ ∃ r h', Store.solve (O := elements_order) 0 (store_of puzzle_domains)
            = Done (r, h')
      ∧ solve (O := elements_order)
          {| grid := puzzle;
             domains := Store.value_of (store_of puzzle_domains) 0 |}
        = Done r
      ∧ Store.preserved (store_of puzzle_domains) h'
      ∧ Store.value_of h' 0 = Store.value_of (store_of puzzle_domains) 0
      ∧ ∃ h'', Store.solve (O := elements_order) 0 h' = Done (r, h'').
Proof.
  split; [exact separated_store_of_puzzle|].
  exact (solve_leaves_the_solver_unchanged (O := elements_order) puzzle 0
           (store_of puzzle_domains) separated_store_of_puzzle).
Defined.

Lemma ac3_updates_its_dictionary_in_place_witness :
  Store.separated (store_of puzzle_domains) 0
  ∧ ∃ b h', Store.ac3 (O := elements_order) 0 (store_of puzzle_domains)
            = Done (b, h')
      ∧ ac3 (O := elements_order)
          (Store.value_of (store_of puzzle_domains) 0)
        = Done (b, Store.value_of h' 0)
      ∧ Store.dicts h' = Store.dicts (store_of puzzle_domains)
      ∧ length (Store.sets h') = length (Store.sets (store_of puzzle_domains)).
Proof.
  split; [exact separated_store_of_puzzle|].
  destruct (ac3_updates_its_dictionary_in_place (O := elements_order) 0
              (store_of puzzle_domains) separated_store_of_puzzle)
    as (b & h' & H1 & H2 & H3 & H4 & _).
  exists b, h'. split; [exact H1|]. split; [exact H2|].
  split; [exact H3|exact H4].
Defined.

(** *** The utilities on the files of the puzzle *)

Lemma read_puzzle_txt :
  read_puzzle_from_txt (B := ascii_builtins) (F := puzzle_files) "puzzle.txt"
  = inr puzzle.
Proof. vm_compute. reflexivity. Defined.

Lemma read_puzzle_csv :
  read_puzzle_from_csv (B := ascii_builtins) (F := puzzle_files) "puzzle.csv"
  = inr puzzle.
Proof. vm_compute. reflexivity. Defined.

Lemma read_puzzle_from_txt_returns_a_9x9_grid_witness :
  read_puzzle_from_txt (B := ascii_builtins) (F := puzzle_files) "puzzle.txt"
  = inr puzzle
  ∧ is_9x9 puzzle
  ∧ ∀ O : SetOrder, ∃ self, new_SudokuCSP puzzle = inr self.
Proof.
  split; [exact read_puzzle_txt|].
  destruct (read_puzzle_from_txt_returns_a_9x9_grid (B := ascii_builtins)
              (F := puzzle_files) "puzzle.txt" puzzle read_puzzle_txt)
    as (H1 & H2 & _).
  split; [exact H1|exact H2].
Defined.

Lemma read_puzzle_from_csv_returns_a_9x9_grid_witness :
  read_puzzle_from_csv (B := ascii_builtins) (F := puzzle_files) "puzzle.csv"
  = inr puzzle
  ∧ is_9x9 puzzle
  ∧ ∀ O : SetOrder, ∃ self, new_SudokuCSP puzzle = inr self.
Proof.
  split; [exact read_puzzle_csv|].
  destruct (read_puzzle_from_csv_returns_a_9x9_grid (B := ascii_builtins)
              (F := puzzle_files) "puzzle.csv" puzzle read_puzzle_csv)
    as (H1 & H2 & _).
  split; [exact H1|exact H2].
Defined.

Lemma strip_newline :
  str_strip (Builtins := ascii_builtins) (newline) = "".
Proof. reflexivity. Defined.

Lemma open_puzzle_txt :
  open_text (FileSystem := puzzle_files) "puzzle.txt"
  = inr {| yields := take 3 puzzle_txt
                    ++ newline :: drop 4 puzzle_txt;
           then_raises := None |}.
Proof. reflexivity. Defined.

Lemma open_dense_txt :
  open_text (FileSystem := puzzle_files) "dense.txt"
  = inr {| yields := take 3 puzzle_txt ++ drop 4 puzzle_txt;
           then_raises := None |}.
Proof. reflexivity. Defined.

Lemma read_puzzle_from_txt_skips_blank_lines_witness :
  str_strip (Builtins := ascii_builtins) (newline) = ""
  ∧ open_text (FileSystem := puzzle_files) "puzzle.txt"
    = inr {| yields := take 3 puzzle_txt
                      ++ newline :: drop 4 puzzle_txt;
             then_raises := None |}
  ∧ open_text (FileSystem := puzzle_files) "dense.txt"
    = inr {| yields := take 3 puzzle_txt ++ drop 4 puzzle_txt;
             then_raises := None |}
  ∧ read_puzzle_from_txt (B := ascii_builtins) (F := puzzle_files)
      "puzzle.txt"
    = read_puzzle_from_txt (B := ascii_builtins) (F := puzzle_files)
        "dense.txt".
Proof.
  split; [exact strip_newline|]. split; [exact open_puzzle_txt|].
  split; [exact open_dense_txt|].
  exact (read_puzzle_from_txt_skips_blank_lines (B := ascii_builtins)
           puzzle_files puzzle_files "puzzle.txt" "dense.txt" _ _ _ _
           strip_newline open_puzzle_txt open_dense_txt).
Defined.

Lemma open_short_txt :
  open_text (FileSystem := puzzle_files) "short.txt"
  = inr {| yields := take 5 puzzle_txt; then_raises := None |}.
Proof. reflexivity. Defined.

Lemma rows_short_txt :
  Forall2 (λ line row,
             length (txt_parts (B := ascii_builtins) line) = 9
             ∧ parse_tokens (B := ascii_builtins) id
                 (txt_parts (B := ascii_builtins) line) = inr row)
    (filter (λ line, line ≠ "")
       (map (str_strip (Builtins := ascii_builtins)) (take 5 puzzle_txt)))
    (take 4 puzzle).
Proof.
  vm_compute. repeat (constructor; [split; reflexivity|]). constructor.
Defined.

Lemma read_puzzle_from_txt_counts_the_rows_witness :
  open_text (FileSystem := puzzle_files) "short.txt"
  = inr {| yields := take 5 puzzle_txt; then_raises := None |}
  ∧ Forall2 (λ line row,
               length (txt_parts (B := ascii_builtins) line) = 9
               ∧ parse_tokens (B := ascii_builtins) id
                   (txt_parts (B := ascii_builtins) line) = inr row)
      (filter (λ line, line ≠ "")
         (map (str_strip (Builtins := ascii_builtins)) (take 5 puzzle_txt)))
      (take 4 puzzle)
  ∧ read_puzzle_from_txt (B := ascii_builtins) (F := puzzle_files)
      "short.txt"
    = inl (ValueError "File must contain 9 non-empty rows").
Proof.
  split; [exact open_short_txt|]. split; [exact rows_short_txt|].
  exact (read_puzzle_from_txt_counts_the_rows (B := ascii_builtins)
           (F := puzzle_files) "short.txt" _ (take 4 puzzle) open_short_txt
           eq_refl rows_short_txt).
Defined.

Lemma open_bad_txt :
  open_text (FileSystem := puzzle_files) "bad.txt"
  = inr {| yields := take 2 puzzle_txt ++ ("1 2 3" +:+ newline)
                       :: drop 2 puzzle_txt;
           then_raises := None |}.
Proof. reflexivity. Defined.

Lemma rows_bad_txt :
  Forall2 (λ line row,
             length (txt_parts (B := ascii_builtins) line) = 9
             ∧ parse_tokens (B := ascii_builtins) id
                 (txt_parts (B := ascii_builtins) line) = inr row)
    (filter (λ line, line ≠ "")
       (map (str_strip (Builtins := ascii_builtins)) (take 2 puzzle_txt)))
    (take 2 puzzle).
Proof.
  vm_compute. repeat (constructor; [split; reflexivity|]). constructor.
Defined.

Lemma strip_bad_line :
  str_strip (Builtins := ascii_builtins) ("1 2 3" +:+ newline) ≠ "".
Proof. vm_compute. discriminate. Defined.

Lemma parts_bad_line :
  length (txt_parts (B := ascii_builtins)
            (str_strip (Builtins := ascii_builtins) ("1 2 3" +:+ newline)))
  ≠ 9.
Proof. vm_compute. lia. Defined.

Lemma read_puzzle_from_txt_reports_the_first_bad_line_witness :
  open_text (FileSystem := puzzle_files) "bad.txt"
  = inr {| yields := take 2 puzzle_txt ++ ("1 2 3" +:+ newline)
                       :: drop 2 puzzle_txt;
           then_raises := None |}
  ∧ str_strip (Builtins := ascii_builtins) ("1 2 3" +:+ newline) ≠ ""
  ∧ length (txt_parts (B := ascii_builtins)
              (str_strip (Builtins := ascii_builtins)
                 ("1 2 3" +:+ newline))) ≠ 9
  ∧ read_puzzle_from_txt (B := ascii_builtins) (F := puzzle_files) "bad.txt"
    = inl (ValueError "Each line must have 9 values (use 0 or . for empty)").
Proof.
  split; [exact open_bad_txt|]. split; [exact strip_bad_line|].
  split; [exact parts_bad_line|].
  exact (proj1 (read_puzzle_from_txt_reports_the_first_bad_line
                  (B := ascii_builtins) (F := puzzle_files) "bad.txt" _ _ _ _ _
                  open_bad_txt eq_refl rows_bad_txt strip_bad_line)
           parts_bad_line).
Defined.

Lemma blank_csv_row :
  Forall (λ cell, str_strip (Builtins := ascii_builtins) cell = "") [""; " "].
Proof. repeat constructor. Defined.

Lemma open_puzzle_csv :
  open_csv (FileSystem := puzzle_files) "puzzle.csv"
  = inr {| yields := take 3 puzzle_csv ++ [""; " "] :: drop 4 puzzle_csv;
           then_raises := None |}.
Proof. reflexivity. Defined.

Lemma open_dense_csv :
  open_csv (FileSystem := puzzle_files) "dense.csv"
  = inr {| yields := take 3 puzzle_csv ++ drop 4 puzzle_csv;
           then_raises := None |}.
Proof. reflexivity. Defined.

Lemma read_puzzle_from_csv_skips_blank_rows_witness :
  Forall (λ cell, str_strip (Builtins := ascii_builtins) cell = "") [""; " "]
  ∧ open_csv (FileSystem := puzzle_files) "puzzle.csv"
    = inr {| yields := take 3 puzzle_csv ++ [""; " "] :: drop 4 puzzle_csv;
             then_raises := None |}
  ∧ open_csv (FileSystem := puzzle_files) "dense.csv"
    = inr {| yields := take 3 puzzle_csv ++ drop 4 puzzle_csv;
             then_raises := None |}
  ∧ read_puzzle_from_csv (B := ascii_builtins) (F := puzzle_files) "puzzle.csv"
    = read_puzzle_from_csv (B := ascii_builtins) (F := puzzle_files)
        "dense.csv".
Proof.
  split; [exact blank_csv_row|]. split; [exact open_puzzle_csv|].
  split; [exact open_dense_csv|].
  exact (read_puzzle_from_csv_skips_blank_rows (B := ascii_builtins)
           puzzle_files puzzle_files "puzzle.csv" "dense.csv" _ _ _ _
           blank_csv_row open_puzzle_csv open_dense_csv).
Defined.

Lemma printable_puzzle_solution : printable puzzle_solution.
Proof. apply (bool_decide_unpack _). vm_compute. exact I. Defined.

Lemma print_grid_prints_eleven_lines_witness :
  printable puzzle_solution
  ∧ ∃ out, print_grid (B := ascii_builtins) (Some puzzle_solution)
           = (out, None)
      ∧ length out = 11
      ∧ out !! 3 = Some (str_mul "-" 21) ∧ out !! 7 = Some (str_mul "-" 21).
Proof.
  split; [exact printable_puzzle_solution|].
  destruct (print_grid_prints_eleven_lines (B := ascii_builtins)
              puzzle_solution printable_puzzle_solution)
    as (out & H1 & H2 & H3 & H4 & _).
  exists out. split; [exact H1|]. split; [exact H2|].
  split; [exact H3|exact H4].
Defined.

(** The script on the text file: the solution, as [print_grid] lays it
    out. *)
Example main_puzzle_txt (O : SetOrder) :
  main (B := ascii_builtins) (F := puzzle_files)
    ["sudoku_csp.py"; "puzzle.txt"]
  = Done
      ([ "5 3 4 | 6 7 8 | 9 1 2 "; "6 7 2 | 1 9 5 | 3 4 8 ";
         "1 9 8 | 3 4 2 | 5 6 7 "; "---------------------";
         "8 5 9 | 7 6 1 | 4 2 3 "; "4 2 6 | 8 5 3 | 7 9 1 ";
         "7 1 3 | 9 2 4 | 8 5 6 "; "---------------------";
         "9 6 1 | 5 3 7 | 2 8 4 "; "2 8 7 | 4 1 9 | 6 3 5 ";
         "3 4 5 | 2 8 6 | 1 7 9 " ], Returned).
Proof.
  unfold main. rewrite bool_decide_eq_false_2 by (intros H; by apply H).
  change (str_endswith _ _) with false. cbv iota.
  change (["sudoku_csp.py"; "puzzle.txt"] !!! 1) with "puzzle.txt".
  rewrite read_puzzle_txt.
  destruct (solve_puzzle O) as (self & -> & ->). reflexivity.
Qed.
